(** * cattleshed session engine: a shallow embedding of [server.cc]

  The development follows the components of [src/cattleshed/src/server.cc]:
  the frame codec ([socket_write_buffer::async_write_command] and the
  [qi] grammar of [compiler_bridge]), the admission semaphore, the path
  stager [recursive_create_open_at], the output limiter
  [write_limit_counter], the protocol state machine [compiler_bridge],
  the staging writer [program_writer] and the two-phase
  [program_runner].

  Conventions.  C++ [std::string] is [string]; [int] and [size_t] are
  [Z]/[N] with their bounds written out; a [std::unordered_map] is a
  key-unique association list together with an unspecified iteration
  order; system calls are answered by a kernel passed as a record of
  operations, and every call is logged. *)

From Stdlib Require Import ZArith NArith List Bool Ascii String Lia Permutation.
From Stdlib Require Decimal DecimalString DecimalN DecimalPos.
Import ListNotations.

#[local] Open Scope string_scope.
#[local] Open Scope Z_scope.

Set Implicit Arguments.

(* ===================================================================== *)
(** * Strings and characters *)
(* ===================================================================== *)

Module Str.

Definition LF : ascii := Ascii.ascii_of_nat 10.
Definition CR : ascii := Ascii.ascii_of_nat 13.

(** [std::isspace] in the "C" locale, which is what [qi::space]
    (the [standard] encoding) tests. *)
Definition is_space (c : ascii) : bool :=
  let n := Ascii.nat_of_ascii c in
  (Nat.eqb n 32 || (Nat.leb 9 n && Nat.leb n 13))%bool.

Definition is_digit (c : ascii) : bool :=
  let n := Ascii.nat_of_ascii c in (Nat.leb 48 n && Nat.leb n 57)%bool.

Definition digit_value (c : ascii) : N := N.of_nat (Ascii.nat_of_ascii c - 48).

Fixpoint forallb (p : ascii -> bool) (s : string) : bool :=
  match s with
  | EmptyString => true
  | String c t => (p c && forallb p t)%bool
  end.

Fixpoint repeat (c : ascii) (n : nat) : string :=
  match n with
  | O => EmptyString
  | S k => String c (repeat c k)
  end.

(** [std::string::length], a [size_t]. *)
Definition len (s : string) : N := N.of_nat (String.length s).

(** [std::to_string(size_t)]: decimal digits, no sign, no padding. *)
Definition to_string (n : N) : string := DecimalString.NilEmpty.string_of_uint (N.to_uint n).

(** [s.empty()] *)
Definition empty (s : string) : bool :=
  match s with EmptyString => true | _ => false end.

(** [filename[0]]: the first character, or NUL for the empty string. *)
Definition front (s : string) : ascii :=
  match s with EmptyString => Ascii.zero | String c _ => c end.

(** [boost::algorithm::split(out, s, is_any_of(seps))] with the default
    [token_compress_off]: [n] separators give [n+1] tokens, the empty
    input gives one empty token. *)
Fixpoint split (is_sep : ascii -> bool) (s : string) : list string :=
  match s with
  | EmptyString => [EmptyString]
  | String c t =>
      if is_sep c then EmptyString :: split is_sep t
      else match split is_sep t with
           | [] => [String c EmptyString]
           | tok :: toks => String c tok :: toks
           end
  end.

(** The tokens put back together, [sep] between two neighbours. *)
Fixpoint join (sep : ascii) (l : list string) : string :=
  match l with
  | [] => EmptyString
  | [tok] => tok
  | tok :: rest => tok ++ String sep (join sep rest)
  end.

Fixpoint map (f : ascii -> ascii) (s : string) : string :=
  match s with
  | EmptyString => EmptyString
  | String c t => String (f c) (map f t)
  end.

(** [boost::algorithm::replace_all(s, "\r\n", "\n")]: one left-to-right
    pass over non-overlapping occurrences. *)
Fixpoint replace_all_crlf (s : string) : string :=
  match s with
  | EmptyString => EmptyString
  | String c t =>
      match t with
      | String c' t' =>
          if (Ascii.eqb c CR && Ascii.eqb c' LF)%bool
          then String LF (replace_all_crlf t')
          else String c (replace_all_crlf t)
      | EmptyString => String c EmptyString
      end
  end.





End Str.

(* ===================================================================== *)
(** * Quoted-printable payload coding *)
(* ===================================================================== *)

Module QuotedPrintable.

Definition hex_char (n : nat) : ascii :=
  Ascii.ascii_of_nat (if Nat.ltb n 10 then 48 + n else 55 + n).

Definition hex_value (c : ascii) : option nat :=
  let n := Ascii.nat_of_ascii c in
  if (Nat.leb 48 n && Nat.leb n 57)%bool then Some (n - 48)%nat
  else if (Nat.leb 65 n && Nat.leb n 70)%bool then Some (n - 55)%nat
  else if (Nat.leb 97 n && Nat.leb n 102)%bool then Some (n - 87)%nat
  else None.

Definition is_literal (c : ascii) : bool :=
  let n := Ascii.nat_of_ascii c in
  (Nat.leb 33 n && Nat.leb n 126 && negb (Nat.eqb n 61))%bool.

Definition encode_char (c : ascii) : string :=
  if is_literal c then String c EmptyString
  else let n := Ascii.nat_of_ascii c in
       String "=" (String (hex_char (n / 16)) (String (hex_char (n mod 16)) EmptyString)).

(** Modelled from the spec: [quoted_printable::encode] lives in
    [quoted_printable.hpp], which is not part of the sources at hand.  The
    spec only says that payloads are "quoted-printable of the binary
    payload"; this is the plain coding: printable ASCII other than [=]
    stands for itself, every other byte is [=XX] in upper-case hex. *)
Fixpoint encode (s : string) : string :=
  match s with
  | EmptyString => EmptyString
  | String c t => encode_char c ++ encode t
  end.

(** Modelled from the spec: [quoted_printable::decode], from the same
    missing header: [=XX] is one byte, a soft line break ([=] followed by
    an end of line) is dropped, anything else stands for itself. *)
Fixpoint decode (s : string) : string :=
  match s with
  | EmptyString => EmptyString
  | String c t =>
      if Ascii.eqb c "=" then
        match t with
        | String h t1 =>
            match t1 with
            | String l t2 =>
                match hex_value h, hex_value l with
                | Some x, Some y => String (Ascii.ascii_of_nat (16 * x + y)) (decode t2)
                | _, _ =>
                    if (Ascii.eqb h Str.CR && Ascii.eqb l Str.LF)%bool then decode t2
                    else if Ascii.eqb h Str.LF then decode t1
                    else String c (decode t)
                end
            | EmptyString =>
                if Ascii.eqb h Str.LF then EmptyString else String c (decode t)
            end
        | EmptyString => String c EmptyString
        end
      else String c (decode t)
  end.





End QuotedPrintable.

(* ===================================================================== *)
(** * FrameCodec: the [CMD LEN:DATA\n] framing *)
(* ===================================================================== *)

Module FrameCodec.

Definition INT_MAX : Z := 2147483647.
Definition INT_MIN : Z := -2147483648.

(** ** The [qi] primitives used by the grammar of [compiler_bridge] *)

Fixpoint take_while (p : ascii -> bool) (s : string) : string * string :=
  match s with
  | EmptyString => (EmptyString, EmptyString)
  | String c t =>
      if p c then let (a, r) := take_while p t in (String c a, r)
      else (EmptyString, s)
  end.

(** [+(qi::char_ - qi::space)] *)
Definition qi_plus_nonspace (s : string) : option (string * string) :=
  let (tok, r) := take_while (fun c => negb (Str.is_space c)) s in
  if Str.empty tok then None else Some (tok, r).

(** [*qi::space] *)
Definition qi_star_space (s : string) : string := snd (take_while Str.is_space s).

Fixpoint digits (s : string) (acc : N) : N * string :=
  match s with
  | EmptyString => (acc, EmptyString)
  | String c t =>
      if Str.is_digit c then digits t (10 * acc + Str.digit_value c)%N
      else (acc, s)
  end.

(** [qi::int_]: an optional sign, at least one decimal digit, and failure
    (not truncation) when the value does not fit an [int]. *)
Definition qi_int (s : string) : option (Z * string) :=
  let '(neg, s1) :=
    match s with
    | String c t =>
        if Ascii.eqb c "-" then (true, t)
        else if Ascii.eqb c "+" then (false, t)
        else (false, s)
    | EmptyString => (false, s)
    end in
  match s1 with
  | String c _ =>
      if Str.is_digit c then
        let (n, rest) := digits s1 0%N in
        let v := if neg : bool then - Z.of_N n else Z.of_N n in
        if ((INT_MIN <=? v) && (v <=? INT_MAX))%bool then Some (v, rest) else None
      else None
  | EmptyString => None
  end.

(** [qi::repeat(n)[qi::char_]]: exactly [n] characters, whatever they are. *)
Fixpoint qi_repeat_char (n : nat) (s : string) : option (string * string) :=
  match n with
  | O => Some (EmptyString, s)
  | S k =>
      match s with
      | EmptyString => None
      | String c t =>
          match qi_repeat_char k t with
          | Some (a, r) => Some (String c a, r)
          | None => None
          end
      end
  end.

(** [qi::eol]: CR, LF or CR LF. *)
Definition qi_eol (s : string) : option string :=
  match s with
  | String c t =>
      if Ascii.eqb c Str.CR then
        match t with
        | String c' t' => if Ascii.eqb c' Str.LF then Some t' else Some t
        | EmptyString => Some t
        end
      else if Ascii.eqb c Str.LF then Some t
      else None
  | EmptyString => None
  end.

(** One application of the grammar at the head of the receive buffer
    ([compiler_bridge::operator()], the [qi::parse] call): the command, the
    payload as it is on the wire, and the rest of the buffer. *)
Definition parse_frame (buf : string) : option (string * string * string) :=
  match qi_plus_nonspace buf with
  | None => None
  | Some (command, s1) =>
      match qi_int (qi_star_space s1) with
      | None => None
      | Some (len, s3) =>
          match s3 with
          | String c s4 =>
              if Ascii.eqb c ":" then
                match qi_repeat_char (Z.to_nat len) s4 with
                | None => None
                | Some (data, s5) =>
                    match qi_eol s5 with
                    | None => None
                    | Some rest => Some (command, data, rest)
                    end
                end
              else None
          | EmptyString => None
          end
      end
  end.

(** A command name as the grammar can read it back: at least one
    character, none of them white space. *)
Definition well_formed_command (cmd : string) : Prop :=
  cmd <> "" /\ Str.forallb (fun c => negb (Str.is_space c)) cmd = true.

(** A frame on the wire: [cmd + " " + std::to_string(data.length()) + ":" +
    data + "\n"], with [data] already quoted-printable. *)
Definition frame_bytes (cmd data : string) : string :=
  cmd ++ " " ++ Str.to_string (Str.len data) ++ ":" ++ data ++ String Str.LF "".

(** A byte stream made of whole frames. *)
Fixpoint stream (fs : list (string * string)) : string :=
  match fs with
  | [] => EmptyString
  | (cmd, data) :: rest => frame_bytes cmd data ++ stream rest
  end.

(** A frame the grammar can read back: a well-formed command and a length
    that fits an [int]. *)
Definition readable (f : string * string) : Prop :=
  well_formed_command (fst f) /\ Z.of_N (Str.len (snd f)) <= INT_MAX.

Section Codec.

(** [quoted_printable::encode] and [quoted_printable::decode]. *)
Variables qp_encode qp_decode : string -> string.

(** The bytes [socket_write_buffer::async_write_command] appends to
    [back_buf]. *)
Definition async_write_command (cmd data : string) : string :=
  let data := qp_encode data in
  frame_bytes cmd data.

(** The inbound decoder: one frame parsed off the buffer and its payload
    passed through [quoted_printable::decode], as every accumulating
    branch of [compiler_bridge] does. *)
Definition decode_frame (buf : string) : option (string * string * string) :=
  match parse_frame buf with
  | Some (command, data, rest) => Some (command, qp_decode data, rest)
  | None => None
  end.

End Codec.

End FrameCodec.

(* ===================================================================== *)
(** * [std::unordered_map<std::string, std::string>] *)
(* ===================================================================== *)

Module UMap.

(** The entries, one per key, kept in the order in which the keys were
    first inserted.  That order is a record of the history only: what
    iterating the container yields is [iteration_order] below. *)
Definition t : Type := list (string * string).

Definition empty : t := [].

(** [m.find(k)] *)
Fixpoint find (k : string) (m : t) : option string :=
  match m with
  | [] => None
  | (k', v) :: r => if String.eqb k k' then Some v else find k r
  end.

(** The value [m[k]] reads: the mapped string, empty for a fresh key. *)
Definition at_ (k : string) (m : t) : string :=
  match find k m with Some v => v | None => EmptyString end.

(** [m[k] = v] *)
Fixpoint set (k v : string) (m : t) : t :=
  match m with
  | [] => [(k, v)]
  | (k', v') :: r =>
      if String.eqb k k' then (k, v) :: r else (k', v') :: set k v r
  end.

(** [m[k]] evaluated for its side effect: a fresh key is inserted with an
    empty string. *)
Definition touch (k : string) (m : t) : t :=
  match find k m with Some _ => m | None => set k EmptyString m end.

(** [m[k] += x] *)
Definition append_at (k x : string) (m : t) : t := set k (at_ k m ++ x) m.

Definition keys (m : t) : list string := map fst m.

(** What a range-for over the container may yield: the standard leaves the
    order to the hash table, so it is a parameter of the model, constrained
    to enumerate the entries. *)
Definition iteration (order : t -> t) : Prop :=
  forall m : t, Permutation (order m) m.

(** Two orders used as instances: the order of first insertion, and its
    reverse.  The second is what a node-based table that links every new
    node at the head of its chain (libstdc++) yields for two keys. *)
Definition insertion_order (m : t) : t := m.
Definition front_linked_order (m : t) : t := rev m.

End UMap.

(* ===================================================================== *)
(** * Configuration records *)
(* ===================================================================== *)

Module Config.

(** Modelled from the spec: the configuration types are declared in
    [load_config.hpp], which is not among the sources; the records carry
    the fields [server.cc] reads, with the types the spec's data model
    gives them. *)
Record compiler_trait := {
  name : string;
  version_command : list string;
  compile_command : list string;
  run_command : list string;
  output_file : string;
  switches : list string;
  jail_name : string;
  displayable : bool
}.

Record switch_trait := {
  flags : list string;
  insert_position : nat;
  runtime : bool
}.

Record jail_config := {
  jail_command : list string;
  compile_time_limit : Z;
  program_duration : Z;
  kill_wait : Z;
  output_limit_warn : N;
  output_limit_kill : N
}.

Record system_config := {
  listen_port : Z;
  max_connections : Z;
  basedir : string;
  storedir : string
}.

Record server_config := {
  system : system_config;
  jails : list (string * jail_config);
  compilers : list compiler_trait;
  all_switches : list (string * switch_trait)
}.

Fixpoint assoc {A : Type} (k : string) (l : list (string * A)) : option A :=
  match l with
  | [] => None
  | (k', v) :: r => if String.eqb k k' then Some v else assoc k r
  end.

(** [config.compilers.get<1>().find(ccname)]: the index on [name]. *)
Fixpoint find_compiler (ccname : string) (cs : list compiler_trait) : option compiler_trait :=
  match cs with
  | [] => None
  | c :: r => if String.eqb ccname (name c) then Some c else find_compiler ccname r
  end.

End Config.

(* ===================================================================== *)
(** * The kernel interface *)
(* ===================================================================== *)

Module Posix.

Definition O_WRONLY : Z := 1.
Definition O_RDWR : Z := 2.
Definition O_CREAT : Z := 64.
Definition O_EXCL : Z := 128.
Definition O_TRUNC : Z := 512.
Definition O_DIRECTORY : Z := 65536.
Definition O_NOATIME : Z := 262144.
Definition O_CLOEXEC : Z := 524288.
Definition O_PATH : Z := 2097152.

Definition EAGAIN : Z := 11.
Definition EWOULDBLOCK : Z := 11.
Definition EMFILE : Z := 24.

Inductive signal := SIGKILL | SIGXCPU | SIGXFSZ.

(** A call as the process issues it.  [openat] is called with three
    arguments for a directory and with four (a creation mode) for the
    target file.  The two lines [program_writer] sends to [std::clog] are
    recorded in the same log. *)
Inductive syscall :=
| SysMkdirat (at_fd : Z) (path : string) (mode : Z)
| SysOpenat (at_fd : Z) (path : string) (flags : Z) (mode : option Z)
| SysClose (fd : Z)
| SysOpendir (path : string)
| SysClosedir (fd : Z)
| SysAioWrite (fd : Z) (bytes : string)
| ClogWriteFile (filename : string)
| ClogFailedRunLog (unique_name : string).

(** What a call answers: a value, or [-1] with [errno] set. *)
Inductive sysret := Ok (v : Z) | Err (errno : Z).

(** The kernel as the program sees it: a state and an answer to every
    call. *)
Record kernel (K : Type) := {
  k_mkdirat : K -> Z -> string -> Z -> sysret * K;
  k_openat : K -> Z -> string -> Z -> option Z -> sysret * K;
  k_close : K -> Z -> K;
  k_opendir : K -> string -> sysret * K;
  k_aio_write : K -> Z -> string -> K
}.

(** The process side: kernel state, [errno], and the calls made so far
    (oldest first). *)
Record world (K : Type) := {
  w_kernel : K;
  w_errno : Z;
  w_log : list syscall
}.

Section Calls.

Context {K : Type} (ops : kernel K).

Definition ret (r : sysret) (k : K) (call : syscall) (w : world K) : Z * world K :=
  match r with
  | Ok v => (v, {| w_kernel := k; w_errno := w_errno w; w_log := w_log w ++ [call] |})
  | Err e => (-1, {| w_kernel := k; w_errno := e; w_log := w_log w ++ [call] |})
  end.

Definition set_errno (e : Z) (w : world K) : world K :=
  {| w_kernel := w_kernel w; w_errno := e; w_log := w_log w |}.

Definition sys_mkdirat (at_fd : Z) (path : string) (mode : Z) (w : world K) : Z * world K :=
  let (r, k) := k_mkdirat ops (w_kernel w) at_fd path mode in
  ret r k (SysMkdirat at_fd path mode) w.

Definition sys_openat (at_fd : Z) (path : string) (flags : Z) (mode : option Z)
    (w : world K) : Z * world K :=
  let (r, k) := k_openat ops (w_kernel w) at_fd path flags mode in
  ret r k (SysOpenat at_fd path flags mode) w.

Definition sys_close (fd : Z) (w : world K) : world K :=
  {| w_kernel := k_close ops (w_kernel w) fd;
     w_errno := w_errno w;
     w_log := w_log w ++ [SysClose fd] |}.

Definition sys_opendir (path : string) (w : world K) : Z * world K :=
  let (r, k) := k_opendir ops (w_kernel w) path in
  ret r k (SysOpendir path) w.

Definition sys_closedir (fd : Z) (w : world K) : world K :=
  {| w_kernel := k_close ops (w_kernel w) fd;
     w_errno := w_errno w;
     w_log := w_log w ++ [SysClosedir fd] |}.

Definition sys_aio_write (fd : Z) (bytes : string) (w : world K) : world K :=
  {| w_kernel := k_aio_write ops (w_kernel w) fd bytes;
     w_errno := w_errno w;
     w_log := w_log w ++ [SysAioWrite fd bytes] |}.

Definition clog (line : syscall) (w : world K) : world K :=
  {| w_kernel := w_kernel w; w_errno := w_errno w; w_log := w_log w ++ [line] |}.

End Calls.

(** A kernel on which every call succeeds: descriptors are handed out in
    increasing order. *)
Definition permissive : kernel Z := {|
  k_mkdirat := fun k _ _ _ => (Ok 0, k);
  k_openat := fun k _ _ _ _ => (Ok k, k + 1);
  k_close := fun k _ => k;
  k_opendir := fun k _ => (Ok k, k + 1);
  k_aio_write := fun k _ _ => k
|}.

(** A kernel that has run out of descriptors: every open fails with
    [EMFILE]. *)
Definition exhausted : kernel Z := {|
  k_mkdirat := fun k _ _ _ => (Ok 0, k);
  k_openat := fun k _ _ _ _ => (Err EMFILE, k);
  k_close := fun k _ => k;
  k_opendir := fun k _ => (Err EMFILE, k);
  k_aio_write := fun k _ _ => k
|}.

Definition boot {K : Type} (k : K) : world K :=
  {| w_kernel := k; w_errno := 0; w_log := [] |}.



(** An [openat] with a creation mode: the open of a target file. *)
Definition is_target_open (c : syscall) : bool :=
  match c with
  | SysOpenat _ _ _ (Some _) => true
  | _ => false
  end.

End Posix.

(* ===================================================================== *)
(** * PathStager: [program_writer::recursive_create_open_at] *)
(* ===================================================================== *)

Module PathStager.

Import Posix.

Definition is_slash (c : ascii) : bool := Ascii.eqb c "/".

Section Stager.

Context {K : Type} (ops : kernel K).

(** [closeall]: the vector is walked front to back; [dirfds] is kept with
    the back of the vector first. *)
Definition closeall (dirfds : list Z) (w : world K) : world K :=
  fold_left (fun w fd => sys_close ops fd w) (rev dirfds) w.

(** [dirfds.empty() ? at : dirfds.back()] *)
Definition base (at_fd : Z) (dirfds : list Z) : Z :=
  match dirfds with [] => at_fd | top :: _ => top end.

(** The loop over the directory segments.  [None] is a [return -1] from
    inside the loop. *)
Fixpoint walk (at_fd dirmode : Z) (dirs : list string) (dirfds : list Z) (w : world K)
  : option (list Z) * world K :=
  match dirs with
  | [] => (Some dirfds, w)
  | x :: rest =>
      if String.eqb x "" then walk at_fd dirmode rest dirfds w
      else if String.eqb x "." then walk at_fd dirmode rest dirfds w
      else if String.eqb x ".." then
        match dirfds with
        | [] => (None, w)
        | fd :: below => walk at_fd dirmode rest below (sys_close ops fd w)
        end
      else
        let w := set_errno 0 w in
        let (_, w) := sys_mkdirat ops (base at_fd dirfds) x dirmode w in
        let (dirfd, w) :=
          sys_openat ops (base at_fd dirfds) x
            (Z.lor O_DIRECTORY (Z.lor O_PATH O_RDWR)) None w in
        if dirfd =? -1 then (None, closeall dirfds w)
        else walk at_fd dirmode rest (dirfd :: dirfds) w
  end.

Definition recursive_create_open_at (at_fd : Z) (filename : string)
    (flags dirmode filemode : Z) (w : world K) : Z * world K :=
  if Ascii.eqb (Str.front filename) "/" then (-1, w)
  else
    let dirs := Str.split is_slash filename in
    match dirs with
    | [] => (-1, w)
    | _ :: _ =>
        let targetfile := last dirs EmptyString in
        let dirs := removelast dirs in
        let w := set_errno 0 w in
        match dirs with
        | [] => sys_openat ops at_fd targetfile flags (Some filemode) w
        | _ :: _ =>
            match walk at_fd dirmode dirs [] w with
            | (None, w) => (-1, w)
            | (Some dirfds, w) =>
                let w := set_errno 0 w in
                let (newfd, w) :=
                  sys_openat ops (base at_fd dirfds) targetfile flags (Some filemode) w in
                (newfd, closeall dirfds w)
            end
        end
    end.

End Stager.

(** A [..] met while the stack of directory descriptors is empty, given
    that the stack holds [depth] descriptors when the walk starts and every
    directory opens. *)
Fixpoint escapes (dirs : list string) (depth : nat) : bool :=
  match dirs with
  | [] => false
  | x :: rest =>
      if String.eqb x "" then escapes rest depth
      else if String.eqb x "." then escapes rest depth
      else if String.eqb x ".." then
        match depth with
        | O => true
        | S d => escapes rest d
        end
      else escapes rest (S depth)
  end.

(** The directory segments of a path: every segment but the last. *)
Definition directories (filename : string) : list string :=
  removelast (Str.split is_slash filename).

(** No target file was opened between two states of the log. *)
Definition no_target_open {K : Type} (before after : world K) : Prop :=
  exists calls, w_log after = (w_log before ++ calls)%list
                /\ forallb (fun c => negb (is_target_open c)) calls = true.

End PathStager.

(* ===================================================================== *)
(** * AdmissionSem: [counting_semaphore] and the [listener] *)
(* ===================================================================== *)

Module Admission.

(** Conversion of an [int] expression to the [unsigned] parameter of the
    [counting_semaphore] constructor. *)
Definition to_unsigned (z : Z) : Z := z mod 4294967296.

(** The listener coroutine is either about to accept a connection, or
    suspended in [sem->async_signal]: the read of the eventfd that
    will resume it is pending. *)
Inductive listener_state := Accepting | AwaitingPermit.

(** [counter] is the value of the eventfd; [active] counts the live
    [semaphore_object]s, one per session that has started and not ended. *)
Record state := {
  counter : Z;
  listener : listener_state;
  active : nat
}.

(** [listener::listener]: the semaphore is built from
    [config.system.max_connections-1]. *)
Definition listener_init (max_connections : Z) : state :=
  {| counter := to_unsigned (max_connections - 1);
     listener := Accepting;
     active := 0 |}.

Inductive event :=
| Accept    (** a connection is accepted: [compiler_bridge] starts at once,
                carrying a fresh [semaphore_object] whose constructor posts
                the read *)
| Acquire   (** the pending read completes ([EFD_SEMAPHORE]: the counter
                drops by one) and resumes the listener *)
| Release.  (** a session ends: [~semaphore_object] writes 1 *)

Definition step (s : state) (e : event) : option state :=
  match e with
  | Accept =>
      match listener s with
      | Accepting =>
          Some {| counter := counter s; listener := AwaitingPermit; active := S (active s) |}
      | AwaitingPermit => None
      end
  | Acquire =>
      match listener s with
      | AwaitingPermit =>
          if 0 <? counter s
          then Some {| counter := counter s - 1; listener := Accepting; active := active s |}
          else None
      | Accepting => None
      end
  | Release =>
      match active s with
      | O => None
      | S n => Some {| counter := counter s + 1; listener := listener s; active := n |}
      end
  end.

Fixpoint run (s : state) (es : list event) : option state :=
  match es with
  | [] => Some s
  | e :: r => match step s e with Some s' => run s' r | None => None end
  end.

(** The units the listener itself holds: one while it is free to accept. *)
Definition listener_units (s : state) : Z :=
  match listener s with Accepting => 1 | AwaitingPermit => 0 end.

(** The units are conserved: those held by sessions, those in the eventfd
    and the one the listener holds while it may accept add up to [total]. *)
Definition balanced (total : Z) (s : state) : Prop :=
  Z.of_nat (active s) + counter s + listener_units s = total /\ 0 <= counter s.

End Admission.

(* ===================================================================== *)
(** * OutputLimiter: [program_runner::write_limit_counter] *)
(* ===================================================================== *)

Module Limiter.

Import Posix.

(** [std::numeric_limits<size_t>::max()] *)
Definition SIZE_MAX : N := 18446744073709551615.

(** [proc] is the weak pointer to a status forwarder: the child it waits
    for, while that forwarder is alive. *)
Record write_limit_counter := {
  soft_limit : N;
  hard_limit : N;
  current : N;
  proc : option nat
}.

Definition make (soft hard : N) : write_limit_counter :=
  {| soft_limit := soft; hard_limit := hard; current := 0; proc := None |}.

Definition set_process (p : nat) (l : write_limit_counter) : write_limit_counter :=
  {| soft_limit := soft_limit l; hard_limit := hard_limit l;
     current := current l; proc := Some p |}.

(** [add]: the new counter, and the [p->kill(signo)] it calls, if any. *)
Definition add (len : N) (l : write_limit_counter)
  : write_limit_counter * option (nat * signal) :=
  let current' :=
    if (SIZE_MAX - len <? current l)%N then SIZE_MAX else (current l + len)%N in
  ({| soft_limit := soft_limit l; hard_limit := hard_limit l;
      current := current'; proc := proc l |},
   match proc l with
   | Some p =>
       if (hard_limit l <? current')%N then Some (p, SIGKILL)
       else if (soft_limit l <? current')%N then Some (p, SIGXFSZ)
       else None
   | None => None
   end).

End Limiter.

(* ===================================================================== *)
(** * RunSession: [compiler_bridge] *)
(* ===================================================================== *)

Module Bridge.

Import Config.

Record bridge := {
  received : UMap.t;
  sources : UMap.t;
  current_filename : string;
  buf : string
}.

Definition init : bridge :=
  {| received := UMap.empty; sources := UMap.empty;
     current_filename := EmptyString; buf := EmptyString |}.

(** Where one resumption of the coroutine leaves the connection. *)
Inductive outcome :=
| Reading (b : bridge)
| SocketClosed
| UnknownCompiler (ccname : string)
| ToWriter (received sources : UMap.t) (c : compiler_trait)
| ToVersion.

(** What arrives on the socket: a chunk of bytes, or an error (end of
    stream included). *)
Inductive read_event := ReadBytes (s : string) | ReadError.

Fixpoint strip_prefix (p s : string) : option string :=
  match p with
  | EmptyString => Some s
  | String c p' =>
      match s with
      | String d s' => if Ascii.eqb c d then strip_prefix p' s' else None
      | EmptyString => None
      end
  end.

(** [qi::parse(ite, s.end(), "compiler=" >> *qi::char_, ccname)]: the rest
    of the string after the literal, or nothing when the literal does not
    match. *)
Definition parse_compiler_name (s : string) : string :=
  match strip_prefix "compiler=" s with
  | Some rest => rest
  | None => EmptyString
  end.

Section Bridge.

Variable qp_decode : string -> string.
Variable config : server_config.

Definition with_buf (b : bridge) (s : string) : bridge :=
  {| received := received b; sources := sources b;
     current_filename := current_filename b; buf := s |}.

(** The body of the inner loop for one parsed frame; [data] is the payload
    as it was on the wire. *)
Definition on_frame (b : bridge) (command data : string) : outcome :=
  if (String.eqb command "Control" && String.eqb data "run")%bool then
    let received := UMap.touch "Control" (received b) in
    let ccname := parse_compiler_name (UMap.at_ "Control" received) in
    match find_compiler ccname (compilers config) with
    | None => UnknownCompiler ccname
    | Some c => ToWriter received (sources b) c
    end
  else if String.eqb command "Version" then ToVersion
  else if String.eqb command "SourceFileName" then
    Reading {| received := received b; sources := sources b;
               current_filename := qp_decode data; buf := buf b |}
  else if String.eqb command "Source" then
    Reading {| received := received b;
               sources := UMap.append_at (current_filename b) (qp_decode data) (sources b);
               current_filename := current_filename b; buf := buf b |}
  else
    Reading {| received := UMap.append_at command (qp_decode data) (received b);
               sources := sources b;
               current_filename := current_filename b; buf := buf b |}.

(** The inner [while (true)]: frames are taken off the buffer until the
    grammar fails, and what is left stays buffered.  Every frame is at least
    one character long, so the length of the buffer bounds the number of
    turns. *)
Fixpoint frames_loop (turns : nat) (b : bridge) (ite : string) : outcome :=
  match turns with
  | O => Reading (with_buf b ite)
  | S turns' =>
      match FrameCodec.parse_frame ite with
      | None => Reading (with_buf b ite)
      | Some (command, data, rest) =>
          match on_frame b command data with
          | Reading b' => frames_loop turns' b' rest
          | o => o
          end
      end
  end.

(** One completed [async_read_some]. *)
Definition on_read (b : bridge) (r : read_event) : outcome :=
  match r with
  | ReadError => SocketClosed
  | ReadBytes s =>
      let all := buf b ++ s in
      frames_loop (String.length all) b all
  end.

(** The same loop seen frame by frame: [(command, wire payload)] pairs in
    the order the grammar delivers them. *)
Fixpoint on_frames (b : bridge) (fs : list (string * string)) : outcome :=
  match fs with
  | [] => Reading b
  | (command, data) :: rest =>
      match on_frame b command data with
      | Reading b' => on_frames b' rest
      | o => o
      end
  end.

(** What the frames [fs] told the server under one command name: their
    decoded payloads, joined in the order of arrival. *)
Fixpoint accumulated (command : string) (fs : list (string * string)) : string :=
  match fs with
  | [] => EmptyString
  | (c, data) :: rest =>
      if String.eqb c command then qp_decode data ++ accumulated command rest
      else accumulated command rest
  end.

(** The payload of the last frame sent under one command name, decoded. *)
Fixpoint latest (command : string) (fs : list (string * string)) : option string :=
  match fs with
  | [] => None
  | (c, data) :: rest =>
      match latest command rest with
      | Some p => Some p
      | None => if String.eqb c command then Some (qp_decode data) else None
      end
  end.


(** The coroutine over everything the peer sends. *)
Fixpoint compiler_bridge (b : bridge) (reads : list read_event) : outcome :=
  match reads with
  | [] => Reading b
  | r :: rest =>
      match on_read b r with
      | Reading b' => compiler_bridge b' rest
      | o => o
      end
  end.

End Bridge.

End Bridge.

(* ===================================================================== *)
(** * ProgramWriter: [program_writer] *)
(* ===================================================================== *)

Module Writer.

Import Posix.

Record source_file_t := {
  filename : string;
  source : string
}.

Inductive progress := Done | Aborted | Suspended.

Inductive opened := Opened (fd : Z) | Abort | Suspend.

(** [O_WRONLY|O_CLOEXEC|O_CREAT|O_TRUNC|O_EXCL|O_NOATIME] *)
Definition stage_flags : Z :=
  Z.lor O_WRONLY (Z.lor O_CLOEXEC (Z.lor O_CREAT (Z.lor O_TRUNC (Z.lor O_EXCL O_NOATIME)))).

Definition transient (e : Z) : bool :=
  ((e =? EAGAIN) || (e =? EMFILE) || (e =? EWOULDBLOCK))%bool.

Section Writer.

Context {K : Type} (ops : kernel K).

(** The iteration order of the [sources] map handed over by
    [compiler_bridge]. *)
Variable order : UMap.t -> UMap.t.

(** The constructor's loop over [sources]: the deque of files to stage. *)
Definition sources_deque (sources : UMap.t) : list source_file_t :=
  map (fun t => {| filename := fst t; source := snd t |}) (order sources).

(** The file name a source is staged under. *)
Definition staged_name (output_file : string) (src : source_file_t) : string :=
  if Str.empty (filename src) then output_file else filename src.

Variable workdir : Z.
Variable unique_name : string.
Variable storedir : string.

(** The retry loop around the open of the store copy.  A transient failure
    suspends the coroutine until the signal set fires; [signals] counts the
    wake-ups still to come. *)
Fixpoint open_store (signals : nat) (name : string) (w : world K)
  : opened * nat * world K :=
  let (fd, w) :=
    PathStager.recursive_create_open_at ops workdir ("store/" ++ name)
      stage_flags 448 384 w in
  if fd =? -1 then
    if transient (w_errno w) then
      match signals with
      | O => (Suspend, O, w)
      | S n => open_store n name w
      end
    else (Abort, signals, w)
  else (Opened fd, signals, w).

(** One turn of the loop of [operator()]: the store copy, then the
    archival copy.  The completion of an [aio_write] is awaited on the
    signal set as well; the model takes the write as done when it is
    issued. *)
Definition stage_one (output_file : string) (signals : nat) (src : source_file_t)
    (w : world K) : progress * nat * world K :=
  let name := staged_name output_file src in
  let w := clog (ClogWriteFile name) w in
  match open_store signals name w with
  | (Opened fd, signals, w) =>
      let w := sys_aio_write ops fd (source src) w in
      let w := sys_close ops fd w in
      let (d, w) := sys_opendir ops storedir w in
      if d =? -1 then (Aborted, signals, w)
      else
        let (fd2, w) :=
          PathStager.recursive_create_open_at ops d (unique_name ++ "/" ++ name)
            stage_flags 448 384 w in
        let w := sys_closedir ops d w in
        if fd2 =? -1 then (Done, signals, clog (ClogFailedRunLog unique_name) w)
        else
          let w := sys_aio_write ops fd2 (source src) w in
          (Done, signals, sys_close ops fd2 w)
  | (Abort, signals, w) => (Aborted, signals, w)
  | (Suspend, signals, w) => (Suspended, signals, w)
  end.

Fixpoint stage (output_file : string) (signals : nat) (files : list source_file_t)
    (w : world K) : progress * world K :=
  match files with
  | [] => (Done, w)
  | src :: rest =>
      match stage_one output_file signals src w with
      | (Done, signals, w) => stage output_file signals rest w
      | (p, _, w) => (p, w)
      end
  end.

(** [program_writer]: the constructor followed by the staging loop. *)
Definition program_writer (sources : UMap.t) (target_compiler : Config.compiler_trait)
    (signals : nat) (w : world K) : progress * world K :=
  stage (Config.output_file target_compiler) signals (sources_deque sources) w.

End Writer.



End Writer.

(* ===================================================================== *)
(** * ProgramRunner: [program_runner] *)
(* ===================================================================== *)

Module Runner.

Import Posix Config.

(** An outbound frame as handed to [async_write_command]. *)
Record frame := {
  command : string;
  payload : string
}.

Record command_type := {
  arguments : list string;
  stdin_command : string;
  stdout_command : string;
  stderr_command : string;
  soft_kill_wait : Z
}.

(** ** The wait-status macros of [<sys/wait.h>] *)

Definition WTERMSIG (status : Z) : Z := Z.land status 127.
Definition WEXITSTATUS (status : Z) : Z := Z.shiftr (Z.land status 65280) 8.
Definition WIFEXITED (status : Z) : bool := WTERMSIG status =? 0.

(** [(signed char)] of a value in [0, 255]. *)
Definition signed_char (v : Z) : Z := if v <? 128 then v else v - 256.

Definition WIFSIGNALED (status : Z) : bool :=
  0 <? Z.shiftr (signed_char (Z.land status 127 + 1)) 1.

(** ** Command construction *)

(** [qi::as_string[+(qi::char_-','-'\n')] % ','] read into a set: the
    tokens up to the first empty one or the first line feed.  [cur] is the
    token being read. *)
Fixpoint switch_tokens (s : string) (cur : string) : list string :=
  match s with
  | EmptyString => if Str.empty cur then [] else [cur]
  | String c t =>
      if Ascii.eqb c "," then
        if Str.empty cur then [] else cur :: switch_tokens t EmptyString
      else if Ascii.eqb c Str.LF then
        if Str.empty cur then [] else [cur]
      else switch_tokens t (cur ++ String c EmptyString)
  end.

Definition selected_switches (option_payload : string) : list string :=
  switch_tokens option_payload EmptyString.

(** The lambda [f]: the flags go to the end when [insert_position] is 0 and
    before the element at that index otherwise.  An index past the end is
    undefined behaviour in the source and has no result here. *)
Definition splice (sw : switch_trait) (args : list string) : option (list string) :=
  match insert_position sw with
  | O => Some (args ++ flags sw)%list
  | pos =>
      if Nat.leb pos (List.length args)
      then Some (firstn pos args ++ flags sw ++ skipn pos args)%list
      else None
  end.

Fixpoint apply_switches (catalogue : list (string * switch_trait))
    (selected : list string) (switches : list string)
    (ccargs progargs : list string) : option (list string * list string) :=
  match switches with
  | [] => Some (ccargs, progargs)
  | sw :: rest =>
      if negb (existsb (String.eqb sw) selected)
      then apply_switches catalogue selected rest ccargs progargs
      else
        match assoc sw catalogue with
        | None => apply_switches catalogue selected rest ccargs progargs
        | Some t =>
            if runtime t
            then match splice t progargs with
                 | Some progargs' => apply_switches catalogue selected rest ccargs progargs'
                 | None => None
                 end
            else match splice t ccargs with
                 | Some ccargs' => apply_switches catalogue selected rest ccargs' progargs
                 | None => None
                 end
        end
  end.

(** [boost::is_any_of("\r\n")] *)
Definition is_cr_or_lf (c : ascii) : bool := (Ascii.eqb c Str.CR || Ascii.eqb c Str.LF)%bool.

(** [if (not s.empty() && s.back().empty()) s.pop_back();] *)
Definition drop_trailing_empty (s : list string) : list string :=
  match s with
  | [] => []
  | _ :: _ => if Str.empty (last s EmptyString) then removelast s else s
  end.

(** The pieces a raw-option payload contributes to an argv. *)
Definition raw_pieces (payload : string) : list string :=
  let input := Str.replace_all_crlf payload in
  drop_trailing_empty (Str.split is_cr_or_lf input).

(** One turn of the loop over [{CompilerOptionRaw, RuntimeOptionRaw}]. *)
Definition append_raw (key : string) (received : UMap.t) (args : list string) : list string :=
  match UMap.find key received with
  | Some payload => (args ++ raw_pieces payload)%list
  | None => args
  end.

(** The first part of the block that fills [commands]: the two argvs
    with the selected switches spliced in. *)
Definition switch_step (catalogue : list (string * switch_trait))
    (target_compiler : compiler_trait) (received : UMap.t)
  : option (list string * list string) :=
  let ccargs := compile_command target_compiler in
  let progargs := run_command target_compiler in
  match UMap.find "CompilerOption" received with
  | Some payload =>
      apply_switches catalogue (selected_switches payload)
        (Config.switches target_compiler) ccargs progargs
  | None => Some (ccargs, progargs)
  end.

(** The block that fills [commands]. *)
Definition build_commands (catalogue : list (string * switch_trait)) (jail : jail_config)
    (target_compiler : compiler_trait) (received : UMap.t) : option (list command_type) :=
  match switch_step catalogue target_compiler received with
  | None => None
  | Some (ccargs, progargs) =>
      let ccargs := append_raw "CompilerOptionRaw" received ccargs in
      let progargs := append_raw "RuntimeOptionRaw" received progargs in
      let ccargs := (jail_command jail ++ ccargs)%list in
      let progargs := (jail_command jail ++ progargs)%list in
      Some [ {| arguments := ccargs; stdin_command := "";
                stdout_command := "CompilerMessageS"; stderr_command := "CompilerMessageE";
                soft_kill_wait := compile_time_limit jail |};
             {| arguments := progargs; stdin_command := "StdIn";
                stdout_command := "StdOut"; stderr_command := "StdErr";
                soft_kill_wait := program_duration jail |} ]
  end.

(** The same pieces in the words of the spec: CRLF is turned into LF, the
    payload is split on LF, and a trailing empty element is dropped. *)
Definition spec_raw_pieces (payload : string) : list string :=
  drop_trailing_empty (Str.split (fun c => Ascii.eqb c Str.LF) (Str.replace_all_crlf payload)).

(** ** Phases *)

(** The handlers of a running phase, in the order the event loop runs
    them.  The two output forwarders read their pipe again only when the
    frame of the previous chunk has been written, so a chunk is one event.
    A handler that has nothing pending (a read on a closed pipe, a posted
    handler that was not posted) does not run: such an event is skipped. *)
Inductive phase_event :=
| EvStdinWritten
    (** [input_forwarder::on_wrote]: the pipe is closed and the forked copy
        of the runner is called *)
| EvChunk (from_stderr : bool) (bytes : string)
    (** [output_forwarder::operator()], a read that returned data *)
| EvEof (from_stderr : bool)
    (** [output_forwarder::operator()], a read that failed: the pipe is
        closed and the forked copy of the runner is posted *)
| EvPosted (from_stderr : bool)
    (** the copy posted by that forwarder runs *)
| EvSigchld (status : option Z)
    (** [status_forwarder::wait_handler]: [wait_nonblock] reaps the child
        and gives its status word, or finds it still running *)
| EvTimer.
    (** the kill timer expired *)

(** Modelled from the spec: [piped_spawn] is declared in [posixapi.hpp],
    which is not among the sources; the spec says that it "fails with
    SpawnError" when the child cannot be started.  [program_runner] calls
    it outside any handler, so the failure leaves [operator()].  This is
    what the environment does with one [piped_spawn]: it fails, or the
    child starts and the handlers of its phase run in the given order. *)
Inductive phase_env :=
| SpawnFails
| Runs (events : list phase_event).

Inductive timer_stage := SoftArmed | HardArmed | Idle.

(** The four forwarders of [pipes] as the join at [wait_process_killed]
    sees them, and the kill timer. *)
Record forwarders := {
  stdin_closed : bool;
  stdout_closed : bool;
  stderr_closed : bool;
  reaped : option Z;          (** [pid.finished()], with the status word *)
  stdout_posted : bool;       (** the copy posted by the stdout forwarder has not run yet *)
  stderr_posted : bool;
  timer : timer_stage
}.

(** The forwarders as installed after [piped_spawn]. *)
Definition installed : forwarders :=
  {| stdin_closed := false; stdout_closed := false; stderr_closed := false;
     reaped := None; stdout_posted := false; stderr_posted := false;
     timer := SoftArmed |}.

Definition finished (f : forwarders) : bool :=
  match reaped f with Some _ => true | None => false end.

(** [std::all_of(pipes.begin(), pipes.end(), closed)] *)
Definition all_closed (f : forwarders) : bool :=
  (stdin_closed f && stdout_closed f && stderr_closed f && finished f)%bool.

Definition output_closed (from_stderr : bool) (f : forwarders) : bool :=
  if from_stderr then stderr_closed f else stdout_closed f.

Definition output_posted (from_stderr : bool) (f : forwarders) : bool :=
  if from_stderr then stderr_posted f else stdout_posted f.

Definition close_stdin (f : forwarders) : forwarders :=
  {| stdin_closed := true; stdout_closed := stdout_closed f;
     stderr_closed := stderr_closed f; reaped := reaped f;
     stdout_posted := stdout_posted f; stderr_posted := stderr_posted f;
     timer := timer f |}.

(** [pipe.close(); aio->post(move(handler))] *)
Definition close_output (from_stderr : bool) (f : forwarders) : forwarders :=
  if from_stderr
  then {| stdin_closed := stdin_closed f; stdout_closed := stdout_closed f;
          stderr_closed := true; reaped := reaped f;
          stdout_posted := stdout_posted f; stderr_posted := true;
          timer := timer f |}
  else {| stdin_closed := stdin_closed f; stdout_closed := true;
          stderr_closed := stderr_closed f; reaped := reaped f;
          stdout_posted := true; stderr_posted := stderr_posted f;
          timer := timer f |}.

Definition run_posted (from_stderr : bool) (f : forwarders) : forwarders :=
  if from_stderr
  then {| stdin_closed := stdin_closed f; stdout_closed := stdout_closed f;
          stderr_closed := stderr_closed f; reaped := reaped f;
          stdout_posted := stdout_posted f; stderr_posted := false;
          timer := timer f |}
  else {| stdin_closed := stdin_closed f; stdout_closed := stdout_closed f;
          stderr_closed := stderr_closed f; reaped := reaped f;
          stdout_posted := false; stderr_posted := stderr_posted f;
          timer := timer f |}.

Definition reap (status : Z) (f : forwarders) : forwarders :=
  {| stdin_closed := stdin_closed f; stdout_closed := stdout_closed f;
     stderr_closed := stderr_closed f; reaped := Some status;
     stdout_posted := stdout_posted f; stderr_posted := stderr_posted f;
     timer := timer f |}.

Definition set_timer (t : timer_stage) (f : forwarders) : forwarders :=
  {| stdin_closed := stdin_closed f; stdout_closed := stdout_closed f;
     stderr_closed := stderr_closed f; reaped := reaped f;
     stdout_posted := stdout_posted f; stderr_posted := stderr_posted f;
     timer := t |}.

Inductive ending :=
| Finished      (** [Control: Finish] was written *)
| SpawnError    (** [piped_spawn] failed *)
| Stalled       (** a phase whose forwarders never all close *)
| Rejoined      (** a second copy of the coroutine passes the join of a
                    phase; the copies then run side by side *)
| BadSwitch.    (** a switch position past the end of an argv *)

(** The state the coroutine carries. *)
Record runner := {
  frames : list frame;                 (** written to the socket, oldest first *)
  kills : list (nat * signal);         (** [::kill] calls: phase and signal *)
  spawned : list (list string);        (** argv of every [piped_spawn] *)
  stdin_written : list string;         (** what the input forwarders wrote *)
  limitter : Limiter.write_limit_counter;
  laststatus : Z
}.

Record result := {
  final : runner;
  ended : ending
}.

Definition emit (f : frame) (r : runner) : runner :=
  {| frames := (frames r ++ [f])%list; kills := kills r; spawned := spawned r;
     stdin_written := stdin_written r; limitter := limitter r;
     laststatus := laststatus r |}.

(** [status_forwarder::kill]: nothing is sent once the child is reaped. *)
Definition forwarder_kill (finished : bool) (k : nat * signal) (r : runner) : runner :=
  if finished then r
  else {| frames := frames r; kills := (kills r ++ [k])%list; spawned := spawned r;
          stdin_written := stdin_written r; limitter := limitter r;
          laststatus := laststatus r |}.

Definition with_limitter (l : Limiter.write_limit_counter) (r : runner) : runner :=
  {| frames := frames r; kills := kills r; spawned := spawned r;
     stdin_written := stdin_written r; limitter := l; laststatus := laststatus r |}.

Definition with_status (status : Z) (r : runner) : runner :=
  {| frames := frames r; kills := kills r; spawned := spawned r;
     stdin_written := stdin_written r; limitter := limitter r; laststatus := status |}.

(** [piped_spawn] succeeded: the four forwarders are installed and the
    limiter is pointed at the new status forwarder. *)
Definition start_phase (idx : nat) (current : command_type) (received : UMap.t)
    (r : runner) : runner :=
  {| frames := frames r; kills := kills r;
     spawned := (spawned r ++ [arguments current])%list;
     stdin_written := (stdin_written r ++ [UMap.at_ (stdin_command current) received])%list;
     limitter := Limiter.set_process idx (limitter r);
     laststatus := laststatus r |}.

(** The frame an output forwarder writes for a chunk. *)
Definition chunk_frame (current : command_type) (from_stderr : bool) (bytes : string) : frame :=
  {| command := if from_stderr then stderr_command current else stdout_command current;
     payload := bytes |}.

(** [output_forwarder::operator()] on a read with data: the frame is
    queued, then the limiter is told. *)
Definition forward_chunk (current : command_type) (from_stderr : bool) (bytes : string)
    (finished : bool) (r : runner) : runner :=
  let r := emit (chunk_frame current from_stderr bytes) r in
  let (l, k) := Limiter.add (Str.len bytes) (limitter r) in
  let r := with_limitter l r in
  match k with Some k => forwarder_kill finished k r | None => r end.

(** One handler of the running phase [idx].  The flag tells whether the
    handler called a forked copy of the runner, which then stands at
    [wait_process_killed]. *)
Definition on_event (idx : nat) (current : command_type) (r : runner) (f : forwarders)
    (e : phase_event) : runner * forwarders * bool :=
  match e with
  | EvStdinWritten =>
      if stdin_closed f then (r, f, false) else (r, close_stdin f, true)
  | EvChunk from_stderr bytes =>
      if output_closed from_stderr f then (r, f, false)
      else (forward_chunk current from_stderr bytes (finished f) r, f, false)
  | EvEof from_stderr =>
      if output_closed from_stderr f then (r, f, false)
      else (r, close_output from_stderr f, false)
  | EvPosted from_stderr =>
      if output_posted from_stderr f then (r, run_posted from_stderr f, true)
      else (r, f, false)
  | EvSigchld status =>
      match reaped f, status with
      | None, Some st => (r, reap st f, true)
      | _, _ => (r, f, false)
      end
  | EvTimer =>
      match timer f with
      | SoftArmed => (forwarder_kill (finished f) (idx, SIGXCPU) r, set_timer HardArmed f, false)
      | HardArmed => (forwarder_kill (finished f) (idx, SIGKILL) r, set_timer Idle f, false)
      | Idle => (r, f, false)
      end
  end.

(** How a phase ends for the coroutine. *)
Inductive phase_end :=
| Joined (r : runner) (status : Z) (again : bool)
    (** a copy found all four forwarders closed; [again] tells that
        another posted copy is still to run, which will find the same *)
| Open (r : runner).
    (** no copy found all four forwarders closed *)

(** The handlers of a phase up to the first copy that passes
    [wait_process_killed]. *)
Fixpoint run_phase (idx : nat) (current : command_type) (events : list phase_event)
    (r : runner) (f : forwarders) : phase_end :=
  match events with
  | [] => Open r
  | e :: rest =>
      let '(r', f', at_join) := on_event idx current r f e in
      if (at_join && all_closed f')%bool then
        match reaped f' with
        | Some status => Joined r' status (stdout_posted f' || stderr_posted f')
        | None => Open r'
        end
      else run_phase idx current rest r' f'
  end.


Definition is_named (names : list string) (f : frame) : bool :=
  existsb (String.eqb (command f)) names.

(** The runner a phase leaves behind. *)
Definition phase_runner (p : phase_end) : runner :=
  match p with
  | Joined r _ _ => r
  | Open r => r
  end.

(** The output frames among [fs]: those of the four forwarded streams. *)
Definition is_output (f : frame) : bool :=
  existsb (String.eqb (command f)) ["CompilerMessageS"; "CompilerMessageE"; "StdOut"; "StdErr"].

(** The bytes of all output frames among [fs]. *)
Definition forwarded_bytes (fs : list frame) : N :=
  fold_right (fun f n => if is_output f then (Str.len (payload f) + n)%N else n) 0%N fs.

(** Every frame among [fs] has a payload whose length a [size_t] holds. *)
Definition sized (fs : list frame) : bool :=
  forallb (fun f => (Str.len (payload f) <=? Limiter.SIZE_MAX)%N) fs.

(** The limiter's count is the saturated total of the output frames
    written so far. *)
Definition counted (r : runner) : Prop :=
  Limiter.current (limitter r) = N.min Limiter.SIZE_MAX (forwarded_bytes (frames r)).

(** The command's two output streams are among the four forwarded ones. *)
Definition forwards_output (current : command_type) : bool :=
  (is_output {| command := stdout_command current; payload := EmptyString |}
   && is_output {| command := stderr_command current; payload := EmptyString |})%bool.

(** How a runner grows while the handlers of a phase run: only frames of
    the phase's two output streams are added, the count follows them, and
    the status the loop keeps is left alone. *)
Definition grows (current : command_type) (r r' : runner) : Prop :=
  laststatus r' = laststatus r
  /\ exists out,
       frames r' = (frames r ++ out)%list
       /\ Forall (fun f => is_named [stdout_command current; stderr_command current] f = true) out
       /\ (forwards_output current = true -> sized out = true -> counted r -> counted r').

Section Runner.

(** [::strsignal] *)
Variable strsignal : Z -> string.

(** After the loop: the termination frames. *)
Definition terminate (r : runner) : result :=
  let r := if WIFEXITED (laststatus r)
           then emit {| command := "ExitCode";
                        payload := Str.to_string (Z.to_N (WEXITSTATUS (laststatus r))) |} r
           else r in
  let r := if WIFSIGNALED (laststatus r)
           then emit {| command := "Signal";
                        payload := strsignal (WTERMSIG (laststatus r)) |} r
           else r in
  {| final := emit {| command := "Control"; payload := "Finish" |} r; ended := Finished |}.

(** [while (!commands.empty())]: one environment entry per spawn. *)
Fixpoint run_commands (idx : nat) (commands : list command_type) (received : UMap.t)
    (env : list phase_env) (r : runner) : result :=
  match commands with
  | [] => terminate r
  | current :: commands' =>
      match env with
      | [] => {| final := r; ended := Stalled |}
      | SpawnFails :: _ => {| final := r; ended := SpawnError |}
      | Runs events :: env' =>
          match run_phase idx current events (start_phase idx current received r) installed with
          | Open r => {| final := r; ended := Stalled |}
          | Joined r status true => {| final := with_status status r; ended := Rejoined |}
          | Joined r status false =>
              let r := with_status status r in
              if (negb (WIFEXITED status) || negb (WEXITSTATUS status =? 0))%bool
              then terminate r
              else run_commands (S idx) commands' received env' r
          end
      end
  end.

Definition fresh (jail : jail_config) : runner :=
  {| frames := []; kills := []; spawned := []; stdin_written := [];
     limitter := Limiter.make (output_limit_warn jail) (output_limit_kill jail);
     laststatus := 0 |}.

(** The constructor and [operator()].  There is no runner when
    [config.jails.at] finds no jail of that name. *)
Definition program_runner (config : server_config) (target_compiler : compiler_trait)
    (received : UMap.t) (env : list phase_env) : option result :=
  match assoc (jail_name target_compiler) (jails config) with
  | None => None
  | Some jail =>
      Some
        match build_commands (all_switches config) jail target_compiler received with
        | None => {| final := fresh jail; ended := BadSwitch |}
        | Some commands =>
            run_commands 0 commands received env
              (emit {| command := "Control"; payload := "Start" |} (fresh jail))
        end
  end.

End Runner.




(** ** The frame grammar of a session *)



End Runner.

(* ===================================================================== *)
(** * A session, from the first read to the last frame *)
(* ===================================================================== *)

Module Session.

Import Posix Config.

Inductive result :=
| AwaitingFrames (b : Bridge.bridge)   (** suspended in [async_read_some] *)
| Closed                               (** read error: socket closed *)
| ClosedUnknownCompiler (ccname : string)
| Versioning                           (** handed to [version_sender] *)
| StagingAborted                       (** [program_writer] gave up *)
| StagingSuspended                     (** [program_writer] waits for a signal *)
| RunnerFailed                         (** [program_runner] could not be built *)
| Ran (r : Runner.result).

(** The frames [program_runner] wrote to the socket.  (The reply of
    [version_sender] is outside the model.) *)
Definition outbound (r : result) : list Runner.frame :=
  match r with
  | Ran r => Runner.frames (Runner.final r)
  | _ => []
  end.

Section Session.

Context {K : Type} (ops : kernel K).
Variable qp_decode : string -> string.
Variable config : server_config.
Variable order : UMap.t -> UMap.t.
Variable strsignal : Z -> string.

(** The directory [program_writer]'s constructor obtains from [mkdtemp]
    and [opendir]. *)
Variable workdir : Z.
Variable unique_name : string.


Definition session (reads : list Bridge.read_event) (signals : nat)
    (env : list Runner.phase_env) (w : world K) : result * world K :=
  match Bridge.compiler_bridge qp_decode config Bridge.init reads with
  | Bridge.Reading b => (AwaitingFrames b, w)
  | Bridge.SocketClosed => (Closed, w)
  | Bridge.UnknownCompiler ccname => (ClosedUnknownCompiler ccname, w)
  | Bridge.ToVersion => (Versioning, w)
  | Bridge.ToWriter received sources c =>
      match Writer.program_writer ops order workdir unique_name
              (storedir (system config)) sources c signals w with
      | (Writer.Done, w) =>
          match Runner.program_runner strsignal config c received env with
          | Some r => (Ran r, w)
          | None => (RunnerFailed, w)
          end
      | (Writer.Aborted, w) => (StagingAborted, w)
      | (Writer.Suspended, w) => (StagingSuspended, w)
      end
  end.

End Session.

End Session.

(* ===================================================================== *)
(** * A sample installation *)
(* ===================================================================== *)

Module Sample.

Import Config.

Definition gcc : compiler_trait :=
  {| name := "gcc"; version_command := ["gcc"; "--version"];
     compile_command := ["gcc"; "prog.c"]; run_command := ["./a.out"];
     output_file := "prog.c"; switches := ["warning"; "optimize"];
     jail_name := "jail"; displayable := true |}.

Definition jail : jail_config :=
  {| jail_command := ["jail"; "--"]; compile_time_limit := 60;
     program_duration := 10; kill_wait := 5;
     output_limit_warn := 10; output_limit_kill := 20 |}.

Definition config : server_config :=
  {| system := {| listen_port := 2012; max_connections := 3;
                  basedir := "/tmp/wandbox"; storedir := "/tmp/log" |};
     jails := [("jail", jail)];
     compilers := [gcc];
     all_switches :=
       [("warning", {| flags := ["-Wall"]; insert_position := 0; runtime := false |});
        ("optimize", {| flags := ["-O2"]; insert_position := 1; runtime := false |})] |}.

(** Linux names of the signals the runner sends. *)
Definition strsignal (sig : Z) : string :=
  if sig =? 9 then "Killed"
  else if sig =? 24 then "CPU time limit exceeded"
  else if sig =? 25 then "File size limit exceeded"
  else "Unknown signal".

End Sample.

(* ===================================================================== *)
(** * The byte stream of a connection *)
(* ===================================================================== *)

Module Reads.

(** What the peer has sent once the chunks have all arrived. *)
Fixpoint bytes (chunks : list string) : string :=
  match chunks with
  | [] => EmptyString
  | c :: rest => c ++ bytes rest
  end.

(** The text the frames [fs] carry for the file [name]: the decoded
    payloads of the [Source] frames that came while [name] was the file name
    in force, joined in the order of arrival.  [cur] is the name in force
    before the first frame. *)
Fixpoint source_text (qp_decode : string -> string) (name cur : string)
    (fs : list (string * string)) : string :=
  match fs with
  | [] => EmptyString
  | (c, data) :: rest =>
      if String.eqb c "SourceFileName" then source_text qp_decode name (qp_decode data) rest
      else if String.eqb c "Source" then
        (if String.eqb cur name then qp_decode data else EmptyString)
        ++ source_text qp_decode name cur rest
      else source_text qp_decode name cur rest
  end.

(** The chunks as successive completions of [async_read_some]. *)
Definition arrive (chunks : list string) : list Bridge.read_event :=
  map Bridge.ReadBytes chunks.

End Reads.

(* ===================================================================== *)
(** * Descriptor accounting *)
(* ===================================================================== *)

Module Descriptors.

Import Posix.

(** One descriptor less: the first entry equal to [fd] is taken out. *)
Fixpoint release (fd : Z) (held : list Z) : list Z :=
  match held with
  | [] => []
  | x :: rest => if x =? fd then rest else x :: release fd rest
  end.

(** One descriptor more when an open succeeds: the value the process gets
    is a descriptor unless it is [-1]. *)
Definition acquire (r : sysret) (held : list Z) : list Z :=
  match r with
  | Ok v => if v =? -1 then held else v :: held
  | Err _ => held
  end.

(** Any kernel, observed: it answers every call as [ops] does, and beside
    its state the descriptors the process holds are booked, one entry for
    each successful [openat] and [opendir], one entry less for each [close]
    and [closedir]. *)
Definition tracked {K : Type} (ops : kernel K) : kernel (K * list Z) := {|
  k_mkdirat := fun s at_fd path mode =>
    let (r, k) := k_mkdirat ops (fst s) at_fd path mode in (r, (k, snd s));
  k_openat := fun s at_fd path flags mode =>
    let (r, k) := k_openat ops (fst s) at_fd path flags mode in (r, (k, acquire r (snd s)));
  k_close := fun s fd => (k_close ops (fst s) fd, release fd (snd s));
  k_opendir := fun s path =>
    let (r, k) := k_opendir ops (fst s) path in (r, (k, acquire r (snd s)));
  k_aio_write := fun s fd bytes => (k_aio_write ops (fst s) fd bytes, snd s)
|}.

(** The descriptors booked as held. *)
Definition held {K : Type} (w : world (K * list Z)) : list Z := snd (w_kernel w).

End Descriptors.

(* ===================================================================== *)
(** * WriteMux: [socket_write_buffer] *)
(* ===================================================================== *)

Module WriteBuffer.

Section Buffer.

(** The completion handlers, whatever they are. *)
Variable H : Type.

(** [quoted_printable::encode] *)
Variable qp_encode : string -> string.

(** One call of [async_write_command]. *)
Record call := {
  cmd : string;
  data : string;
  handler : H
}.

(** The bytes the call appends to [back_buf]. *)
Definition frame (c : call) : string :=
  FrameCodec.async_write_command qp_encode (cmd c) (data c).

(** The members of the buffer, and beside them what it has done so far:
    the calls it was given, the buffer sequences it handed to [async_write]
    and the handlers it called, each oldest first. *)
Record socket_write_buffer := {
  front_handlers : list H;
  back_handlers : list H;
  front_buf : list string;
  back_buf : list string;
  writing : bool;
  issued : list call;
  handed : list (list string);
  called : list H
}.

Definition init : socket_write_buffer :=
  {| front_handlers := []; back_handlers := []; front_buf := []; back_buf := [];
     writing := false; issued := []; handed := []; called := [] |}.

(** [flush]: when no write is in flight, the two pairs of vectors are
    swapped, the new front buffers are handed to [async_write] and the back
    vectors are cleared. *)
Definition flush (s : socket_write_buffer) : socket_write_buffer :=
  if writing s then s
  else
    {| front_handlers := back_handlers s; back_handlers := [];
       front_buf := back_buf s; back_buf := [];
       writing := true;
       issued := issued s;
       handed := (handed s ++ [back_buf s])%list;
       called := called s |}.

(** [async_write_command]: the frame and its handler go to the back
    vectors, then [flush]. *)
Definition async_write_command (c : call) (s : socket_write_buffer) : socket_write_buffer :=
  flush
    {| front_handlers := front_handlers s;
       back_handlers := (back_handlers s ++ [handler c])%list;
       front_buf := front_buf s;
       back_buf := (back_buf s ++ [frame c])%list;
       writing := writing s;
       issued := (issued s ++ [c])%list;
       handed := handed s;
       called := called s |}.

(** [x()] for one handler of the front vector: the handler runs, and what
    it does to this buffer is to call [async_write_command] for each of
    [react], in order. *)
Definition call_handler (x : H) (react : list call) (s : socket_write_buffer)
  : socket_write_buffer :=
  fold_left (fun s c => async_write_command c s) react
    {| front_handlers := front_handlers s; back_handlers := back_handlers s;
       front_buf := front_buf s; back_buf := back_buf s;
       writing := writing s; issued := issued s; handed := handed s;
       called := (called s ++ [x])%list |}.

(** [for (const auto &x: front_handlers) x();] with the reaction of each
    handler taken from [reacts], a handler without an entry doing nothing. *)
Fixpoint call_handlers (hs : list H) (reacts : list (list call)) (s : socket_write_buffer)
  : socket_write_buffer :=
  match hs with
  | [] => s
  | x :: hs' => call_handlers hs' (tl reacts) (call_handler x (hd [] reacts) s)
  end.

(** [on_wrote]: the handlers of the front vector are called, the front
    vectors are cleared, and the back vectors are flushed if a handler was
    queued meanwhile. *)
Definition on_wrote (reacts : list (list call)) (s : socket_write_buffer)
  : socket_write_buffer :=
  let s := call_handlers (front_handlers s) reacts s in
  let s :=
    {| front_handlers := []; back_handlers := back_handlers s;
       front_buf := []; back_buf := back_buf s;
       writing := false; issued := issued s; handed := handed s; called := called s |} in
  match back_handlers s with
  | [] => s
  | _ :: _ => flush s
  end.

(** What happens to the buffer: a call from outside, or the completion of
    the write in flight, with what the handlers called then do. *)
Inductive event :=
| Write (c : call)
| Wrote (reacts : list (list call)).

Definition step (s : socket_write_buffer) (e : event) : socket_write_buffer :=
  match e with
  | Write c => async_write_command c s
  | Wrote reacts => if writing s then on_wrote reacts s else s
  end.

Definition run (events : list event) : socket_write_buffer :=
  fold_left step events init.

(** The completions among the events. *)
Definition completions (events : list event) : nat :=
  List.length (filter (fun e => match e with Wrote _ => true | Write _ => false end) events).

(** The buffer between two handlers of the event loop: the frames handed
    over and the frames waiting are the frames of the calls, the handlers
    called and the handlers waiting are the handlers of the calls, and the
    write in flight, if there is one, is the last one handed over. *)
Definition coherent (s : socket_write_buffer) : Prop :=
  (List.concat (handed s) ++ back_buf s)%list = map frame (issued s)
  /\ (called s ++ front_handlers s ++ back_handlers s)%list = map handler (issued s)
  /\ List.length (back_buf s) = List.length (back_handlers s)
  /\ List.length (front_buf s) = List.length (front_handlers s)
  /\ (if writing s
      then front_buf s <> []
           /\ exists completed,
                handed s = (completed ++ [front_buf s])%list
                /\ List.length (List.concat completed) = List.length (called s)
      else front_buf s = [] /\ back_buf s = []
           /\ List.length (List.concat (handed s)) = List.length (called s)).

End Buffer.

End WriteBuffer.

(* ===================================================================== *)
(** * The compiler list: [version_sender] *)
(* ===================================================================== *)

Module Versions.

Import Config.

(** What becomes of the child spawned for one version command.  A child
    that never ends is a list of children that runs out. *)
Inductive child :=
| SpawnFails
    (** [piped_spawn] throws *)
| Exits (status : Z) (out : string).
    (** the child is reaped with [status], having written [out] to its
        standard output *)

Inductive ending :=
| Replied       (** [VersionResult] was written *)
| SpawnError    (** [piped_spawn] failed: the exception leaves [operator()] *)
| Waiting.      (** a child has not ended *)

(** The state the coroutine carries, with the argv of every child it
    spawned and the frames it wrote. *)
Record sender := {
  spawned : list (list string);
  versions : list string;
  frames : list Runner.frame
}.

Definition fresh : sender := {| spawned := []; versions := []; frames := [] |}.

(** The text [std::getline] extracts: up to the first line feed. *)
Fixpoint first_line (s : string) : string :=
  match s with
  | EmptyString => EmptyString
  | String c t => if Ascii.eqb c Str.LF then EmptyString else String c (first_line t)
  end.

(** [getline(is, ver)] on what [async_read_until] left in the stream
    buffer: it fails only when there is nothing to read. *)
Definition getline (out : string) : option string :=
  if Str.empty out then None else Some (first_line out).

(** The test that skips a compiler before any child is spawned. *)
Definition listed (c : compiler_trait) : bool :=
  match version_command c with
  | [] => false
  | _ :: _ => displayable c
  end.

Section Sender.

(** [generate_displaying_compiler_config(current, ver, config.switches)],
    from [load_config.hpp]. *)
Variable render : compiler_trait -> string -> string.

(** The entry a listed compiler contributes, given what became of its
    child. *)
Definition entry (p : compiler_trait * child) : list string :=
  match snd p with
  | SpawnFails => []
  | Exits status out =>
      if (negb (Runner.WIFEXITED status) || negb (Runner.WEXITSTATUS status =? 0))%bool
      then []
      else match getline out with
           | Some ver => [render (fst p) ver]
           | None => []
           end
  end.

(** The reply: [async_write_command("VersionResult", "[" + join(versions, ",") + "]")]. *)
Definition reply (s : sender) : sender :=
  {| spawned := spawned s; versions := versions s;
     frames := (frames s
                  ++ [{| Runner.command := "VersionResult";
                         Runner.payload := "[" ++ Str.join "," (versions s) ++ "]" |}])%list |}.

(** [while (!commands.empty())]: one child per compiler that is not
    skipped. *)
Fixpoint version_loop (commands : list compiler_trait) (env : list child) (s : sender)
  : sender * ending :=
  match commands with
  | [] => (reply s, Replied)
  | current :: commands' =>
      match version_command current with
      | [] => version_loop commands' env s
      | _ :: _ =>
          if negb (displayable current) then version_loop commands' env s
          else
            match env with
            | SpawnFails :: _ => (s, SpawnError)
            | [] =>
                ({| spawned := (spawned s ++ [version_command current])%list;
                    versions := versions s; frames := frames s |}, Waiting)
            | Exits status out :: env' =>
                let s := {| spawned := (spawned s ++ [version_command current])%list;
                            versions := versions s; frames := frames s |} in
                if (negb (Runner.WIFEXITED status)
                    || negb (Runner.WEXITSTATUS status =? 0))%bool
                then version_loop commands' env' s
                else
                  match getline out with
                  | None => version_loop commands' env' s
                  | Some ver =>
                      version_loop commands' env'
                        {| spawned := spawned s;
                           versions := (versions s ++ [render current ver])%list;
                           frames := frames s |}
                  end
            end
      end
  end.

(** The constructor copies [config.compilers]; [operator()] runs the
    loop. *)
Definition version_sender (config : server_config) (env : list child) : sender * ending :=
  version_loop (compilers config) env fresh.

End Sender.

End Versions.

(* ===================================================================== *)
(** * The warnings a runner has sent *)
(* ===================================================================== *)

Module Warnings.

(** Every SIGXFSZ the runner has sent has the count behind it: the count
    is above the soft limit [soft] of the limiter, and it is a count a
    [size_t] holds. *)
Definition justified (soft : N) (r : Runner.runner) : Prop :=
  (Limiter.current (Runner.limitter r) <= Limiter.SIZE_MAX)%N
  /\ Limiter.soft_limit (Runner.limitter r) = soft
  /\ Forall (fun k : nat * Posix.signal =>
               snd k = Posix.SIGXFSZ -> (soft < Limiter.current (Runner.limitter r))%N)
       (Runner.kills r).

End Warnings.

(* ===================================================================== *)
(** * The calls of the path stager, one segment at a time *)
(* ===================================================================== *)

Module PathCalls.

Import Posix.




End PathCalls.

Unset Implicit Arguments.
(* ===================================================================== *)
(** * Facts about strings *)
(* ===================================================================== *)

Lemma append_assoc (a b c : string) : (a ++ b) ++ c = a ++ (b ++ c).
Proof. induction a as [|x a IH]; simpl; [reflexivity | now rewrite IH]. Qed.

Lemma append_nil_r (a : string) : a ++ "" = a.
Proof. induction a as [|x a IH]; simpl; [reflexivity | now rewrite IH]. Qed.

Lemma length_append (a b : string) :
  String.length (a ++ b) = (String.length a + String.length b)%nat.
Proof. induction a as [|x a IH]; simpl; [reflexivity | now rewrite IH]. Qed.

Lemma length_repeat c n : String.length (Str.repeat c n) = n.
Proof. induction n as [|n IH]; simpl; [reflexivity | now rewrite IH]. Qed.

(* ===================================================================== *)
(** * Facts about the quoted-printable coding *)
(* ===================================================================== *)

Lemma qp_decode_encode_char c t :
  QuotedPrintable.decode (QuotedPrintable.encode_char c ++ t)
  = String c (QuotedPrintable.decode t).
Proof.
  destruct c as [[] [] [] [] [] [] [] []]; reflexivity.
Qed.

Lemma qp_decode_encode s : QuotedPrintable.decode (QuotedPrintable.encode s) = s.
Proof.
  induction s as [|c s IH]; [reflexivity|].
  cbn [QuotedPrintable.encode]. rewrite qp_decode_encode_char. now rewrite IH.
Qed.

Lemma qp_encode_repeat_literal c n :
  QuotedPrintable.is_literal c = true ->
  QuotedPrintable.encode (Str.repeat c n) = Str.repeat c n.
Proof.
  intros Hc. induction n as [|n IH]; [reflexivity|].
  cbn [Str.repeat QuotedPrintable.encode]. rewrite IH.
  unfold QuotedPrintable.encode_char. now rewrite Hc.
Qed.

(* ===================================================================== *)
(** * FrameCodec: encoding followed by decoding *)
(* ===================================================================== *)

Import FrameCodec.

Lemma take_while_stop p a c rest :
  Str.forallb p a = true -> p c = false ->
  take_while p (a ++ String c rest) = (a, String c rest).
Proof.
  intros Ha Hc. induction a as [|x a IH]; simpl in *.
  - now rewrite Hc.
  - apply andb_prop in Ha. destruct Ha as [Hx Ha].
    rewrite Hx, (IH Ha). reflexivity.
Qed.

Lemma digits_step c t acc :
  Str.is_digit c = true ->
  digits (String c t) acc = digits t (10 * acc + Str.digit_value c)%N.
Proof. intros H. cbn [digits]. now rewrite H. Qed.

Lemma of_lu_rev_cons (d k : Decimal.uint) :
  DecimalPos.Unsigned.of_lu (Decimal.revapp d k)
  = (DecimalPos.Unsigned.of_lu (Decimal.rev d) + DecimalPos.Unsigned.of_lu k * 10 ^ DecimalPos.Unsigned.usize d)%N.
Proof. apply DecimalPos.Unsigned.of_lu_revapp. Qed.

Lemma digits_string_of_uint d acc c rest :
  Str.is_digit c = false ->
  digits (DecimalString.NilEmpty.string_of_uint d ++ String c rest) acc
  = ((DecimalPos.Unsigned.of_lu (Decimal.rev d) + acc * 10 ^ DecimalPos.Unsigned.usize d)%N, String c rest).
Proof.
  intros Hc. revert acc.
  induction d; intros acc;
    [ cbn [DecimalString.NilEmpty.string_of_uint append digits]; rewrite Hc;
      f_equal; change (DecimalPos.Unsigned.of_lu (Decimal.rev Decimal.Nil)) with 0%N;
      change (DecimalPos.Unsigned.usize Decimal.Nil) with 0%N; rewrite N.pow_0_r; lia | .. ];
    cbn [DecimalString.NilEmpty.string_of_uint append];
    rewrite digits_step by reflexivity; rewrite IHd; f_equal;
    unfold Decimal.rev at 2; cbn [Decimal.revapp]; rewrite of_lu_rev_cons;
    cbn [DecimalPos.Unsigned.usize]; rewrite N.pow_succ_r';
    match goal with |- context [Str.digit_value ?x] =>
      let v := eval vm_compute in (Str.digit_value x) in
      change (Str.digit_value x) with v end;
    match goal with |- context [DecimalPos.Unsigned.of_lu (?D Decimal.Nil)] =>
      let v := eval vm_compute in (DecimalPos.Unsigned.of_lu (D Decimal.Nil)) in
      change (DecimalPos.Unsigned.of_lu (D Decimal.Nil)) with v end;
    generalize (10 ^ DecimalPos.Unsigned.usize d)%N (DecimalPos.Unsigned.of_lu (Decimal.rev d)); intros X Y; lia.
Qed.

Lemma to_uint_head n :
  exists c t, Str.to_string n = String c t /\ Str.is_digit c = true.
Proof.
  unfold Str.to_string.
  assert (H : N.to_uint n <> Decimal.Nil).
  { destruct n; [discriminate | apply DecimalPos.Unsigned.to_uint_nonnil]. }
  destruct (N.to_uint n); [congruence | ..]; cbn [DecimalString.NilEmpty.string_of_uint];
    eexists; eexists; split; reflexivity.
Qed.

Lemma digits_to_string n c rest :
  Str.is_digit c = false ->
  digits (Str.to_string n ++ String c rest) 0 = (n, String c rest).
Proof.
  intros Hc. unfold Str.to_string. rewrite digits_string_of_uint by exact Hc.
  f_equal. rewrite N.mul_0_l, N.add_0_r.
  rewrite <- DecimalPos.Unsigned.of_uint_alt. apply (DecimalN.Unsigned.of_to n).
Qed.

Lemma qi_int_unsigned s :
  (exists d t, s = String d t /\ Str.is_digit d = true) ->
  qi_int s =
  let (n, rest) := digits s 0 in
  if ((INT_MIN <=? Z.of_N n) && (Z.of_N n <=? INT_MAX))%bool
  then Some (Z.of_N n, rest) else None.
Proof.
  intros (d & t & -> & Hd). unfold qi_int.
  assert (Hm : Ascii.eqb d "-" = false) by
    (destruct (Ascii.eqb_spec d "-") as [->|]; [discriminate Hd | reflexivity]).
  assert (Hp : Ascii.eqb d "+" = false) by
    (destruct (Ascii.eqb_spec d "+") as [->|]; [discriminate Hd | reflexivity]).
  now rewrite Hm, Hp, Hd.
Qed.

Lemma to_string_append_head n u :
  exists d t, Str.to_string n ++ u = String d t /\ Str.is_digit d = true.
Proof.
  destruct (to_uint_head n) as (d & t & Hs & Hd).
  exists d, (t ++ u). now rewrite Hs.
Qed.

Lemma qi_int_to_string n c rest :
  Str.is_digit c = false -> (Z.of_N n <= INT_MAX)%Z ->
  qi_int (Str.to_string n ++ String c rest) = Some (Z.of_N n, String c rest).
Proof.
  intros Hc Hn. rewrite qi_int_unsigned by apply to_string_append_head.
  rewrite digits_to_string by exact Hc.
  assert (H1 : (INT_MIN <=? Z.of_N n)%Z = true) by (apply Z.leb_le; unfold INT_MIN; lia).
  assert (H2 : (Z.of_N n <=? INT_MAX)%Z = true) by (apply Z.leb_le; exact Hn).
  now rewrite H1, H2.
Qed.

Lemma qi_int_overflow n c rest :
  Str.is_digit c = false -> (INT_MAX < Z.of_N n)%Z ->
  qi_int (Str.to_string n ++ String c rest) = None.
Proof.
  intros Hc Hn. rewrite qi_int_unsigned by apply to_string_append_head.
  rewrite digits_to_string by exact Hc.
  assert (H2 : (Z.of_N n <=? INT_MAX)%Z = false) by (apply Z.leb_gt; exact Hn).
  now rewrite H2, andb_false_r.
Qed.

Lemma qi_repeat_char_exact a rest :
  qi_repeat_char (String.length a) (a ++ rest) = Some (a, rest).
Proof. induction a as [|x a IH]; cbn; [reflexivity | now rewrite IH]. Qed.

Lemma is_digit_not_space d : Str.is_digit d = true -> Str.is_space d = false.
Proof. destruct d as [[] [] [] [] [] [] [] []]; vm_compute; congruence. Qed.

Lemma parse_frame_command cmd u :
  well_formed_command cmd ->
  (exists d t, u = String d t /\ Str.is_digit d = true) ->
  parse_frame (cmd ++ String " " u)
  = match qi_int u with
    | Some (len, String c s4) =>
        if Ascii.eqb c ":" then
          match qi_repeat_char (Z.to_nat len) s4 with
          | Some (data, s5) =>
              match qi_eol s5 with
              | Some rest => Some (cmd, data, rest)
              | None => None
              end
          | None => None
          end
        else None
    | _ => None
    end.
Proof.
  intros [Hne Hns] (d & t & -> & Hd). unfold parse_frame, qi_plus_nonspace.
  rewrite take_while_stop by (exact Hns || reflexivity).
  destruct cmd as [|c0 cmd]; [congruence|]. cbn [Str.empty].
  unfold qi_star_space. cbn [take_while]. change (Str.is_space " ") with true. cbv iota.
  rewrite (is_digit_not_space _ Hd). cbn [snd].
  destruct (qi_int (String d t)) as [[len [|c s4]]|]; reflexivity.
Qed.

Section CodecFacts.
Variables qp_encode qp_decode : string -> string.

Lemma async_write_command_shape cmd data :
  async_write_command qp_encode cmd data
  = cmd ++ String " " (Str.to_string (Str.len (qp_encode data))
                       ++ String ":" (qp_encode data ++ String Str.LF "")).
Proof. reflexivity. Qed.

Lemma parse_frame_async_write_command cmd data :
  well_formed_command cmd ->
  Z.of_N (Str.len (qp_encode data)) <= INT_MAX ->
  parse_frame (async_write_command qp_encode cmd data) = Some (cmd, qp_encode data, "").
Proof.
  intros Hc Hn. rewrite async_write_command_shape.
  rewrite parse_frame_command by (exact Hc || apply to_string_append_head).
  rewrite qi_int_to_string by (reflexivity || exact Hn).
  cbn [Ascii.eqb]. change (Ascii.eqb ":" ":") with true. cbv iota.
  replace (Z.to_nat (Z.of_N (Str.len (qp_encode data))))
    with (String.length (qp_encode data)) by (unfold Str.len; lia).
  rewrite qi_repeat_char_exact. reflexivity.
Qed.

Lemma parse_frame_length_overflow cmd data :
  well_formed_command cmd ->
  INT_MAX < Z.of_N (Str.len (qp_encode data)) ->
  parse_frame (async_write_command qp_encode cmd data) = None.
Proof.
  intros Hc Hn. rewrite async_write_command_shape.
  rewrite parse_frame_command by (exact Hc || apply to_string_append_head).
  now rewrite qi_int_overflow by (reflexivity || exact Hn).
Qed.

End CodecFacts.


(** C2 (as stated, refuted).  A payload of [2^31] bytes: the length field
    the encoder writes, [2147483648], does not fit the [int] that [qi::int_]
    reads it into, so the decoder yields no frame. *)
Lemma C2_roundtrip_fails_beyond_int :
  decode_frame QuotedPrintable.decode
    (async_write_command QuotedPrintable.encode "StdOut" (Str.repeat "a" (Nat.pow 2 31)))
  = None.
Proof.
  unfold decode_frame.
  rewrite parse_frame_length_overflow; [reflexivity | split; [discriminate | reflexivity] |].
  rewrite qp_encode_repeat_literal by reflexivity.
  unfold Str.len. rewrite length_repeat, nat_N_Z, Nat2Z.inj_pow.
  reflexivity.
Qed.

(** C2 (amended).  For a non-empty command without white space and a
    payload whose quoted-printable form is at most [INT_MAX] bytes long, the
    bytes written by [async_write_command] are read back by the inbound
    decoder as exactly the original command and payload, with nothing left
    in the buffer, provided [quoted_printable::decode] inverts
    [quoted_printable::encode]. *)
Theorem C2_frame_roundtrip (qp_encode qp_decode : string -> string) (cmd payload : string) :
  (forall s, qp_decode (qp_encode s) = s) ->
  well_formed_command cmd ->
  Z.of_N (Str.len (qp_encode payload)) <= INT_MAX ->
  decode_frame qp_decode (async_write_command qp_encode cmd payload)
  = Some (cmd, payload, "").
Proof.
  intros Hqp Hcmd Hlen. unfold decode_frame.
  rewrite parse_frame_async_write_command by assumption.
  now rewrite Hqp.
Qed.

Lemma C2_frame_roundtrip_witness :
  decode_frame QuotedPrintable.decode
    (async_write_command QuotedPrintable.encode "StdOut" "a=b c")
  = Some ("StdOut", "a=b c", "").
Proof.
  apply (C2_frame_roundtrip QuotedPrintable.encode QuotedPrintable.decode "StdOut" "a=b c").
  - exact qp_decode_encode.
  - split; [discriminate | reflexivity].
  - vm_compute. discriminate.
Defined.


(* ===================================================================== *)
(** * PathStager *)
(* ===================================================================== *)

Section StagerFacts.

Import Posix PathStager.

Context {K : Type} (ops : kernel K).

Lemma no_target_open_refl (w : world K) : no_target_open w w.
Proof. exists []. split; [now rewrite app_nil_r | reflexivity]. Qed.

Lemma no_target_open_trans (a b c : world K) :
  no_target_open a b -> no_target_open b c -> no_target_open a c.
Proof.
  intros (l1 & E1 & H1) (l2 & E2 & H2). exists (l1 ++ l2)%list. split.
  - now rewrite E2, E1, app_assoc.
  - now rewrite forallb_app, H1, H2.
Qed.

Lemma no_target_open_step (w w' : world K) (c : syscall) :
  w_log w' = (w_log w ++ [c])%list -> is_target_open c = false ->
  no_target_open w w'.
Proof. intros E H. exists [c]. split; [exact E | cbn; now rewrite H]. Qed.

Lemma no_target_open_set_errno e (w : world K) : no_target_open w (set_errno e w).
Proof. exists []. split; [cbn; now rewrite app_nil_r | reflexivity]. Qed.

Lemma no_target_open_close fd (w : world K) : no_target_open w (sys_close ops fd w).
Proof. now apply no_target_open_step with (c := SysClose fd). Qed.

Lemma no_target_open_mkdirat at_fd x mode (w : world K) :
  no_target_open w (snd (sys_mkdirat ops at_fd x mode w)).
Proof.
  unfold sys_mkdirat. destruct (k_mkdirat ops (w_kernel w) at_fd x mode) as [[v|e] k];
    now apply no_target_open_step with (c := SysMkdirat at_fd x mode).
Qed.

Lemma no_target_open_opendir at_fd x flags (w : world K) :
  no_target_open w (snd (sys_openat ops at_fd x flags None w)).
Proof.
  unfold sys_openat. destruct (k_openat ops (w_kernel w) at_fd x flags None) as [[v|e] k];
    now apply no_target_open_step with (c := SysOpenat at_fd x flags None).
Qed.

Lemma no_target_open_closeall fds (w : world K) : no_target_open w (closeall ops fds w).
Proof.
  unfold closeall. generalize (List.rev fds) as l. intros l. revert w.
  induction l as [|fd l IH]; intros w; cbn.
  - apply no_target_open_refl.
  - eapply no_target_open_trans; [apply no_target_open_close | apply IH].
Qed.

(** The walk over the directory segments never opens a target file. *)
Lemma walk_no_target_open at_fd dirmode dirs :
  forall dirfds (w : world K),
    no_target_open w (snd (walk ops at_fd dirmode dirs dirfds w)).
Proof.
  induction dirs as [|x rest IH]; intros dirfds w; cbn [walk].
  - apply no_target_open_refl.
  - destruct (String.eqb x ""); [apply IH|].
    destruct (String.eqb x "."); [apply IH|].
    destruct (String.eqb x "..").
    + destruct dirfds as [|fd below]; [apply no_target_open_refl|].
      eapply no_target_open_trans; [apply no_target_open_close | apply IH].
    + pose proof (no_target_open_set_errno 0 w) as H0.
      pose proof (no_target_open_mkdirat (base at_fd dirfds) x dirmode (set_errno 0 w)) as H1.
      destruct (sys_mkdirat ops (base at_fd dirfds) x dirmode (set_errno 0 w)) as [r1 w1].
      cbn [snd] in H1.
      pose proof (no_target_open_opendir (base at_fd dirfds) x
                    (Z.lor O_DIRECTORY (Z.lor O_PATH O_RDWR)) w1) as H2.
      destruct (sys_openat ops (base at_fd dirfds) x
                  (Z.lor O_DIRECTORY (Z.lor O_PATH O_RDWR)) None w1) as [dirfd w2].
      cbn [snd] in H2.
      assert (H : no_target_open w w2)
        by (eapply no_target_open_trans; [exact H0|];
            eapply no_target_open_trans; [exact H1 | exact H2]).
      destruct (dirfd =? -1).
      * cbn [snd]. eapply no_target_open_trans; [exact H | apply no_target_open_closeall].
      * eapply no_target_open_trans; [exact H | apply IH].
Qed.

(** A [..] that finds the stack empty makes the walk return [-1]. *)
Lemma walk_escapes at_fd dirmode dirs :
  forall dirfds (w : world K),
    escapes dirs (List.length dirfds) = true ->
    fst (walk ops at_fd dirmode dirs dirfds w) = None.
Proof.
  induction dirs as [|x rest IH]; intros dirfds w; cbn [walk escapes].
  - discriminate.
  - destruct (String.eqb x ""); [apply IH|].
    destruct (String.eqb x "."); [apply IH|].
    destruct (String.eqb x "..").
    + destruct dirfds as [|fd below]; [reflexivity|]. cbn [List.length]. apply IH.
    + intros H.
      destruct (sys_mkdirat ops (base at_fd dirfds) x dirmode (set_errno 0 w)) as [r1 w1].
      destruct (sys_openat ops (base at_fd dirfds) x
                  (Z.lor O_DIRECTORY (Z.lor O_PATH O_RDWR)) None w1) as [dirfd w2].
      destruct (dirfd =? -1); [reflexivity|]. apply IH. exact H.
Qed.

Lemma recursive_create_open_at_absolute at_fd filename flags dirmode filemode (w : world K) :
  Str.front filename = "/"%char ->
  recursive_create_open_at ops at_fd filename flags dirmode filemode w = (-1, w).
Proof. intros H. unfold recursive_create_open_at. now rewrite H. Qed.

Lemma split_nonempty p s : Str.split p s <> [].
Proof.
  destruct s as [|c s]; cbn; [discriminate|].
  destruct (p c); [discriminate|]. destruct (Str.split p s); discriminate.
Qed.

Lemma recursive_create_open_at_escape at_fd filename flags dirmode filemode (w : world K) :
  escapes (directories filename) 0 = true ->
  fst (recursive_create_open_at ops at_fd filename flags dirmode filemode w) = -1
  /\ no_target_open w
       (snd (recursive_create_open_at ops at_fd filename flags dirmode filemode w)).
Proof.
  unfold directories, recursive_create_open_at. intros H.
  destruct (Ascii.eqb (Str.front filename) "/").
  { split; [reflexivity | apply no_target_open_refl]. }
  pose proof (split_nonempty is_slash filename) as Hne.
  destruct (Str.split is_slash filename) as [|d0 ds] eqn:Hs; [congruence|].
  destruct (removelast (d0 :: ds)) as [|x rest] eqn:Hr; [discriminate H|].
  pose proof (walk_escapes at_fd dirmode (x :: rest) [] (set_errno 0 w) H) as Hw.
  pose proof (walk_no_target_open at_fd dirmode (x :: rest) [] (set_errno 0 w)) as Hn.
  destruct (walk ops at_fd dirmode (x :: rest) [] (set_errno 0 w)) as [[fds|] w'];
    cbn [fst snd] in *; [discriminate Hw|].
  split; [reflexivity|].
  eapply no_target_open_trans; [apply no_target_open_set_errno | exact Hn].
Qed.

Lemma recursive_create_open_at_dot_a at_fd flags dirmode filemode (w : world K) :
  recursive_create_open_at ops at_fd "./a" flags dirmode filemode w
  = sys_openat ops at_fd "a" flags (Some filemode) (set_errno 0 (set_errno 0 w)).
Proof.
  unfold recursive_create_open_at. cbn.
  destruct (sys_openat ops at_fd "a" flags (Some filemode) (set_errno 0 (set_errno 0 w)))
    as [fd w'].
  reflexivity.
Qed.

End StagerFacts.

(** C3.  [recursive_create_open_at] returns [-1] without a single call for
    every path that begins with [/], and returns [-1] without opening a
    target file for every path one of whose directory segments is a [..]
    met with an empty stack of directory descriptors, whatever the kernel
    answers.  So it rejects ["/etc/passwd"], ["../../etc/passwd"] and
    ["a/../../b"].  For ["./a"] the [.] is skipped and the result is that of
    opening [a] under the root descriptor; for ["a/b/c"], on a kernel on
    which every call succeeds, both directories are made and opened and [c]
    is opened under the second. *)
Theorem C3_path_safety :
  forall (K : Type) (ops : Posix.kernel K) (at_fd flags dirmode filemode : Z)
         (w : Posix.world K),
    let create := fun filename =>
      PathStager.recursive_create_open_at ops at_fd filename flags dirmode filemode w in
    let rejected := fun filename =>
      fst (create filename) = -1 /\ PathStager.no_target_open w (snd (create filename)) in
    (forall filename, Str.front filename = "/"%char -> create filename = (-1, w))
    /\ (forall filename,
          PathStager.escapes (PathStager.directories filename) 0 = true ->
          rejected filename)
    /\ rejected "/etc/passwd"
    /\ rejected "../../etc/passwd"
    /\ rejected "a/../../b"
    /\ create "./a"
       = Posix.sys_openat ops at_fd "a" flags (Some filemode)
           (Posix.set_errno 0 (Posix.set_errno 0 w))
    /\ PathStager.recursive_create_open_at Posix.permissive 3 "a/b/c"
         Writer.stage_flags 448 384 (Posix.boot 4)
       = (6, {| Posix.w_kernel := 7; Posix.w_errno := 0;
                Posix.w_log :=
                  [Posix.SysMkdirat 3 "a" 448;
                   Posix.SysOpenat 3 "a" 2162690 None;
                   Posix.SysMkdirat 4 "b" 448;
                   Posix.SysOpenat 4 "b" 2162690 None;
                   Posix.SysOpenat 5 "c" Writer.stage_flags (Some 384);
                   Posix.SysClose 4; Posix.SysClose 5] |}).
Proof.
  intros K ops at_fd flags dirmode filemode w create rejected.
  assert (Habs : forall filename, Str.front filename = "/"%char -> create filename = (-1, w))
    by (intros f Hf; apply recursive_create_open_at_absolute; exact Hf).
  assert (Hesc : forall filename,
             PathStager.escapes (PathStager.directories filename) 0 = true ->
             rejected filename)
    by (intros f Hf; apply recursive_create_open_at_escape; exact Hf).
  refine (conj Habs (conj Hesc (conj _ (conj _ (conj _ (conj _ _)))))).
  - split; [now rewrite Habs | rewrite Habs by reflexivity; apply no_target_open_refl].
  - apply (Hesc "../../etc/passwd"). reflexivity.
  - apply (Hesc "a/../../b"). reflexivity.
  - apply recursive_create_open_at_dot_a.
  - reflexivity.
Qed.


(* ===================================================================== *)
(** * [std::unordered_map]: lookups after updates *)
(* ===================================================================== *)

Lemma umap_find_set_eq k v m : UMap.find k (UMap.set k v m) = Some v.
Proof.
  induction m as [|[k' v'] m IH]; cbn.
  - now rewrite String.eqb_refl.
  - destruct (String.eqb k k') eqn:E; cbn; rewrite ?String.eqb_refl, ?E; auto.
Qed.

Lemma umap_find_set_ne k k' v m :
  k <> k' -> UMap.find k' (UMap.set k v m) = UMap.find k' m.
Proof.
  intros Hne. induction m as [|[k0 v0] m IH]; cbn.
  - destruct (String.eqb_spec k' k); [congruence | reflexivity].
  - destruct (String.eqb_spec k k0) as [->|]; cbn.
    + destruct (String.eqb_spec k' k0); [congruence | reflexivity].
    + now rewrite IH.
Qed.

Lemma umap_at_append_eq k x m : UMap.at_ k (UMap.append_at k x m) = UMap.at_ k m ++ x.
Proof. unfold UMap.append_at, UMap.at_ at 1. now rewrite umap_find_set_eq. Qed.

Lemma umap_at_append_ne k k' x m :
  k <> k' -> UMap.at_ k' (UMap.append_at k x m) = UMap.at_ k' m.
Proof. intros H. unfold UMap.append_at, UMap.at_. now rewrite umap_find_set_ne. Qed.

Lemma umap_at_touch k k' m : UMap.at_ k' (UMap.touch k m) = UMap.at_ k' m.
Proof.
  unfold UMap.touch. destruct (UMap.find k m) eqn:E; [reflexivity|].
  unfold UMap.at_. destruct (String.eqb_spec k k') as [->|Hne].
  - now rewrite umap_find_set_eq, E.
  - now rewrite umap_find_set_ne.
Qed.

Lemma umap_keys_set k v m :
  UMap.keys (UMap.set k v m)
  = if existsb (String.eqb k) (UMap.keys m) then UMap.keys m
    else (UMap.keys m ++ [k])%list.
Proof.
  induction m as [|[k' v'] m IH]; cbn; [reflexivity|].
  destruct (String.eqb_spec k k') as [->|Hne]; cbn; [reflexivity|].
  unfold UMap.keys in IH. rewrite IH.
  now destruct (existsb (String.eqb k) (map fst m)).
Qed.

(* ===================================================================== *)
(** * RunSession *)
(* ===================================================================== *)

Section BridgeFacts.

Import Bridge.

Variable qp_decode : string -> string.
Variable config : Config.server_config.

Lemma on_frames_app b fs gs :
  on_frames qp_decode config b (fs ++ gs)
  = match on_frames qp_decode config b fs with
    | Reading b' => on_frames qp_decode config b' gs
    | o => o
    end.
Proof.
  revert b. induction fs as [|[c d] fs IH]; intros b; cbn; [reflexivity|].
  destruct (on_frame qp_decode config b c d); auto.
Qed.

(** While the bridge keeps reading, [received["Control"]] is everything the
    [Control] frames carried so far, joined. *)
Lemma received_control_accumulates fs : forall b b',
  on_frames qp_decode config b fs = Reading b' ->
  UMap.at_ "Control" (received b')
  = UMap.at_ "Control" (received b) ++ accumulated qp_decode "Control" fs.
Proof.
  induction fs as [|[c d] fs IH]; intros b b' H; cbn in H.
  - injection H as <-. cbn. now rewrite append_nil_r.
  - cbn [accumulated]. unfold on_frame in H.
    destruct (String.eqb_spec c "Control") as [->|Hc].
    + destruct (String.eqb d "run"); cbn [andb] in H.
      * destruct (Config.find_compiler _ _); discriminate H.
      * cbn in H. apply IH in H. cbn [received] in H.
        now rewrite H, umap_at_append_eq, append_assoc.
    + cbn [andb] in H.
      destruct (String.eqb c "Version"); [discriminate H|].
      destruct (String.eqb c "SourceFileName"); [now apply IH in H|].
      destruct (String.eqb c "Source"); [now apply IH in H|].
      apply IH in H. cbn [received] in H.
      now rewrite H, umap_at_append_ne.
Qed.

End BridgeFacts.

(** C6 (as stated, refuted).  Two [Control] frames, [compiler=x] and then
    [compiler=gcc], followed by [Control: run].  The payload received last
    names [gcc], which is in the catalogue, yet the session is closed: the
    name looked up is read off the two payloads joined together. *)
Lemma C6_latest_control_payload_not_used :
  let wire := FrameCodec.async_write_command QuotedPrintable.encode in
  let fs := [("Control", QuotedPrintable.encode "compiler=x");
             ("Control", QuotedPrintable.encode "compiler=gcc")] in
  Bridge.latest QuotedPrintable.decode "Control" fs = Some "compiler=gcc"
  /\ Config.find_compiler (Bridge.parse_compiler_name "compiler=gcc")
       (Config.compilers Sample.config) = Some Sample.gcc
  /\ Bridge.compiler_bridge QuotedPrintable.decode Sample.config Bridge.init
       [Bridge.ReadBytes (wire "Control" "compiler=x" ++ wire "Control" "compiler=gcc"
                          ++ wire "Control" "run")]
     = Bridge.UnknownCompiler "xcompiler=gcc".
Proof. repeat split; vm_compute; reflexivity. Qed.

(** C6 (amended).  When a [Control] frame with the literal payload [run]
    arrives, the compiler name is what follows [compiler=] in the
    concatenation of all [Control] payloads received so far (empty when
    that does not begin with [compiler=]).  If the catalogue has no such
    compiler the socket is closed, no system call is made and no outbound
    frame is written; if it has, the connection is handed to
    [program_writer].  Either way, the frames that follow are not looked
    at. *)
Theorem C6_run_commit :
  forall (qp_decode : string -> string) (config : Config.server_config)
         (fs later : list (string * string)) (b : Bridge.bridge),
    Bridge.on_frames qp_decode config Bridge.init fs = Bridge.Reading b ->
    let ccname :=
      Bridge.parse_compiler_name (Bridge.accumulated qp_decode "Control" fs) in
    Bridge.on_frames qp_decode config Bridge.init (fs ++ ("Control", "run") :: later)
    = match Config.find_compiler ccname (Config.compilers config) with
      | None => Bridge.UnknownCompiler ccname
      | Some c =>
          Bridge.ToWriter (UMap.touch "Control" (Bridge.received b)) (Bridge.sources b) c
      end
    /\ forall (K : Type) (ops : Posix.kernel K) order strsignal workdir unique_name
              reads signals env (w : Posix.world K),
         Bridge.compiler_bridge qp_decode config Bridge.init reads
         = Bridge.UnknownCompiler ccname ->
         Session.session ops qp_decode config order strsignal workdir unique_name
           reads signals env w
         = (Session.ClosedUnknownCompiler ccname, w)
         /\ Session.outbound (Session.ClosedUnknownCompiler ccname) = [].
Proof.
  intros qp_decode config fs later b H ccname. split.
  - rewrite on_frames_app, H. cbn [Bridge.on_frames]. unfold Bridge.on_frame.
    cbn [String.eqb Ascii.eqb Bool.eqb andb].
    rewrite umap_at_touch.
    rewrite (received_control_accumulates qp_decode config fs _ _ H).
    cbn [Bridge.init Bridge.received UMap.at_ UMap.find UMap.empty append].
    fold ccname. now destruct (Config.find_compiler ccname (Config.compilers config)).
  - intros K ops order strsignal workdir unique_name reads signals env w Hr.
    unfold Session.session. rewrite Hr. split; reflexivity.
Qed.

Lemma C6_run_commit_witness :
  Bridge.on_frames QuotedPrintable.decode Sample.config Bridge.init
    ([("StdIn", "hello"); ("Control", "compiler=3Dgcc")] ++ ("Control", "run") :: [("StdIn", "late")])
  = Bridge.ToWriter [("StdIn", "hello"); ("Control", "compiler=gcc")] [] Sample.gcc.
Proof.
  exact (proj1 (C6_run_commit QuotedPrintable.decode Sample.config
                  [("StdIn", "hello"); ("Control", "compiler=3Dgcc")] [("StdIn", "late")]
                  _ eq_refl)).
Defined.

(** C10.  A [Control] frame whose wire payload is not the three bytes
    [run] but decodes to them does not commit the session: the bridge keeps
    reading, and the decoded payload is appended to [received["Control"]]
    as for any other frame. *)
Theorem C10_encoded_run_does_not_commit :
  forall (qp_decode : string -> string) (config : Config.server_config)
         (b : Bridge.bridge) (data : string),
    data <> "run" ->
    qp_decode data = "run" ->
    Bridge.on_frame qp_decode config b "Control" data
    = Bridge.Reading
        {| Bridge.received := UMap.append_at "Control" "run" (Bridge.received b);
           Bridge.sources := Bridge.sources b;
           Bridge.current_filename := Bridge.current_filename b;
           Bridge.buf := Bridge.buf b |}.
Proof.
  intros qp_decode config b data Hne Hdec. unfold Bridge.on_frame.
  destruct (String.eqb_spec data "run") as [->|_]; [congruence|].
  cbn. now rewrite Hdec.
Qed.

Lemma C10_encoded_run_does_not_commit_witness :
  Bridge.on_frame QuotedPrintable.decode Sample.config Bridge.init "Control" "ru=6E"
  = Bridge.Reading
      {| Bridge.received := [("Control", "run")];
         Bridge.sources := [];
         Bridge.current_filename := "";
         Bridge.buf := "" |}.
Proof.
  apply (C10_encoded_run_does_not_commit QuotedPrintable.decode Sample.config
           Bridge.init "ru=6E"); [discriminate | reflexivity].
Defined.


(* ===================================================================== *)
(** * ProgramRunner: command construction *)
(* ===================================================================== *)

Lemma split_cons p c s :
  Str.split p (String c s)
  = if p c then EmptyString :: Str.split p s
    else match Str.split p s with
         | [] => [String c EmptyString]
         | tok :: toks => String c tok :: toks
         end.
Proof. reflexivity. Qed.

(** Two separator tests that agree on the characters of [s] split it alike. *)
Lemma split_ext p q s :
  Str.forallb (fun c => Bool.eqb (p c) (q c)) s = true ->
  Str.split p s = Str.split q s.
Proof.
  induction s as [|c s IH]; intros H; [reflexivity|].
  cbn [Str.forallb] in H. apply andb_prop in H. destruct H as [Hc Hs].
  rewrite 2!split_cons, (IH Hs). apply Bool.eqb_prop in Hc. now rewrite Hc.
Qed.

(** No token of a split holds a separator. *)
Lemma split_tokens_clean p s :
  Forall (fun tok => Str.forallb (fun c => negb (p c)) tok = true) (Str.split p s).
Proof.
  induction s as [|c s IH]; [repeat constructor|].
  rewrite split_cons. destruct (p c) eqn:Hc.
  - constructor; [reflexivity | exact IH].
  - pose proof (split_nonempty p s) as Hne.
    destruct (Str.split p s) as [|tok toks]; [congruence|].
    inversion IH as [|? ? Htok Htoks]; subst. constructor; [|exact Htoks].
    cbn [Str.forallb]. now rewrite Hc, Htok.
Qed.

(** Joining the tokens gives the string back, a line feed standing where
    each separator stood. *)
Lemma join_split p s :
  Str.join Str.LF (Str.split p s) = Str.map (fun c => if p c then Str.LF else c) s.
Proof.
  induction s as [|c s IH]; [reflexivity|].
  rewrite split_cons. cbn [Str.map]. rewrite <- IH.
  pose proof (split_nonempty p s) as Hne.
  destruct (p c); destruct (Str.split p s) as [|tok toks]; try congruence.
  - reflexivity.
  - destruct toks; reflexivity.
Qed.

Lemma forall_removelast {A : Type} (P : A -> Prop) (l : list A) :
  Forall P l -> Forall P (removelast l).
Proof.
  induction 1 as [|x l Hx Hl IH]; [constructor|].
  cbn [removelast]. destruct l; [constructor | constructor; assumption].
Qed.

Lemma forall_drop_trailing_empty (P : string -> Prop) (l : list string) :
  Forall P l -> Forall P (Runner.drop_trailing_empty l).
Proof.
  intros H. unfold Runner.drop_trailing_empty. destruct l as [|x l]; [constructor|].
  destruct (Str.empty (last (x :: l) "")); [now apply forall_removelast | exact H].
Qed.

Lemma raw_pieces_agree_without_cr payload :
  Str.forallb (fun c => negb (Ascii.eqb c Str.CR)) (Str.replace_all_crlf payload) = true ->
  Runner.raw_pieces payload = Runner.spec_raw_pieces payload.
Proof.
  intros H. unfold Runner.raw_pieces, Runner.spec_raw_pieces. f_equal.
  apply split_ext. revert H. generalize (Str.replace_all_crlf payload) as s.
  induction s as [|c s IH]; intros H; [reflexivity|].
  cbn [Str.forallb] in *. apply andb_prop in H. destruct H as [Hc Hs].
  rewrite (IH Hs), andb_true_r. unfold Runner.is_cr_or_lf.
  destruct (Ascii.eqb c Str.CR); [discriminate Hc|].
  rewrite orb_false_l. apply Bool.eqb_reflx.
Qed.

(** C8 (as stated, refuted).  A raw option payload with a carriage return
    that no line feed follows: splitting on LF would leave it in one piece,
    the code makes two argv elements of it. *)
Lemma C8_lone_carriage_return_splits :
  let payload := "-DA" ++ String Str.CR "-DB" in
  Runner.spec_raw_pieces payload = [payload]
  /\ option_map (map Runner.arguments)
       (Runner.build_commands (Config.all_switches Sample.config) Sample.jail Sample.gcc
          [("CompilerOptionRaw", payload)])
     = Some [["jail"; "--"; "gcc"; "prog.c"; "-DA"; "-DB"]; ["jail"; "--"; "./a.out"]].
Proof. split; reflexivity. Qed.

(** C8 (amended).  With [ccargs] and [progargs] the two argvs after the
    switches: the compile argv is [jail_command], then [ccargs], then the
    pieces of the [CompilerOptionRaw] payload if that frame was received;
    the run argv is [jail_command], then [progargs], then the pieces of
    [RuntimeOptionRaw].  The pieces of a payload are the tokens between the
    separators of the payload with CRLF replaced by LF, where every LF and
    every CR that is left is a separator, less one trailing empty token;
    when no CR is left, these are the pieces of a split on LF. *)
Theorem C8_raw_options :
  forall (catalogue : list (string * Config.switch_trait)) (jail : Config.jail_config)
         (target_compiler : Config.compiler_trait) (received : UMap.t)
         (ccargs progargs : list string),
    Runner.switch_step catalogue target_compiler received = Some (ccargs, progargs) ->
    let pieces := fun key =>
      match UMap.find key received with
      | Some payload => Runner.raw_pieces payload
      | None => []
      end in
    option_map (map Runner.arguments)
      (Runner.build_commands catalogue jail target_compiler received)
    = Some [ (Config.jail_command jail ++ ccargs ++ pieces "CompilerOptionRaw")%list;
             (Config.jail_command jail ++ progargs ++ pieces "RuntimeOptionRaw")%list ]
    /\ forall payload,
         let normalized := Str.replace_all_crlf payload in
         let tokens := Str.split Runner.is_cr_or_lf normalized in
         Runner.raw_pieces payload = Runner.drop_trailing_empty tokens
         /\ Forall (fun tok =>
                      Str.forallb (fun c => negb (Runner.is_cr_or_lf c)) tok = true) tokens
         /\ Str.join Str.LF tokens
            = Str.map (fun c => if Runner.is_cr_or_lf c then Str.LF else c) normalized
         /\ (Str.forallb (fun c => negb (Ascii.eqb c Str.CR)) normalized = true ->
             Runner.raw_pieces payload = Runner.spec_raw_pieces payload).
Proof.
  intros catalogue jail target_compiler received ccargs progargs Hsw pieces. split.
  - unfold Runner.build_commands. rewrite Hsw. cbn [option_map map Runner.arguments].
    unfold Runner.append_raw, pieces.
    destruct (UMap.find "CompilerOptionRaw" received);
      destruct (UMap.find "RuntimeOptionRaw" received);
      rewrite ?app_nil_r; reflexivity.
  - intros payload normalized tokens. repeat split.
    + apply split_tokens_clean.
    + apply join_split.
    + apply raw_pieces_agree_without_cr.
Qed.

Lemma C8_raw_options_witness :
  option_map (map Runner.arguments)
    (Runner.build_commands (Config.all_switches Sample.config) Sample.jail Sample.gcc
       [("CompilerOption", "warning"); ("RuntimeOptionRaw", "1" ++ String Str.LF "2")])
  = Some [["jail"; "--"; "gcc"; "prog.c"; "-Wall"]; ["jail"; "--"; "./a.out"; "1"; "2"]].
Proof.
  exact (proj1 (C8_raw_options (Config.all_switches Sample.config) Sample.jail Sample.gcc
                  [("CompilerOption", "warning"); ("RuntimeOptionRaw", "1" ++ String Str.LF "2")]
                  ["gcc"; "prog.c"; "-Wall"] ["./a.out"] eq_refl)).
Defined.

(* ===================================================================== *)
(** * The decode loop over whole frames *)
(* ===================================================================== *)

Lemma take_while_length p s :
  (String.length (snd (take_while p s)) <= String.length s)%nat.
Proof.
  induction s as [|c s IH]; cbn; [lia|].
  destruct (p c); [|cbn; lia].
  destruct (take_while p s) as [a r]. cbn in *. lia.
Qed.

Lemma qi_plus_nonspace_length s tok r :
  qi_plus_nonspace s = Some (tok, r) -> (String.length r < String.length s)%nat.
Proof.
  unfold qi_plus_nonspace.
  destruct s as [|c s]; [discriminate|]. cbn [take_while].
  destruct (negb (Str.is_space c)); [|discriminate].
  pose proof (take_while_length (fun c => negb (Str.is_space c)) s) as H.
  destruct (take_while (fun c => negb (Str.is_space c)) s) as [a r'].
  cbn [Str.empty]. intros [= <- <-]. cbn in *. lia.
Qed.

Lemma digits_length s : forall acc,
  (String.length (snd (digits s acc)) <= String.length s)%nat.
Proof.
  induction s as [|c s IH]; intros acc; cbn [digits]; [cbn; lia|].
  destruct (Str.is_digit c); [|cbn; lia].
  specialize (IH (10 * acc + Str.digit_value c)%N). cbn [String.length]. lia.
Qed.

Lemma qi_int_length s v r :
  qi_int s = Some (v, r) -> (String.length r <= String.length s)%nat.
Proof.
  unfold qi_int.
  assert (Haux : forall neg s1,
             match s1 with
             | "" => None
             | String c _ =>
                 if Str.is_digit c then
                   let (n, rest) := digits s1 0 in
                   let v := if neg : bool then - Z.of_N n else Z.of_N n in
                   if ((INT_MIN <=? v) && (v <=? INT_MAX))%bool then Some (v, rest) else None
                 else None
             end = Some (v, r) -> (String.length r <= String.length s1)%nat).
  { intros neg s1. destruct s1 as [|c s1]; [discriminate|].
    destruct (Str.is_digit c); [|discriminate].
    pose proof (digits_length (String c s1) 0) as H.
    destruct (digits (String c s1) 0) as [n rest]. cbn [snd] in H.
    cbv zeta. destruct (andb _ _); [|discriminate]. now intros [= _ <-]. }
  destruct s as [|c s]; [discriminate|].
  destruct (Ascii.eqb c "-"); [intros H; apply (Haux true) in H; cbn; lia|].
  destruct (Ascii.eqb c "+"); [intros H; apply (Haux false) in H; cbn; lia|].
  exact (Haux false (String c s)).
Qed.

Lemma qi_repeat_char_length n : forall s a r,
  qi_repeat_char n s = Some (a, r) -> (String.length r <= String.length s)%nat.
Proof.
  induction n as [|n IH]; intros s a r; cbn.
  - intros [= _ <-]. lia.
  - destruct s as [|c s]; [discriminate|].
    destruct (qi_repeat_char n s) as [[a' r']|] eqn:E; [|discriminate].
    intros [= _ <-]. apply IH in E. cbn. lia.
Qed.

Lemma qi_eol_length s r : qi_eol s = Some r -> (String.length r < String.length s)%nat.
Proof.
  unfold qi_eol. destruct s as [|c s]; [discriminate|].
  destruct (Ascii.eqb c Str.CR).
  - destruct s as [|c' s']; [intros [= <-]; cbn; lia|].
    destruct (Ascii.eqb c' Str.LF); intros [= <-]; cbn; lia.
  - destruct (Ascii.eqb c Str.LF); [|discriminate]. intros [= <-]. cbn. lia.
Qed.

(** Every frame the grammar reads takes bytes off the buffer. *)
Lemma parse_frame_length s cmd data rest :
  parse_frame s = Some (cmd, data, rest) -> (String.length rest < String.length s)%nat.
Proof.
  unfold parse_frame.
  destruct (qi_plus_nonspace s) as [[c s1]|] eqn:E1; [|discriminate].
  apply qi_plus_nonspace_length in E1.
  pose proof (take_while_length Str.is_space s1) as E2. fold (qi_star_space s1) in E2.
  destruct (qi_int (qi_star_space s1)) as [[len s3]|] eqn:E3; [|discriminate].
  apply qi_int_length in E3.
  destruct s3 as [|c3 s4]; [discriminate|].
  destruct (Ascii.eqb c3 ":"); [|discriminate].
  destruct (qi_repeat_char (Z.to_nat len) s4) as [[d s5]|] eqn:E4; [|discriminate].
  apply qi_repeat_char_length in E4.
  destruct (qi_eol s5) as [r|] eqn:E5; [|discriminate].
  apply qi_eol_length in E5.
  intros [= _ _ <-]. cbn in *. lia.
Qed.

Lemma parse_frame_frame_bytes cmd data rest :
  readable (cmd, data) ->
  parse_frame (frame_bytes cmd data ++ rest) = Some (cmd, data, rest).
Proof.
  intros [Hc Hn]. cbn [fst snd] in *. unfold frame_bytes.
  rewrite !append_assoc. cbn [append].
  rewrite parse_frame_command by (exact Hc || apply to_string_append_head).
  rewrite qi_int_to_string by (reflexivity || exact Hn).
  change (Ascii.eqb ":" ":") with true. cbv iota.
  replace (Z.to_nat (Z.of_N (Str.len data))) with (String.length data)
    by (unfold Str.len; lia).
  rewrite qi_repeat_char_exact. reflexivity.
Qed.

Section LoopFacts.

Import Bridge.

Variable qp_decode : string -> string.
Variable config : Config.server_config.

(** The bound on the turns of the inner loop is never the reason it
    stops: any bound that is at least the length of the buffer gives the
    same outcome. *)
Lemma frames_loop_turns n : forall m b s,
  (String.length s <= n)%nat -> (String.length s <= m)%nat ->
  frames_loop qp_decode config n b s = frames_loop qp_decode config m b s.
Proof.
  induction n as [|n IH]; intros m b s Hn Hm.
  - destruct s; [|cbn in Hn; lia]. destruct m; reflexivity.
  - destruct m as [|m].
    + destruct s; [reflexivity | cbn in Hm; lia].
    + cbn [frames_loop].
      destruct (parse_frame s) as [[[c d] rest]|] eqn:E; [|reflexivity].
      apply parse_frame_length in E.
      destruct (on_frame qp_decode config b c d); try reflexivity.
      apply IH; lia.
Qed.

(** A buffer of whole frames followed by bytes that are no frame: the loop
    handles the frames in order and leaves the rest buffered. *)
Lemma frames_loop_stream fs : forall n b rest,
  Forall readable fs ->
  parse_frame rest = None ->
  (String.length (stream fs ++ rest) <= n)%nat ->
  frames_loop qp_decode config n b (stream fs ++ rest)
  = match on_frames qp_decode config b fs with
    | Reading b' => Reading (with_buf b' rest)
    | o => o
    end.
Proof.
  induction fs as [|[c d] fs IH]; intros n b rest Hfs Hrest Hn.
  - cbn [stream append on_frames]. destruct n; cbn [frames_loop]; [reflexivity|].
    now rewrite Hrest.
  - inversion Hfs as [|? ? Hf Hfs']; subst.
    cbn [stream on_frames] in *. rewrite append_assoc in *.
    pose proof (parse_frame_frame_bytes c d (stream fs ++ rest) Hf) as Hp.
    pose proof (parse_frame_length _ _ _ _ Hp) as Hl.
    destruct n as [|n]; [lia|]. cbn [frames_loop]. rewrite Hp.
    destruct (on_frame qp_decode config b c d); try reflexivity.
    apply IH; [assumption | assumption | lia].
Qed.

(** One read that brings whole frames: the bridge does to them what
    [on_frames] says. *)
Lemma compiler_bridge_whole_frames fs :
  Forall readable fs ->
  compiler_bridge qp_decode config init [ReadBytes (stream fs)]
  = match on_frames qp_decode config init fs with
    | Reading b' => Reading (with_buf b' "")
    | o => o
    end.
Proof.
  intros Hfs. cbn [compiler_bridge on_read init buf append].
  pose proof (frames_loop_stream fs (String.length (stream fs)) init "" Hfs eq_refl) as H.
  rewrite append_nil_r in H. rewrite H by lia.
  destruct (on_frames qp_decode config init fs); reflexivity.
Qed.

End LoopFacts.


(* ===================================================================== *)
(** * OutputLimiter and the phases of ProgramRunner *)
(* ===================================================================== *)

Lemma limiter_add_current len l :
  (len <= Limiter.SIZE_MAX)%N ->
  Limiter.current (fst (Limiter.add len l))
  = N.min Limiter.SIZE_MAX (Limiter.current l + len).
Proof.
  intros Hlen. unfold Limiter.add. cbn [fst Limiter.current].
  destruct (N.ltb_spec (Limiter.SIZE_MAX - len) (Limiter.current l)); lia.
Qed.

Lemma limiter_add_signal len l :
  snd (Limiter.add len l)
  = match Limiter.proc l with
    | Some p =>
        let count := Limiter.current (fst (Limiter.add len l)) in
        if (Limiter.hard_limit l <? count)%N then Some (p, Posix.SIGKILL)
        else if (Limiter.soft_limit l <? count)%N then Some (p, Posix.SIGXFSZ)
        else None
    | None => None
    end.
Proof. reflexivity. Qed.

Section PhaseFacts.

Import Runner.

Lemma forwarded_bytes_app fs gs :
  forwarded_bytes (fs ++ gs) = (forwarded_bytes fs + forwarded_bytes gs)%N.
Proof.
  induction fs as [|f fs IH]; cbn [app forwarded_bytes fold_right]; [reflexivity|].
  fold (forwarded_bytes (fs ++ gs)). fold (forwarded_bytes fs). rewrite IH.
  destruct (is_output f); lia.
Qed.

Lemma sized_app fs gs : sized (fs ++ gs) = (sized fs && sized gs)%bool.
Proof. apply forallb_app. Qed.


Lemma counted_forwarder_kill finished k r : counted r -> counted (forwarder_kill finished k r).
Proof. unfold forwarder_kill. now destruct finished. Qed.

Lemma is_output_chunk_frame current from_stderr bytes :
  forwards_output current = true ->
  is_output (chunk_frame current from_stderr bytes) = true.
Proof.
  unfold forwards_output, is_output, chunk_frame. cbn [command].
  intros H. apply andb_prop in H. destruct H as [Ho He]. now destruct from_stderr.
Qed.

(** What forwarding one chunk does to the runner. *)
Lemma forward_chunk_spec current from_stderr bytes finished r :
  let r' := forward_chunk current from_stderr bytes finished r in
  frames r' = (frames r ++ [chunk_frame current from_stderr bytes])%list
  /\ laststatus r' = laststatus r
  /\ spawned r' = spawned r
  /\ limitter r' = fst (Limiter.add (Str.len bytes) (limitter r))
  /\ kills r'
     = (kills r ++ match snd (Limiter.add (Str.len bytes) (limitter r)) with
                   | Some k => if finished then [] else [k]
                   | None => []
                   end)%list.
Proof.
  cbn zeta. unfold forward_chunk. cbn [emit limitter].
  destruct (Limiter.add (Str.len bytes) (limitter r)) as [l [k|]]; cbn [fst snd].
  - destruct finished; cbn; rewrite ?app_nil_r; repeat split.
  - cbn. rewrite app_nil_r. repeat split.
Qed.

Lemma counted_forward_chunk current from_stderr bytes finished r :
  forwards_output current = true ->
  (Str.len bytes <= Limiter.SIZE_MAX)%N ->
  counted r -> counted (forward_chunk current from_stderr bytes finished r).
Proof.
  intros Hout Hlen Hc. unfold counted in *.
  destruct (forward_chunk_spec current from_stderr bytes finished r)
    as (Hf & _ & _ & Hl & _).
  rewrite Hf, Hl, limiter_add_current by exact Hlen.
  rewrite forwarded_bytes_app. cbn [forwarded_bytes fold_right].
  rewrite (is_output_chunk_frame _ _ _ Hout). cbn [payload chunk_frame]. rewrite Hc. lia.
Qed.

Lemma grows_refl current r : grows current r r.
Proof.
  split; [reflexivity|]. exists []. rewrite app_nil_r. repeat split; auto.
Qed.

Lemma grows_trans current a b c : grows current a b -> grows current b c -> grows current a c.
Proof.
  intros (Hl1 & o1 & Hf1 & Hn1 & Hc1) (Hl2 & o2 & Hf2 & Hn2 & Hc2).
  split; [congruence|]. exists (o1 ++ o2)%list. split; [|split].
  - now rewrite Hf2, Hf1, app_assoc.
  - apply Forall_app. now split.
  - intros Ho Hs Ha. rewrite sized_app in Hs. apply andb_prop in Hs. destruct Hs as [H1 H2].
    auto.
Qed.

Lemma chunk_frame_named current from_stderr bytes :
  is_named [stdout_command current; stderr_command current]
    (chunk_frame current from_stderr bytes) = true.
Proof.
  unfold is_named, chunk_frame. cbn [command existsb].
  destruct from_stderr; rewrite String.eqb_refl; cbn; now rewrite ?orb_true_r.
Qed.

Lemma grows_forward_chunk current from_stderr bytes finished r :
  grows current r (forward_chunk current from_stderr bytes finished r).
Proof.
  destruct (forward_chunk_spec current from_stderr bytes finished r)
    as (Hf & Hl & _).
  split; [exact Hl|]. exists [chunk_frame current from_stderr bytes].
  split; [exact Hf|]. split; [repeat constructor; apply chunk_frame_named|].
  intros Ho Hs Hc. cbn [sized forallb] in Hs. rewrite andb_true_r in Hs.
  apply N.leb_le in Hs. now apply counted_forward_chunk.
Qed.

Lemma grows_forwarder_kill current finished k r :
  grows current r (forwarder_kill finished k r).
Proof.
  unfold forwarder_kill. destruct finished; [apply grows_refl|].
  split; [reflexivity|]. exists []. cbn [frames]. rewrite app_nil_r. repeat split; auto.
Qed.

Lemma grows_on_event idx current r f e :
  grows current r (fst (fst (on_event idx current r f e))).
Proof.
  destruct e as [|from_stderr bytes|from_stderr|from_stderr|status|]; cbn [on_event].
  - destruct (stdin_closed f); apply grows_refl.
  - destruct (output_closed from_stderr f); [apply grows_refl | apply grows_forward_chunk].
  - destruct (output_closed from_stderr f); apply grows_refl.
  - destruct (output_posted from_stderr f); apply grows_refl.
  - destruct (reaped f); [apply grows_refl|]. destruct status; apply grows_refl.
  - destruct (timer f); cbn [fst]; try apply grows_forwarder_kill. apply grows_refl.
Qed.

Lemma grows_run_phase idx current events : forall r f,
  grows current r (phase_runner (run_phase idx current events r f)).
Proof.
  induction events as [|e events IH]; intros r f; cbn [run_phase].
  - apply grows_refl.
  - pose proof (grows_on_event idx current r f e) as Hg.
    destruct (on_event idx current r f e) as [[r' f'] at_join]. cbn [fst] in Hg.
    destruct (at_join && all_closed f')%bool.
    + destruct (reaped f'); exact Hg.
    + eapply grows_trans; [exact Hg | apply IH].
Qed.

Lemma grows_start_phase idx current received r :
  grows current r (start_phase idx current received r).
Proof.
  split; [reflexivity|]. exists []. cbn [frames start_phase]. rewrite app_nil_r.
  repeat split; auto.
Qed.

End PhaseFacts.


Section RunnerFacts.

Import Runner.

Variable strsignal : Z -> string.





Lemma terminate_extends r :
  exists tail, frames (final (terminate strsignal r)) = (frames r ++ tail)%list
               /\ forallb (fun f => negb (is_output f)) tail = true.
Proof.
  unfold terminate. destruct (WIFEXITED (laststatus r));
    cbn [emit laststatus]; destruct (WIFSIGNALED (laststatus r));
    cbn [emit frames final]; rewrite <- ?app_assoc; eexists; split; reflexivity.
Qed.




(** The two commands [build_commands] makes, whatever their argvs. *)
Lemma build_commands_shape catalogue jail target_compiler received commands :
  build_commands catalogue jail target_compiler received = Some commands ->
  exists ccargs progargs,
    commands =
      [ {| arguments := ccargs; stdin_command := "";
           stdout_command := "CompilerMessageS"; stderr_command := "CompilerMessageE";
           soft_kill_wait := Config.compile_time_limit jail |};
        {| arguments := progargs; stdin_command := "StdIn";
           stdout_command := "StdOut"; stderr_command := "StdErr";
           soft_kill_wait := Config.program_duration jail |} ].
Proof.
  unfold build_commands.
  destruct (switch_step catalogue target_compiler received) as [[cc prog]|]; [|discriminate].
  intros [= <-]. eexists. eexists. reflexivity.
Qed.





(** A phase, from the spawn to the join. *)
Lemma grows_phase idx current received events r :
  grows current r
    (phase_runner (run_phase idx current events (start_phase idx current received r) installed)).
Proof.
  eapply grows_trans; [apply grows_start_phase | apply grows_run_phase].
Qed.

(** The loop only ever adds frames. *)
Lemma run_commands_extends commands received : forall idx env r,
  exists tail, frames (final (run_commands strsignal idx commands received env r))
               = (frames r ++ tail)%list.
Proof.
  induction commands as [|current commands IH]; intros idx env r; cbn [run_commands].
  - destruct (terminate_extends r) as (tail & Hf & _). now exists tail.
  - destruct env as [|[|events] env]; [exists []; cbn; now rewrite app_nil_r ..|].
    destruct (grows_phase idx current received events r) as (_ & out & Hf & _).
    destruct (run_phase idx current events (start_phase idx current received r) installed)
      as [r' status [|]|r']; cbn [phase_runner] in Hf.
    + exists out. exact Hf.
    + destruct (negb (WIFEXITED status) || negb (WEXITSTATUS status =? 0))%bool.
      * destruct (terminate_extends (with_status status r')) as (tail & Ht & _).
        exists (out ++ tail)%list. rewrite Ht. cbn [with_status frames].
        now rewrite Hf, app_assoc.
      * destruct (IH (S idx) env (with_status status r')) as (tail & Ht).
        exists (out ++ tail)%list. rewrite Ht. cbn [with_status frames].
        now rewrite Hf, app_assoc.
    + exists out. exact Hf.
Qed.



(** A runner stopped by a spawn failure wrote nothing but what the compile
    phase forwarded. *)
Lemma run_commands_spawn_error c1 c2 received env r0 :
  let res := run_commands strsignal 0 [c1; c2] received env r0 in
  ended res = SpawnError ->
  exists out1,
    frames (final res) = (frames r0 ++ out1)%list
    /\ Forall (fun f => is_named [stdout_command c1; stderr_command c1] f = true) out1.
Proof.
  cbn zeta. cbn [run_commands].
  destruct env as [|[|e1] env]; try discriminate.
  { intros _. exists []. cbn. now rewrite app_nil_r. }
  destruct (grows_phase 0%nat c1 received e1 r0) as (_ & out1 & Hf1 & Hn1 & _).
  destruct (run_phase 0%nat c1 e1 (start_phase 0%nat c1 received r0) installed)
    as [r1 s1 [|]|r1]; try discriminate.
  cbn [phase_runner] in Hf1.
  destruct (negb (WIFEXITED s1) || negb (WEXITSTATUS s1 =? 0))%bool; [discriminate|].
  destruct env as [|[|e2] env]; try discriminate.
  { intros _. exists out1. cbn. now split. }
  destruct (run_phase 1%nat c2 e2 (start_phase 1%nat c2 received (with_status s1 r1)) installed)
    as [r2 s2 [|]|r2]; try discriminate.
  destruct (negb (WIFEXITED s2) || negb (WEXITSTATUS s2 =? 0))%bool; discriminate.
Qed.


Lemma program_runner_fold config target_compiler received env jail commands :
  Config.assoc (Config.jail_name target_compiler) (Config.jails config) = Some jail ->
  build_commands (Config.all_switches config) jail target_compiler received
  = Some commands ->
  program_runner strsignal config target_compiler received env
  = Some (run_commands strsignal 0 commands received env
            (emit {| command := "Control"; payload := "Start" |} (fresh jail))).
Proof. intros Hj Hb. unfold program_runner. now rewrite Hj, Hb. Qed.

End RunnerFacts.

Lemma session_ran {K : Type} (ops : Posix.kernel K) qp_decode config order strsignal
    workdir unique_name reads signals env (w w' : Posix.world K) r :
  Session.session ops qp_decode config order strsignal workdir unique_name
    reads signals env w = (Session.Ran r, w') ->
  exists received sources c,
    Bridge.compiler_bridge qp_decode config Bridge.init reads
    = Bridge.ToWriter received sources c
    /\ Runner.program_runner strsignal config c received env = Some r.
Proof.
  unfold Session.session.
  destruct (Bridge.compiler_bridge qp_decode config Bridge.init reads)
    as [b| |n|received sources c|]; try discriminate.
  destruct (Writer.program_writer _ _ _ _ _ _ _ _ _) as [[| |] w1]; try discriminate.
  destruct (Runner.program_runner strsignal config c received env) as [r'|] eqn:E;
    [|discriminate].
  intros [= <- <-]. now exists received, sources, c.
Qed.


(** A phase that is joined twice.  The child is reaped and its stdin is
    closed before the two output pipes reach their end; both ends are
    handled before either posted copy runs.  The copy posted by the stdout
    forwarder finds all four forwarders closed and goes on, and the copy
    posted by the stderr forwarder is still to run. *)
Lemma phase_joined_twice :
  let events :=
    [Runner.EvStdinWritten; Runner.EvSigchld (Some 0);
     Runner.EvEof false; Runner.EvEof true; Runner.EvPosted false] in
  option_map Runner.ended
    (Runner.program_runner Sample.strsignal Sample.config Sample.gcc []
       [Runner.Runs events])
  = Some Runner.Rejoined.
Proof. reflexivity. Qed.




(** C7 (as stated, refuted).  The first [piped_spawn] fails: the socket has
    seen [Control: Start] and sees nothing more, neither a [Signal] frame
    nor [Control: Finish]. *)
Lemma C7_spawn_failure_writes_no_marker :
  option_map (fun r => (Runner.frames (Runner.final r), Runner.ended r))
    (Runner.program_runner Sample.strsignal Sample.config Sample.gcc [] [Runner.SpawnFails])
  = Some ([{| Runner.command := "Control"; Runner.payload := "Start" |}], Runner.SpawnError).
Proof. reflexivity. Qed.

(** C7 (amended).  When the child of a phase cannot be started the failure
    leaves [program_runner::operator()] and the runner writes nothing more.
    If it is the compile phase, the only outbound frame is [Control: Start].
    Whichever phase it is, the frames of a runner stopped by a spawn failure
    are [Control: Start] followed by nothing but the compile phase's
    [CompilerMessageS] and [CompilerMessageE] frames: no [Signal] frame and
    no [Control: Finish] is written. *)
Theorem C7_spawn_failure :
  forall (strsignal : Z -> string) (config : Config.server_config)
         (target_compiler : Config.compiler_trait) (received : UMap.t)
         (jail : Config.jail_config) (commands : list Runner.command_type),
    Config.assoc (Config.jail_name target_compiler) (Config.jails config) = Some jail ->
    Runner.build_commands (Config.all_switches config) jail target_compiler received
    = Some commands ->
    (forall rest,
        exists r,
          Runner.program_runner strsignal config target_compiler received
            (Runner.SpawnFails :: rest) = Some r
          /\ Runner.ended r = Runner.SpawnError
          /\ Runner.frames (Runner.final r)
             = [{| Runner.command := "Control"; Runner.payload := "Start" |}])
    /\ (forall env r,
          Runner.program_runner strsignal config target_compiler received env = Some r ->
          Runner.ended r = Runner.SpawnError ->
          exists compile_out,
            Runner.frames (Runner.final r)
            = {| Runner.command := "Control"; Runner.payload := "Start" |} :: compile_out
            /\ Forall (fun f =>
                         Runner.is_named ["CompilerMessageS"; "CompilerMessageE"] f = true)
                 compile_out).
Proof.
  intros strsignal config target_compiler received jail commands Hj Hb.
  destruct (build_commands_shape _ _ _ _ _ Hb) as (a1 & a2 & ->).
  split.
  - intros rest. eexists.
    split; [apply (program_runner_fold _ _ _ _ _ _ _ Hj Hb)|]. split; reflexivity.
  - intros env r Hr He.
    rewrite (program_runner_fold _ _ _ _ env _ _ Hj Hb) in Hr. injection Hr as <-.
    destruct (run_commands_spawn_error strsignal _ _ received env _ He) as (out1 & Hf & Hn).
    exists out1. split; [exact Hf | exact Hn].
Qed.

Lemma C7_spawn_failure_witness :
  exists compile_out,
    [{| Runner.command := "Control"; Runner.payload := "Start" |};
     {| Runner.command := "CompilerMessageE"; Runner.payload := "note" |}]
    = {| Runner.command := "Control"; Runner.payload := "Start" |} :: compile_out
    /\ Forall (fun f => Runner.is_named ["CompilerMessageS"; "CompilerMessageE"] f = true)
         compile_out.
Proof.
  exact (proj2 (C7_spawn_failure Sample.strsignal Sample.config Sample.gcc [] Sample.jail
                  _ eq_refl eq_refl)
           [Runner.Runs [Runner.EvStdinWritten; Runner.EvChunk true "note";
                         Runner.EvEof false; Runner.EvPosted false;
                         Runner.EvEof true; Runner.EvPosted true;
                         Runner.EvSigchld (Some 0)];
            Runner.SpawnFails]
           _ eq_refl eq_refl).
Defined.





(* ===================================================================== *)
(** * ProgramWriter *)
(* ===================================================================== *)

Section WriterFacts.

Import Posix.

Context {K : Type} (ops : kernel K).















Variable order : UMap.t -> UMap.t.
Variables (workdir : Z) (unique_name storedir : string).



End WriterFacts.


Section StageFacts.

Import Posix.

Context {K : Type} (ops : kernel K).
Variables (workdir : Z) (unique_name storedir output_file : string).


End StageFacts.

Section SourcesFacts.

Import Bridge.

Variable qp_decode : string -> string.
Variable config : Config.server_config.


End SourcesFacts.

Lemma front_linked_order_iteration : UMap.iteration UMap.front_linked_order.
Proof. intros m. apply Permutation_sym, Permutation_rev. Qed.






(* ===================================================================== *)
(** * AdmissionSem *)
(* ===================================================================== *)

Section AdmissionFacts.

Import Admission.

Lemma balanced_init max_connections :
  1 <= max_connections <= 4294967296 ->
  balanced max_connections (listener_init max_connections).
Proof.
  intros H. unfold balanced, listener_init, to_unsigned, listener_units.
  cbn [active counter listener]. rewrite Z.mod_small by lia. lia.
Qed.

Lemma balanced_step total s e s' :
  balanced total s -> step s e = Some s' -> balanced total s'.
Proof.
  unfold balanced, listener_units. intros [Hb Hc] Hs.
  destruct e; cbn [step] in Hs.
  - destruct (listener s) eqn:El; [|discriminate]. injection Hs as <-.
    cbn [active counter listener]. lia.
  - destruct (listener s) eqn:El; [discriminate|].
    destruct (Z.ltb_spec 0 (counter s)); [|discriminate]. injection Hs as <-.
    cbn [active counter listener]. lia.
  - destruct (active s) eqn:Ea; [discriminate|]. injection Hs as <-.
    cbn [active counter listener]. rewrite <- Hb. destruct (listener s); lia.
Qed.

Lemma balanced_run total es : forall s s',
  balanced total s -> run s es = Some s' -> balanced total s'.
Proof.
  induction es as [|e es IH]; intros s s' Hb Hr; cbn [run] in Hr.
  - now injection Hr as <-.
  - destruct (step s e) as [s1|] eqn:Es; [|discriminate].
    eapply IH; [eapply balanced_step; eassumption | exact Hr].
Qed.

End AdmissionFacts.

(** C4 (as stated, refuted).  With [max_connections = 3] the semaphore is
    created with 2 units, not 3.  With [max_connections = 1] the first
    session is at work while the read that would take its unit is still
    pending on an empty counter.  With [max_connections = 0] the count
    passed to the constructor wraps to [UINT_MAX] and one session is
    active, which is more than [max_connections]. *)
Lemma C4_semaphore_starts_one_short :
  Admission.counter (Admission.listener_init 3) = 2
  /\ Admission.run (Admission.listener_init 1) [Admission.Accept]
     = Some {| Admission.counter := 0; Admission.listener := Admission.AwaitingPermit;
               Admission.active := 1 |}
  /\ Admission.run (Admission.listener_init 0) [Admission.Accept]
     = Some {| Admission.counter := 4294967295;
               Admission.listener := Admission.AwaitingPermit;
               Admission.active := 1 |}.
Proof. repeat split. Qed.

(** C4 (amended).  For [max_connections] between 1 and [2^32]: the
    semaphore's counter starts at [max_connections - 1]; every accepted
    session starts at once, holding a permit object, and it is the
    listener's next accept that waits until a unit has been read from the
    counter; the end of a session returns exactly one unit.  At every
    reachable state the active sessions, the units in the counter and the
    listener's own unit add up to [max_connections], so the number of
    concurrently active sessions never exceeds [max_connections]. *)
Theorem C4_admission_bound :
  forall (max_connections : Z) (events : list Admission.event) (s : Admission.state),
    1 <= max_connections <= 4294967296 ->
    Admission.run (Admission.listener_init max_connections) events = Some s ->
    Admission.counter (Admission.listener_init max_connections) = max_connections - 1
    /\ Z.of_nat (Admission.active s) <= max_connections
    /\ Z.of_nat (Admission.active s) + Admission.counter s + Admission.listener_units s
       = max_connections
    /\ (forall s', Admission.step s Admission.Release = Some s' ->
                   Admission.counter s' = Admission.counter s + 1
                   /\ Admission.active s = S (Admission.active s'))
    /\ (forall s', Admission.step s Admission.Accept = Some s' ->
                   Admission.active s' = S (Admission.active s)
                   /\ Z.of_nat (Admission.active s') <= max_connections).
Proof.
  intros max_connections events s Hmax Hrun.
  pose proof (balanced_run max_connections events _ _ (balanced_init _ Hmax) Hrun) as Hb.
  destruct Hb as [Hsum Hc].
  split; [unfold Admission.listener_init, Admission.to_unsigned; cbn;
          rewrite Z.mod_small by lia; reflexivity|].
  split; [unfold Admission.listener_units in Hsum; destruct (Admission.listener s); lia|].
  split; [exact Hsum|].
  split.
  - intros s' Hs. cbn in Hs. destruct (Admission.active s) eqn:Ea; [discriminate|].
    injection Hs as <-. cbn. split; reflexivity.
  - intros s' Hs. cbn in Hs. unfold Admission.listener_units in Hsum.
    destruct (Admission.listener s); [|discriminate]. injection Hs as <-. cbn [Admission.active].
    split; [reflexivity | lia].
Qed.

Lemma C4_admission_bound_witness :
  Z.of_nat (Admission.active
              {| Admission.counter := 0; Admission.listener := Admission.AwaitingPermit;
                 Admission.active := 2 |}) <= 2.
Proof.
  refine (proj1 (proj2
    (C4_admission_bound 2
       [Admission.Accept; Admission.Acquire; Admission.Accept; Admission.Release;
        Admission.Acquire; Admission.Accept]
       _ _ eq_refl))).
  lia.
Defined.


(* ===================================================================== *)
(** * The receive buffer: frames that arrive in pieces *)
(* ===================================================================== *)

Lemma append_split (q : string) : forall x a b,
  q ++ x = a ++ b ->
  (exists m, q = a ++ m /\ b = m ++ x)
  \/ (exists m, m <> "" /\ a = q ++ m /\ x = m ++ b).
Proof.
  induction q as [|c q IH]; intros x a b H; cbn [append] in H.
  - destruct a as [|d a].
    + left. exists "". now split.
    + right. exists (String d a). repeat split; [discriminate | exact H].
  - destruct a as [|d a]; cbn [append] in H.
    + left. exists (String c q). now split.
    + injection H as -> H. destruct (IH _ _ _ H) as [(m & -> & ->)|(m & Hm & -> & ->)].
      * left. exists m. now split.
      * right. exists m. now repeat split.
Qed.

Lemma forallb_append p (a b : string) :
  Str.forallb p (a ++ b) = (Str.forallb p a && Str.forallb p b)%bool.
Proof.
  induction a as [|c a IH]; cbn [append Str.forallb]; [reflexivity|].
  now rewrite IH, andb_assoc.
Qed.

Lemma take_while_all p a : Str.forallb p a = true -> take_while p a = (a, "").
Proof.
  induction a as [|c a IH]; cbn [Str.forallb take_while]; [reflexivity|].
  intros H. apply andb_prop in H. destruct H as [Hc Ha]. now rewrite Hc, (IH Ha).
Qed.

Lemma qi_int_nil : qi_int "" = None.
Proof. reflexivity. Qed.

(** Bytes with no white space in them are a command still being received. *)
Lemma parse_frame_nonspace q :
  Str.forallb (fun c => negb (Str.is_space c)) q = true -> parse_frame q = None.
Proof.
  intros H. unfold parse_frame, qi_plus_nonspace. rewrite (take_while_all _ _ H).
  destruct (Str.empty q); reflexivity.
Qed.

(** After the command and one space, the grammar goes on with the length. *)
Lemma parse_frame_head cmd u :
  well_formed_command cmd ->
  parse_frame (cmd ++ String " " u)
  = match qi_int (qi_star_space u) with
    | Some (len, String c s4) =>
        if Ascii.eqb c ":" then
          match qi_repeat_char (Z.to_nat len) s4 with
          | Some (data, s5) =>
              match qi_eol s5 with
              | Some rest => Some (cmd, data, rest)
              | None => None
              end
          | None => None
          end
        else None
    | _ => None
    end.
Proof.
  intros [Hne Hns]. unfold parse_frame, qi_plus_nonspace.
  rewrite take_while_stop by (exact Hns || reflexivity).
  destruct cmd as [|c0 cmd]; [congruence|]. cbn [Str.empty].
  unfold qi_star_space. cbn [take_while]. change (Str.is_space " ") with true. cbv iota.
  destruct (take_while Str.is_space u) as [a r]. cbn [snd].
  destruct (qi_int r) as [[len [|c s4]]|]; reflexivity.
Qed.

Lemma string_of_uint_digits d :
  Str.forallb Str.is_digit (DecimalString.NilEmpty.string_of_uint d) = true.
Proof. induction d; cbn [DecimalString.NilEmpty.string_of_uint Str.forallb]; auto. Qed.

Lemma to_string_digits n : Str.forallb Str.is_digit (Str.to_string n) = true.
Proof. apply string_of_uint_digits. Qed.

Lemma digits_all s : forall acc,
  Str.forallb Str.is_digit s = true -> snd (digits s acc) = "".
Proof.
  induction s as [|c s IH]; intros acc H; cbn [digits Str.forallb] in *; [reflexivity|].
  apply andb_prop in H. destruct H as [Hc Hs]. rewrite Hc. now apply IH.
Qed.

Lemma star_space_digits s :
  Str.forallb Str.is_digit s = true -> qi_star_space s = s.
Proof.
  destruct s as [|c s]; [reflexivity|]. cbn [Str.forallb]. intros H.
  apply andb_prop in H. destruct H as [Hc _].
  unfold qi_star_space. cbn [take_while]. now rewrite (is_digit_not_space _ Hc).
Qed.

(** A run of digits with nothing after it is a length still being
    received: the colon is missing. *)
Lemma qi_int_digits_only s v r :
  Str.forallb Str.is_digit s = true -> qi_int s = Some (v, r) -> r = "".
Proof.
  intros Hs. destruct s as [|c s]; [discriminate|].
  pose proof Hs as Hs'. cbn [Str.forallb] in Hs'. apply andb_prop in Hs'. destruct Hs' as [Hc _].
  rewrite qi_int_unsigned by (eexists; eexists; split; [reflexivity | exact Hc]).
  pose proof (digits_all (String c s) 0 Hs) as Hd.
  destruct (digits (String c s) 0) as [n rest]. cbn [snd] in Hd. subst rest.
  destruct (_ && _)%bool; [|discriminate]. now intros [= _ <-].
Qed.

Lemma qi_repeat_char_short n : forall s,
  (String.length s < n)%nat -> qi_repeat_char n s = None.
Proof.
  induction n as [|n IH]; intros s H; [lia|]. cbn [qi_repeat_char].
  destruct s as [|c s]; [reflexivity|]. cbn [String.length] in H.
  rewrite IH by lia. reflexivity.
Qed.

(** No proper prefix of a frame is taken for a frame. *)
Lemma frame_prefix_unparsed cmd data q x :
  readable (cmd, data) ->
  q ++ x = frame_bytes cmd data -> x <> "" ->
  parse_frame q = None.
Proof.
  intros [Hc Hn] E Hx. cbn [fst snd] in *. pose proof Hc as [_ Hns].
  unfold frame_bytes in E.
  destruct (append_split _ _ _ _ E) as [(m & -> & E1)|(m & _ & Ecmd & _)].
  2:{ apply parse_frame_nonspace. rewrite Ecmd, forallb_append in Hns.
      apply andb_prop in Hns. tauto. }
  destruct m as [|sp m]; cbn [append] in E1.
  { rewrite append_nil_r. now apply parse_frame_nonspace. }
  injection E1 as <- E1. rewrite (parse_frame_head _ _ Hc).
  destruct (append_split _ _ _ _ (eq_sym E1)) as [(m2 & -> & E2)|(m2 & _ & Eds & _)].
  2:{ assert (Hm : Str.forallb Str.is_digit m = true).
      { pose proof (to_string_digits (Str.len data)) as Hd.
        rewrite Eds, forallb_append in Hd. apply andb_prop in Hd. tauto. }
      rewrite (star_space_digits _ Hm).
      destruct (qi_int m) as [[v r]|] eqn:Ei; [|reflexivity].
      now rewrite (qi_int_digits_only _ _ _ Hm Ei). }
  destruct m2 as [|colon m3]; cbn [append] in E2.
  { rewrite append_nil_r. rewrite (star_space_digits _ (to_string_digits _)).
    destruct (qi_int (Str.to_string (Str.len data))) as [[v r]|] eqn:Ei; [|reflexivity].
    now rewrite (qi_int_digits_only _ _ _ (to_string_digits _) Ei). }
  injection E2 as <- E2.
  assert (Hss : qi_star_space (Str.to_string (Str.len data) ++ String ":" m3)
                = Str.to_string (Str.len data) ++ String ":" m3).
  { destruct (to_string_append_head (Str.len data) (String ":" m3)) as (d & t & -> & Hd).
    unfold qi_star_space. cbn [take_while]. now rewrite (is_digit_not_space _ Hd). }
  rewrite Hss, qi_int_to_string by (reflexivity || exact Hn).
  change (Ascii.eqb ":" ":") with true. cbv iota.
  replace (Z.to_nat (Z.of_N (Str.len data))) with (String.length data)
    by (unfold Str.len; lia).
  destruct (append_split _ _ _ _ (eq_sym E2)) as [(m4 & -> & E3)|(m4 & Hm4 & Ed & _)].
  - assert (m4 = "").
    { apply (f_equal String.length) in E3. rewrite length_append in E3. cbn in E3.
      destruct m4; [reflexivity|]. destruct x; [congruence|]. cbn in E3. lia. }
    subst m4. rewrite append_nil_r.
    pose proof (qi_repeat_char_exact data "") as Hr. rewrite append_nil_r in Hr.
    now rewrite Hr.
  - rewrite qi_repeat_char_short; [reflexivity|].
    rewrite Ed, length_append. destruct m4; [congruence|]. cbn. lia.
Qed.

Lemma stream_app fs gs : stream (fs ++ gs) = stream fs ++ stream gs.
Proof.
  induction fs as [|[c d] fs IH]; cbn [stream app append]; [reflexivity|].
  now rewrite IH, append_assoc.
Qed.

(** Bytes cut off a stream of frames at any point are some whole frames
    followed by a piece the grammar does not take for a frame. *)
Lemma stream_prefix fs : forall all rest,
  Forall readable fs ->
  all ++ rest = stream fs ->
  exists fs1 fs2 q,
    fs = (fs1 ++ fs2)%list /\ all = stream fs1 ++ q /\ q ++ rest = stream fs2
    /\ parse_frame q = None.
Proof.
  induction fs as [|[c d] fs IH]; intros all rest Hfs E.
  - exists [], [], "". destruct all; [|discriminate E]. now repeat split.
  - inversion Hfs as [|? ? Hf Hfs']; subst. cbn [stream] in E.
    destruct (append_split _ _ _ _ E) as [(m & -> & E1)|(m & Hm & E1 & ->)].
    + destruct (IH m rest Hfs' (eq_sym E1)) as (fs1 & fs2 & q & -> & -> & Hq & Hp).
      exists ((c, d) :: fs1), fs2, q. cbn [stream app]. rewrite append_assoc.
      now repeat split.
    + exists [], ((c, d) :: fs), all. cbn [stream app append].
      repeat split.
      * now rewrite E1, append_assoc.
      * exact (frame_prefix_unparsed c d all m Hf (eq_sym E1) Hm).
Qed.

Section ReassemblyFacts.

Import Bridge.

Variable qp_decode : string -> string.
Variable config : Config.server_config.

Lemma with_buf_with_buf b p q : with_buf (with_buf b p) q = with_buf b q.
Proof. reflexivity. Qed.

(** The buffered bytes play no part in what a frame does. *)
Lemma on_frame_with_buf b p c d :
  on_frame qp_decode config (with_buf b p) c d
  = match on_frame qp_decode config b c d with
    | Reading b' => Reading (with_buf b' p)
    | o => o
    end.
Proof.
  unfold on_frame. cbn [received sources current_filename buf with_buf].
  destruct (String.eqb c "Control" && String.eqb d "run")%bool.
  - destruct (Config.find_compiler _ _); reflexivity.
  - destruct (String.eqb c "Version"); [reflexivity|].
    destruct (String.eqb c "SourceFileName"); [reflexivity|].
    destruct (String.eqb c "Source"); reflexivity.
Qed.

Lemma frames_loop_with_buf n : forall b p s,
  frames_loop qp_decode config n (with_buf b p) s = frames_loop qp_decode config n b s.
Proof.
  induction n as [|n IH]; intros b p s; cbn [frames_loop]; [reflexivity|].
  destruct (parse_frame s) as [[[c d] rest]|]; [|reflexivity].
  rewrite on_frame_with_buf.
  destruct (on_frame qp_decode config b c d); try reflexivity. apply IH.
Qed.

Lemma stream_unparsed fs :
  Forall readable fs -> parse_frame (stream fs) = None -> fs = [].
Proof.
  destruct fs as [|[c d] fs]; [reflexivity|]. intros Hfs H.
  inversion Hfs as [|? ? Hf _]; subst. cbn [stream] in H.
  now rewrite (parse_frame_frame_bytes c d _ Hf) in H.
Qed.

(** The bridge over a stream of frames that arrives in pieces: [p] is
    what the buffer holds of a frame not yet complete. *)
Lemma compiler_bridge_chunks chunks : forall b p fs,
  Forall readable fs ->
  p ++ Reads.bytes chunks = stream fs ->
  parse_frame p = None ->
  compiler_bridge qp_decode config (with_buf b p) (Reads.arrive chunks)
  = match on_frames qp_decode config b fs with
    | Reading b' => Reading (with_buf b' "")
    | o => o
    end.
Proof.
  induction chunks as [|c chunks IH]; intros b p fs Hfs E Hp.
  - cbn [Reads.bytes] in E. rewrite append_nil_r in E. subst p.
    rewrite (stream_unparsed fs Hfs Hp). reflexivity.
  - cbn [Reads.bytes] in E. rewrite <- append_assoc in E.
    destruct (stream_prefix fs _ _ Hfs E) as (fs1 & fs2 & q & -> & Eall & Eq & Hq).
    apply Forall_app in Hfs. destruct Hfs as [Hfs1 Hfs2].
    cbn [Reads.arrive map compiler_bridge on_read buf with_buf].
    rewrite frames_loop_with_buf, Eall.
    rewrite (frames_loop_stream qp_decode config fs1 _ b q Hfs1 Hq) by lia.
    rewrite on_frames_app.
    destruct (on_frames qp_decode config b fs1) as [b1| | | |]; try reflexivity.
    exact (IH b1 q fs2 Hfs2 Eq Hq).
Qed.

End ReassemblyFacts.

(** X1.  However the bytes of a stream of frames are cut into reads, the
    bridge does what it does when the frames arrive whole, one after the
    other: a frame split between reads is kept in the buffer until its
    last byte is there.  This is for frames as [async_write_command] lays
    them out (one space, the length, a colon, the payload, a line feed),
    with a command free of white space and a length that fits an [int]. *)
Theorem bridge_reassembles_frames :
  forall (qp_decode : string -> string) (config : Config.server_config)
         (fs : list (string * string)) (chunks : list string),
    Forall readable fs ->
    Reads.bytes chunks = stream fs ->
    Bridge.compiler_bridge qp_decode config Bridge.init (Reads.arrive chunks)
    = match Bridge.on_frames qp_decode config Bridge.init fs with
      | Bridge.Reading b => Bridge.Reading (Bridge.with_buf b "")
      | o => o
      end.
Proof.
  intros qp_decode config fs chunks Hfs E.
  exact (compiler_bridge_chunks qp_decode config chunks Bridge.init "" fs Hfs E eq_refl).
Qed.

Lemma bridge_reassembles_frames_witness :
  Bridge.compiler_bridge QuotedPrintable.decode Sample.config Bridge.init
    (Reads.arrive ["StdI"; "n 5:he"; "llo"; String Str.LF "Control 12:compi";
                   "ler=gcc" ++ String Str.LF "Control 3:run" ++ String Str.LF ""])
  = Bridge.ToWriter [("StdIn", "hello"); ("Control", "compiler=gcc")] [] Sample.gcc.
Proof.
  apply (bridge_reassembles_frames QuotedPrintable.decode Sample.config
           [("StdIn", "hello"); ("Control", "compiler=gcc"); ("Control", "run")]
           ["StdI"; "n 5:he"; "llo"; String Str.LF "Control 12:compi";
            "ler=gcc" ++ String Str.LF "Control 3:run" ++ String Str.LF ""]).
  - repeat constructor; try discriminate; vm_compute; discriminate.
  - reflexivity.
Defined.

(** X2.  The grammar does not skip white space in front of a command: a
    receive buffer that begins with a white-space character (the line feed
    of a CR LF whose CR ended the previous read, a blank line) is never
    consumed.  Whatever arrives later is only appended to it, no frame is
    handled any more, and the bridge stays in its read loop. *)
Theorem bridge_never_skips_white_space :
  forall (qp_decode : string -> string) (config : Config.server_config)
         (b : Bridge.bridge) (c : ascii) (s : string) (chunks : list string),
    Str.is_space c = true ->
    Bridge.compiler_bridge qp_decode config (Bridge.with_buf b (String c s))
      (Reads.arrive chunks)
    = Bridge.Reading (Bridge.with_buf b (String c s ++ Reads.bytes chunks)).
Proof.
  intros qp_decode config b c s chunks Hc. revert s.
  induction chunks as [|ch chunks IH]; intros s.
  - cbn [Reads.arrive map Bridge.compiler_bridge Reads.bytes]. now rewrite append_nil_r.
  - cbn [Reads.arrive map Bridge.compiler_bridge Bridge.on_read Bridge.buf Bridge.with_buf
         Reads.bytes append String.length Bridge.frames_loop].
    assert (Hp : parse_frame (String c (s ++ ch)) = None).
    { unfold parse_frame, qi_plus_nonspace. cbn [take_while]. now rewrite Hc. }
    rewrite Hp. fold (Reads.arrive chunks).
    change (Bridge.with_buf (Bridge.with_buf b (String c s)) (String c (s ++ ch)))
      with (Bridge.with_buf b (String c (s ++ ch))).
    rewrite (IH (s ++ ch)). cbn [append]. now rewrite append_assoc.
Qed.

Lemma bridge_never_skips_white_space_witness :
  Bridge.compiler_bridge QuotedPrintable.decode Sample.config
    (Bridge.with_buf Bridge.init (String Str.LF "Control 12:compiler=gcc"))
    (Reads.arrive [String Str.LF "Control 3:run"; String Str.LF ""])
  = Bridge.Reading
      (Bridge.with_buf Bridge.init
         (String Str.LF "Control 12:compiler=gcc"
          ++ Reads.bytes [String Str.LF "Control 3:run"; String Str.LF ""])).
Proof.
  apply (bridge_never_skips_white_space QuotedPrintable.decode Sample.config Bridge.init
           Str.LF "Control 12:compiler=gcc"
           [String Str.LF "Control 3:run"; String Str.LF ""]).
  reflexivity.
Defined.

(** X3.  The grammar reads more than the encoder writes: between the
    command and the length any non-empty run of white space will do, and
    the frame may end in CR LF as well as in LF.  Both bytes of the CR LF
    are consumed when both are in the buffer. *)
Theorem decoder_accepts_padding_and_crlf :
  forall (cmd ws data rest : string),
    well_formed_command cmd ->
    Z.of_N (Str.len data) <= INT_MAX ->
    ws <> "" -> Str.forallb Str.is_space ws = true ->
    parse_frame (cmd ++ ws ++ Str.to_string (Str.len data) ++ ":" ++ data
                 ++ String Str.CR (String Str.LF rest))
    = Some (cmd, data, rest)
    /\ parse_frame (cmd ++ ws ++ Str.to_string (Str.len data) ++ ":" ++ data
                    ++ String Str.LF rest)
       = Some (cmd, data, rest).
Proof.
  intros cmd ws data rest [Hne Hns] Hn Hws Hsp.
  assert (H : forall tail,
             parse_frame (cmd ++ ws ++ Str.to_string (Str.len data) ++ ":" ++ data ++ tail)
             = match qi_eol tail with Some r => Some (cmd, data, r) | None => None end).
  { intros tail. destruct ws as [|w ws]; [congruence|].
    cbn [Str.forallb] in Hsp. apply andb_prop in Hsp. destruct Hsp as [Hw Hsp].
    unfold parse_frame, qi_plus_nonspace. cbn [append].
    rewrite take_while_stop by (exact Hns || now rewrite Hw).
    destruct cmd as [|c0 cmd]; [congruence|]. cbn [Str.empty].
    unfold qi_star_space. cbn [take_while]. rewrite Hw.
    destruct (to_string_append_head (Str.len data) (String ":" (data ++ tail)))
      as (d & t & E & Hd).
    rewrite E, take_while_stop by (exact Hsp || exact (is_digit_not_space _ Hd)).
    cbn [snd]. rewrite <- E. cbn [append].
    rewrite qi_int_to_string by (reflexivity || exact Hn).
    change (Ascii.eqb ":" ":") with true. cbv iota.
    replace (Z.to_nat (Z.of_N (Str.len data))) with (String.length data)
      by (unfold Str.len; lia).
    now rewrite qi_repeat_char_exact. }
  split; rewrite H; reflexivity.
Qed.

Lemma decoder_accepts_padding_and_crlf_witness :
  parse_frame ("StdIn" ++ String (Ascii.ascii_of_nat 9) " "
               ++ Str.to_string (Str.len "hello") ++ ":" ++ "hello"
               ++ String Str.CR (String Str.LF "Control 3:run"))
  = Some ("StdIn", "hello", "Control 3:run").
Proof.
  apply (decoder_accepts_padding_and_crlf "StdIn" (String (Ascii.ascii_of_nat 9) " ")
           "hello" "Control 3:run").
  - split; [discriminate | reflexivity].
  - vm_compute. discriminate.
  - discriminate.
  - reflexivity.
Defined.

(* ===================================================================== *)
(** * What the bridge has gathered when it hands the connection over *)
(* ===================================================================== *)

Lemma umap_keys_set_nodup k v m :
  NoDup (UMap.keys m) -> NoDup (UMap.keys (UMap.set k v m)).
Proof.
  intros H. rewrite umap_keys_set.
  destruct (existsb (String.eqb k) (UMap.keys m)) eqn:E; [exact H|].
  assert (Hk : ~ In k (UMap.keys m)).
  { intros Hx.
    assert (existsb (String.eqb k) (UMap.keys m) = true); [|congruence].
    apply existsb_exists. exists k. split; [exact Hx | apply String.eqb_refl]. }
  apply NoDup_app.
  - exact H.
  - constructor; [intros [] | constructor].
  - intros x Hx [<-|[]]. exact (Hk Hx).
Qed.

Lemma umap_find_in k v m :
  NoDup (UMap.keys m) -> In (k, v) m -> UMap.find k m = Some v.
Proof.
  induction m as [|[k' v'] m IH]; intros Hn Hi; [destruct Hi|].
  cbn [UMap.keys map fst] in Hn. inversion Hn as [|? ? Hk Hn']; subst.
  cbn [UMap.find]. destruct Hi as [[= -> ->]|Hi].
  - now rewrite String.eqb_refl.
  - destruct (String.eqb_spec k k') as [->|_]; [|exact (IH Hn' Hi)].
    exfalso. apply Hk. change k' with (fst (k', v)). now apply in_map.
Qed.

Section GatheredFacts.

Import Bridge.

Variable qp_decode : string -> string.
Variable config : Config.server_config.

(** Under every command name but the two that carry files, [received]
    holds what the frames of that name carried, joined. *)
Lemma received_accumulates k fs : forall b b',
  k <> "SourceFileName" -> k <> "Source" ->
  on_frames qp_decode config b fs = Reading b' ->
  UMap.at_ k (received b') = UMap.at_ k (received b) ++ accumulated qp_decode k fs.
Proof.
  intros b b' Hk1 Hk2. revert b b'.
  induction fs as [|[c d] fs IH]; intros b b' H; cbn in H.
  - injection H as <-. cbn. now rewrite append_nil_r.
  - cbn [accumulated]. unfold on_frame in H.
    destruct (String.eqb c "Control" && String.eqb d "run")%bool.
    { destruct (Config.find_compiler _ _); discriminate H. }
    destruct (String.eqb_spec c "Version") as [->|Hv]; [discriminate H|].
    destruct (String.eqb_spec c "SourceFileName") as [->|Hn].
    { apply IH in H. cbn [received] in H.
      destruct (String.eqb_spec "SourceFileName" k); [congruence | exact H]. }
    destruct (String.eqb_spec c "Source") as [->|Hs].
    { apply IH in H. cbn [received] in H.
      destruct (String.eqb_spec "Source" k); [congruence | exact H]. }
    apply IH in H. cbn [received] in H. rewrite H.
    destruct (String.eqb_spec c k) as [->|Hne].
    + now rewrite umap_at_append_eq, append_assoc.
    + now rewrite umap_at_append_ne.
Qed.

(** The two file commands never reach [received]. *)
Lemma received_has_no_file_key k fs : forall b b',
  k = "SourceFileName" \/ k = "Source" ->
  on_frames qp_decode config b fs = Reading b' ->
  UMap.find k (received b') = UMap.find k (received b).
Proof.
  intros b b' Hk. revert b b'.
  induction fs as [|[c d] fs IH]; intros b b' H; cbn in H.
  - now injection H as <-.
  - unfold on_frame in H.
    destruct (String.eqb c "Control" && String.eqb d "run")%bool.
    { destruct (Config.find_compiler _ _); discriminate H. }
    destruct (String.eqb_spec c "Version") as [->|Hv]; [discriminate H|].
    destruct (String.eqb_spec c "SourceFileName") as [->|Hn]; [exact (IH _ _ H)|].
    destruct (String.eqb_spec c "Source") as [->|Hs]; [exact (IH _ _ H)|].
    apply IH in H. cbn [received] in H. rewrite H.
    unfold UMap.append_at. apply umap_find_set_ne. destruct Hk; congruence.
Qed.

Lemma sources_text name fs : forall b b',
  on_frames qp_decode config b fs = Reading b' ->
  UMap.at_ name (sources b')
  = UMap.at_ name (sources b) ++ Reads.source_text qp_decode name (current_filename b) fs.
Proof.
  induction fs as [|[c d] fs IH]; intros b b' H; cbn in H.
  - injection H as <-. cbn. now rewrite append_nil_r.
  - cbn [Reads.source_text]. unfold on_frame in H.
    destruct (String.eqb c "Control" && String.eqb d "run")%bool eqn:Erun.
    { destruct (Config.find_compiler _ _); discriminate H. }
    destruct (String.eqb_spec c "Version") as [->|Hv]; [discriminate H|].
    destruct (String.eqb_spec c "SourceFileName") as [->|Hn]; [exact (IH _ _ H)|].
    destruct (String.eqb_spec c "Source") as [->|Hs]; [|exact (IH _ _ H)].
    apply IH in H. cbn [sources current_filename] in H. rewrite H.
    destruct (String.eqb_spec (current_filename b) name) as [<-|Hne].
    + now rewrite umap_at_append_eq, append_assoc.
    + now rewrite umap_at_append_ne.
Qed.

Lemma sources_keys_nodup fs : forall b b',
  on_frames qp_decode config b fs = Reading b' ->
  NoDup (UMap.keys (sources b)) -> NoDup (UMap.keys (sources b')).
Proof.
  induction fs as [|[c d] fs IH]; intros b b' H Hn; cbn in H.
  - now injection H as <-.
  - unfold on_frame in H.
    destruct (String.eqb c "Control" && String.eqb d "run")%bool.
    { destruct (Config.find_compiler _ _); discriminate H. }
    destruct (String.eqb c "Version"); [discriminate H|].
    destruct (String.eqb c "SourceFileName"); [exact (IH _ _ H Hn)|].
    destruct (String.eqb c "Source"); [|exact (IH _ _ H Hn)].
    apply (IH _ _ H). cbn [sources]. now apply umap_keys_set_nodup.
Qed.

End GatheredFacts.

(** X4.  While the bridge keeps reading, [received] holds, under every
    command name other than [SourceFileName] and [Source], the decoded
    payloads of all frames of that name joined in the order of arrival
    (the empty string for a name never seen), and nothing under those two
    names. *)
Theorem received_is_concatenation_per_command :
  forall (qp_decode : string -> string) (config : Config.server_config)
         (fs : list (string * string)) (b : Bridge.bridge) (k : string),
    Bridge.on_frames qp_decode config Bridge.init fs = Bridge.Reading b ->
    (k <> "SourceFileName" -> k <> "Source" ->
     UMap.at_ k (Bridge.received b) = Bridge.accumulated qp_decode k fs)
    /\ UMap.find "SourceFileName" (Bridge.received b) = None
    /\ UMap.find "Source" (Bridge.received b) = None.
Proof.
  intros qp_decode config fs b k H. repeat split.
  - intros H1 H2. now rewrite (received_accumulates qp_decode config k fs _ _ H1 H2 H).
  - now rewrite (received_has_no_file_key qp_decode config "SourceFileName" fs _ _
                   (or_introl eq_refl) H).
  - now rewrite (received_has_no_file_key qp_decode config "Source" fs _ _
                   (or_intror eq_refl) H).
Qed.

Lemma received_is_concatenation_per_command_witness :
  (("StdIn" : string) <> "SourceFileName" -> ("StdIn" : string) <> "Source" ->
   UMap.at_ "StdIn"
     [("StdIn", "hello world"); ("Control", "compiler=gcc")]
   = Bridge.accumulated QuotedPrintable.decode "StdIn"
       [("StdIn", "hello"); ("Source", "int x;"); ("Control", "compiler=3Dgcc");
        ("StdIn", "=20world")])
  /\ UMap.find "SourceFileName" [("StdIn", "hello world"); ("Control", "compiler=gcc")] = None
  /\ UMap.find "Source" [("StdIn", "hello world"); ("Control", "compiler=gcc")] = None.
Proof.
  exact (received_is_concatenation_per_command QuotedPrintable.decode Sample.config
           [("StdIn", "hello"); ("Source", "int x;"); ("Control", "compiler=3Dgcc");
            ("StdIn", "=20world")]
           {| Bridge.received := [("StdIn", "hello world"); ("Control", "compiler=gcc")];
              Bridge.sources := [("", "int x;")];
              Bridge.current_filename := ""; Bridge.buf := "" |}
           "StdIn" eq_refl).
Defined.

(** X5.  The content staged for a file is what its [Source] frames
    carried: the decoded payloads of the [Source] frames that arrived while
    its name was the one set by the last [SourceFileName] frame (the empty
    name before the first), joined in the order of arrival.  A name set
    again later continues the same file.  This is the content of every
    entry of the deque [program_writer] builds, whatever the iteration
    order of the map. *)
Theorem staged_content_is_source_frames :
  forall (qp_decode : string -> string) (config : Config.server_config)
         (order : UMap.t -> UMap.t) (fs : list (string * string)) (b : Bridge.bridge),
    UMap.iteration order ->
    Bridge.on_frames qp_decode config Bridge.init fs = Bridge.Reading b ->
    (forall name,
        UMap.at_ name (Bridge.sources b) = Reads.source_text qp_decode name "" fs)
    /\ (forall file,
          In file (Writer.sources_deque order (Bridge.sources b)) ->
          Writer.source file = Reads.source_text qp_decode (Writer.filename file) "" fs).
Proof.
  intros qp_decode config order fs b Hord H.
  assert (Hat : forall name,
             UMap.at_ name (Bridge.sources b) = Reads.source_text qp_decode name "" fs).
  { intros name. now rewrite (sources_text qp_decode config name fs _ _ H). }
  split; [exact Hat|].
  intros file Hin. unfold Writer.sources_deque in Hin.
  apply in_map_iff in Hin. destruct Hin as ([k v] & <- & Hin).
  cbn [Writer.source Writer.filename fst snd].
  apply (Permutation_in _ (Hord _)) in Hin.
  pose proof (sources_keys_nodup qp_decode config fs _ _ H (NoDup_nil _)) as Hn.
  rewrite <- Hat. unfold UMap.at_. now rewrite (umap_find_in k v _ Hn Hin).
Qed.

Lemma staged_content_is_source_frames_witness :
  (forall name,
      UMap.at_ name [("a.c", "int x;int y;"); ("b.h", "#define B")]
      = Reads.source_text QuotedPrintable.decode name ""
          [("SourceFileName", "a.c"); ("Source", "int x;");
           ("SourceFileName", "b.h"); ("Source", "#define=20B");
           ("SourceFileName", "a.c"); ("Source", "int y;")])
  /\ (forall file,
        In file (Writer.sources_deque UMap.front_linked_order
                   [("a.c", "int x;int y;"); ("b.h", "#define B")]) ->
        Writer.source file
        = Reads.source_text QuotedPrintable.decode (Writer.filename file) ""
            [("SourceFileName", "a.c"); ("Source", "int x;");
             ("SourceFileName", "b.h"); ("Source", "#define=20B");
             ("SourceFileName", "a.c"); ("Source", "int y;")]).
Proof.
  exact (staged_content_is_source_frames QuotedPrintable.decode Sample.config
           UMap.front_linked_order
           [("SourceFileName", "a.c"); ("Source", "int x;");
            ("SourceFileName", "b.h"); ("Source", "#define=20B");
            ("SourceFileName", "a.c"); ("Source", "int y;")]
           {| Bridge.received := [];
              Bridge.sources := [("a.c", "int x;int y;"); ("b.h", "#define B")];
              Bridge.current_filename := "a.c"; Bridge.buf := "" |}
           front_linked_order_iteration eq_refl).
Defined.

(* ===================================================================== *)
(** * What the children are given *)
(* ===================================================================== *)

Section InputFacts.

Import Runner.

Variable strsignal : Z -> string.

Lemma on_event_inputs idx current r f e :
  spawned (fst (fst (on_event idx current r f e))) = spawned r
  /\ stdin_written (fst (fst (on_event idx current r f e))) = stdin_written r.
Proof.
  destruct e as [|from_stderr bytes|from_stderr|from_stderr|[status|]|]; cbn [on_event].
  - destruct (stdin_closed f); split; reflexivity.
  - destruct (output_closed from_stderr f); [split; reflexivity|]. cbn [fst].
    unfold forward_chunk.
    destruct (Limiter.add (Str.len bytes) (limitter (emit (chunk_frame current from_stderr bytes) r)))
      as [l [k|]]; [destruct (finished f)|]; split; reflexivity.
  - destruct (output_closed from_stderr f); split; reflexivity.
  - destruct (output_posted from_stderr f); split; reflexivity.
  - destruct (reaped f); split; reflexivity.
  - destruct (reaped f); split; reflexivity.
  - destruct (timer f); cbn [fst]; destruct (finished f); split; reflexivity.
Qed.

Lemma run_phase_inputs idx current events : forall r f,
  spawned (phase_runner (run_phase idx current events r f)) = spawned r
  /\ stdin_written (phase_runner (run_phase idx current events r f)) = stdin_written r.
Proof.
  induction events as [|e events IH]; intros r f; cbn [run_phase]; [split; reflexivity|].
  pose proof (on_event_inputs idx current r f e) as [Hs Hi].
  destruct (on_event idx current r f e) as [[r' f'] at_join]. cbn [fst] in Hs, Hi.
  destruct (at_join && all_closed f')%bool.
  - destruct (reaped f'); cbn [phase_runner]; split; assumption.
  - destruct (IH r' f') as [Hs' Hi']. split; congruence.
Qed.

Lemma terminate_inputs r :
  spawned (final (terminate strsignal r)) = spawned r
  /\ stdin_written (final (terminate strsignal r)) = stdin_written r.
Proof.
  unfold terminate.
  destruct (WIFEXITED (laststatus r)); cbn [laststatus emit];
    destruct (WIFSIGNALED (laststatus r)); split; reflexivity.
Qed.

(** The loop spawns the commands from the front, and each child it spawns
    is given [received[stdin_command]]. *)
Lemma run_commands_inputs commands received : forall idx env r,
  exists k,
    spawned (final (run_commands strsignal idx commands received env r))
    = (spawned r ++ map arguments (firstn k commands))%list
    /\ stdin_written (final (run_commands strsignal idx commands received env r))
       = (stdin_written r
            ++ map (fun c => UMap.at_ (stdin_command c) received) (firstn k commands))%list.
Proof.
  induction commands as [|current commands IH]; intros idx env r; cbn [run_commands].
  - exists 0%nat. destruct (terminate_inputs r) as [-> ->]. cbn. now rewrite !app_nil_r.
  - destruct env as [|[|events] env];
      [exists 0%nat; cbn; now rewrite !app_nil_r ..|].
    pose proof (run_phase_inputs idx current events
                  (start_phase idx current received r) installed) as [Hs Hi].
    cbn [start_phase spawned stdin_written] in Hs, Hi.
    destruct (run_phase idx current events (start_phase idx current received r) installed)
      as [r' status [|]|r']; cbn [phase_runner] in Hs, Hi.
    + exists 1%nat. cbn [final with_status spawned stdin_written firstn map].
      now rewrite Hs, Hi.
    + destruct (negb (WIFEXITED status) || negb (WEXITSTATUS status =? 0))%bool.
      * exists 1%nat. destruct (terminate_inputs (with_status status r')) as [-> ->].
        cbn [with_status spawned stdin_written firstn map]. now rewrite Hs, Hi.
      * destruct (IH (S idx) env (with_status status r')) as (k & Hk1 & Hk2).
        exists (S k). rewrite Hk1, Hk2.
        cbn [with_status spawned stdin_written firstn map].
        now rewrite Hs, Hi, <- !app_assoc.
    + exists 1%nat. cbn [final spawned stdin_written firstn map]. now rewrite Hs, Hi.
Qed.

End InputFacts.

Lemma accumulated_absent qp_decode k fs :
  Forall (fun f : string * string => fst f <> k) fs ->
  Bridge.accumulated qp_decode k fs = "".
Proof.
  induction 1 as [|[c d] fs Hc _ IH]; cbn [Bridge.accumulated]; [reflexivity|].
  cbn [fst] in Hc. destruct (String.eqb_spec c k); [congruence | exact IH].
Qed.

Lemma readable_run : readable ("Control", "run").
Proof. repeat split; [discriminate | vm_compute; discriminate]. Qed.

(** X6.  What the children read on their standard input.  For a session
    whose frames arrive in any number of pieces and that is committed by
    [Control: run]: the compiler is given the empty string, and the program
    is given the decoded payloads of the [StdIn] frames that came before
    [Control: run], joined in the order of arrival.  Frames that come after
    [Control: run] add nothing. *)
Theorem children_stdin :
  forall (K : Type) (ops : Posix.kernel K) (qp_decode : string -> string)
         (config : Config.server_config) (order : UMap.t -> UMap.t)
         (strsignal : Z -> string) (workdir : Z) (unique_name : string)
         (fs later : list (string * string)) (b : Bridge.bridge)
         (chunks : list string) (signals : nat) (env : list Runner.phase_env)
         (w w' : Posix.world K) (r : Runner.result),
    Forall readable fs -> Forall readable later ->
    Bridge.on_frames qp_decode config Bridge.init fs = Bridge.Reading b ->
    Reads.bytes chunks = stream (fs ++ ("Control", "run") :: later) ->
    Session.session ops qp_decode config order strsignal workdir unique_name
      (Reads.arrive chunks) signals env w = (Session.Ran r, w') ->
    Runner.stdin_written (Runner.final r)
    = firstn (List.length (Runner.spawned (Runner.final r)))
        [""; Bridge.accumulated qp_decode "StdIn" fs].
Proof.
  intros K ops qp_decode config order strsignal workdir unique_name fs later b chunks
         signals env w w' r Hfs Hlater Hb Hbytes Hs.
  destruct (session_ran _ _ _ _ _ _ _ _ _ _ _ _ _ Hs) as (received & sources & c & Hbr & Hr).
  assert (Hall : Forall readable (fs ++ ("Control", "run") :: later)).
  { apply Forall_app. split; [exact Hfs | constructor; [exact readable_run | exact Hlater]]. }
  pose proof (compiler_bridge_chunks qp_decode config chunks Bridge.init "" _ Hall Hbytes
                eq_refl) as Hwhole.
  change (Bridge.with_buf Bridge.init "") with Bridge.init in Hwhole.
  rewrite Hwhole in Hbr. clear Hwhole.
  rewrite on_frames_app, Hb in Hbr. cbn [Bridge.on_frames] in Hbr.
  unfold Bridge.on_frame in Hbr. cbn [String.eqb Ascii.eqb Bool.eqb andb] in Hbr.
  destruct (Config.find_compiler _ _) as [c'|]; [|discriminate Hbr].
  injection Hbr as <- _ _.
  unfold Runner.program_runner in Hr.
  destruct (Config.assoc (Config.jail_name c) (Config.jails config)) as [jail|];
    [|discriminate Hr].
  destruct (Runner.build_commands _ jail c _) as [commands|] eqn:Hbc;
    injection Hr as <-; [|reflexivity].
  destruct (build_commands_shape _ _ _ _ _ Hbc) as (a1 & a2 & ->).
  match goal with |- context [Runner.run_commands _ _ ?cs ?rc _ ?r0] =>
    destruct (run_commands_inputs strsignal cs rc 0%nat env r0) as (k & Hk1 & Hk2) end.
  rewrite Hk1, Hk2. cbn [Runner.emit Runner.fresh Runner.spawned Runner.stdin_written app].
  rewrite length_map.
  assert (E0 : UMap.at_ "" (UMap.touch "Control" (Bridge.received b)) = "").
  { rewrite umap_at_touch.
    rewrite (received_accumulates qp_decode config "" fs _ _ ltac:(discriminate)
               ltac:(discriminate) Hb).
    cbn [Bridge.init Bridge.received UMap.at_ UMap.find UMap.empty append].
    apply accumulated_absent.
    eapply Forall_impl; [|exact Hfs]. intros [c0 d0] [[Hne _] _]. exact Hne. }
  assert (E1 : UMap.at_ "StdIn" (UMap.touch "Control" (Bridge.received b))
               = Bridge.accumulated qp_decode "StdIn" fs).
  { rewrite umap_at_touch.
    now rewrite (received_accumulates qp_decode config "StdIn" fs _ _ ltac:(discriminate)
                   ltac:(discriminate) Hb). }
  destruct k as [|[|[|k]]]; cbn [firstn map Runner.stdin_command List.length];
    rewrite ?E0, ?E1; reflexivity.
Qed.

Lemma children_stdin_witness :
  exists (r : Runner.result) (w' : Posix.world Z),
    Session.session Posix.permissive QuotedPrintable.decode Sample.config
      UMap.insertion_order Sample.strsignal 3 "wandboxAAAAAA"
      (Reads.arrive ["StdIn 5:hel";
                     "lo" ++ String Str.LF "Control 12:compiler=gcc" ++ String Str.LF "Contr";
                     "ol 3:run" ++ String Str.LF "StdIn 4:late" ++ String Str.LF ""])
      0
      [Runner.Runs [Runner.EvStdinWritten; Runner.EvEof false; Runner.EvPosted false;
                    Runner.EvEof true; Runner.EvPosted true; Runner.EvSigchld (Some 0)];
       Runner.Runs [Runner.EvStdinWritten; Runner.EvChunk false "hello";
                    Runner.EvEof false; Runner.EvPosted false;
                    Runner.EvEof true; Runner.EvPosted true; Runner.EvSigchld (Some 0)]]
      (Posix.boot 4)
    = (Session.Ran r, w')
    /\ Runner.stdin_written (Runner.final r) = [""; "hello"].
Proof.
  evar (r : Runner.result). evar (w' : Posix.world Z).
  assert (H : Session.session Posix.permissive QuotedPrintable.decode Sample.config
      UMap.insertion_order Sample.strsignal 3 "wandboxAAAAAA"
      (Reads.arrive ["StdIn 5:hel";
                     "lo" ++ String Str.LF "Control 12:compiler=gcc" ++ String Str.LF "Contr";
                     "ol 3:run" ++ String Str.LF "StdIn 4:late" ++ String Str.LF ""])
      0
      [Runner.Runs [Runner.EvStdinWritten; Runner.EvEof false; Runner.EvPosted false;
                    Runner.EvEof true; Runner.EvPosted true; Runner.EvSigchld (Some 0)];
       Runner.Runs [Runner.EvStdinWritten; Runner.EvChunk false "hello";
                    Runner.EvEof false; Runner.EvPosted false;
                    Runner.EvEof true; Runner.EvPosted true; Runner.EvSigchld (Some 0)]]
      (Posix.boot 4)
    = (Session.Ran r, w')) by (subst r w'; vm_compute; reflexivity).
  exists r, w'. split; [exact H|].
  assert (Hfs : Forall readable [("StdIn", "hello"); ("Control", "compiler=gcc")])
    by (repeat constructor; try discriminate; vm_compute; discriminate).
  assert (Hlater : Forall readable [("StdIn", "late")])
    by (repeat constructor; try discriminate; vm_compute; discriminate).
  rewrite (children_stdin Z Posix.permissive QuotedPrintable.decode Sample.config
             UMap.insertion_order Sample.strsignal 3 "wandboxAAAAAA"
             [("StdIn", "hello"); ("Control", "compiler=gcc")] [("StdIn", "late")]
             {| Bridge.received := [("StdIn", "hello"); ("Control", "compiler=gcc")];
                Bridge.sources := []; Bridge.current_filename := ""; Bridge.buf := "" |}
             ["StdIn 5:hel";
              "lo" ++ String Str.LF "Control 12:compiler=gcc" ++ String Str.LF "Contr";
              "ol 3:run" ++ String Str.LF "StdIn 4:late" ++ String Str.LF ""]
             0%nat _ (Posix.boot 4) w' r Hfs Hlater eq_refl eq_refl H).
  subst r. reflexivity.
Defined.

(* ===================================================================== *)
(** * ProgramRunner: the selected switches *)
(* ===================================================================== *)






(** A switch name as [CompilerOption] can carry it: not empty, and free of
    commas and line feeds. *)
Lemma switch_tokens_token tok : forall cur rest,
  Str.forallb (fun c => negb (Ascii.eqb c "," || Ascii.eqb c Str.LF)) tok = true ->
  Runner.switch_tokens (tok ++ rest) cur = Runner.switch_tokens rest (cur ++ tok).
Proof.
  induction tok as [|c tok IH]; intros cur rest H; cbn [append].
  - now rewrite append_nil_r.
  - cbn [Str.forallb] in H. apply andb_prop in H. destruct H as [Hc Ht].
    apply negb_true_iff, orb_false_iff in Hc. destruct Hc as [Hc1 Hc2].
    cbn [Runner.switch_tokens]. rewrite Hc1, Hc2, (IH _ _ Ht).
    now rewrite append_assoc.
Qed.

Lemma switch_tokens_join toks : forall tail,
  Forall (fun tok => tok <> ""
                     /\ Str.forallb (fun c => negb (Ascii.eqb c "," || Ascii.eqb c Str.LF)) tok
                        = true) toks ->
  Runner.switch_tokens tail "" = [] ->
  (forall cur, cur <> "" -> Runner.switch_tokens tail cur = [cur]) ->
  Runner.switch_tokens (Str.join "," toks ++ tail) "" = toks.
Proof.
  induction toks as [|tok toks IH]; intros tail Hall Htail Hend.
  - exact Htail.
  - inversion Hall as [|? ? [Hne Hclean] Hall']; subst.
    destruct toks as [|tok' toks].
    + cbn [Str.join]. rewrite (switch_tokens_token tok "" tail Hclean). now apply Hend.
    + assert (E : Str.join "," (tok :: tok' :: toks)
                  = tok ++ String "," (Str.join "," (tok' :: toks))) by reflexivity.
      rewrite E, append_assoc. cbn [append].
      rewrite (switch_tokens_token tok "" _ Hclean). cbn [append].
      destruct tok as [|c0 tok0]; [congruence|].
      cbn [Runner.switch_tokens].
      change (Ascii.eqb "," ",") with true. cbv iota. cbn [Str.empty].
      f_equal. exact (IH tail Hall' Htail Hend).
Qed.

(** X8.  The payload of [CompilerOption] is read as switch names separated
    by commas, up to the first line feed or the first empty name: what
    follows either is not looked at.  A name is any non-empty run of
    characters other than the comma and the line feed. *)
Theorem compiler_option_syntax :
  forall (toks : list string) (junk : string),
    Forall (fun tok => tok <> ""
                       /\ Str.forallb (fun c => negb (Ascii.eqb c "," || Ascii.eqb c Str.LF)) tok
                          = true) toks ->
    Runner.selected_switches (Str.join "," toks) = toks
    /\ Runner.selected_switches (Str.join "," toks ++ String Str.LF junk) = toks
    /\ Runner.selected_switches (Str.join "," toks ++ String "," (String "," junk)) = toks.
Proof.
  intros toks junk Hall. unfold Runner.selected_switches. repeat split.
  - rewrite <- (append_nil_r (Str.join "," toks)).
    apply switch_tokens_join; [exact Hall | reflexivity |].
    intros [|c cur] H; [congruence | reflexivity].
  - apply switch_tokens_join; [exact Hall | reflexivity |].
    intros [|c cur] H; [congruence | reflexivity].
  - apply switch_tokens_join; [exact Hall | reflexivity |].
    intros [|c cur] H; [congruence | reflexivity].
Qed.

Lemma compiler_option_syntax_witness :
  Runner.selected_switches (Str.join "," ["warning"; "c++11"; "optimize"])
  = ["warning"; "c++11"; "optimize"]
  /\ Runner.selected_switches
       (Str.join "," ["warning"; "c++11"; "optimize"] ++ String Str.LF "boost,sprout")
     = ["warning"; "c++11"; "optimize"]
  /\ Runner.selected_switches
       (Str.join "," ["warning"; "c++11"; "optimize"] ++ String "," (String "," "boost,sprout"))
     = ["warning"; "c++11"; "optimize"].
Proof.
  apply (compiler_option_syntax ["warning"; "c++11"; "optimize"] "boost,sprout").
  repeat constructor; discriminate.
Defined.

(* ===================================================================== *)
(** * ProgramRunner: the compile phase decides whether the program runs *)
(* ===================================================================== *)

Section CompileGate.

Import Runner.

Variable strsignal : Z -> string.




End CompileGate.



(* ===================================================================== *)
(** * Descriptors: what the stager and the writer leave open *)
(* ===================================================================== *)

Section DescriptorFacts.

Import Posix Descriptors.

Context {K : Type} (ops : kernel K).

Lemma release_in fd l : In fd l -> Permutation l (fd :: release fd l).
Proof.
  induction l as [|x l IH]; intros H; [destruct H|]. cbn [release].
  destruct (Z.eqb_spec x fd) as [->|Hne]; [reflexivity|].
  destruct H as [H|H]; [congruence|].
  rewrite (IH H) at 1. apply perm_swap.
Qed.

Lemma release_perm fd l l' : Permutation l (fd :: l') -> Permutation (release fd l) l'.
Proof.
  intros H. apply (Permutation_cons_inv (a := fd)).
  rewrite <- (release_in fd l); [exact H|].
  apply (Permutation_in _ (Permutation_sym H)). now left.
Qed.

Lemma held_set_errno e (w : world (K * list Z)) : held (set_errno e w) = held w.
Proof. reflexivity. Qed.

Lemma held_close fd (w : world (K * list Z)) :
  held (sys_close (tracked ops) fd w) = release fd (held w).
Proof. reflexivity. Qed.




Lemma held_mkdirat at_fd path mode (w : world (K * list Z)) :
  held (snd (sys_mkdirat (tracked ops) at_fd path mode w)) = held w.
Proof.
  unfold sys_mkdirat, tracked; cbn [k_mkdirat].
  destruct (k_mkdirat ops (fst (w_kernel w)) at_fd path mode) as [[v|e] k]; reflexivity.
Qed.

Lemma held_openat at_fd path flags mode (w : world (K * list Z)) :
  held (snd (sys_openat (tracked ops) at_fd path flags mode w))
  = if fst (sys_openat (tracked ops) at_fd path flags mode w) =? -1
    then held w
    else fst (sys_openat (tracked ops) at_fd path flags mode w) :: held w.
Proof.
  unfold sys_openat, tracked; cbn [k_openat].
  destruct (k_openat ops (fst (w_kernel w)) at_fd path flags mode) as [[v|e] k];
    cbn [ret fst snd held w_kernel acquire]; [|reflexivity].
  destruct (v =? -1); reflexivity.
Qed.


Lemma held_close_all l : forall (w : world (K * list Z)) h,
  Permutation (held w) (l ++ h) ->
  Permutation (held (fold_left (fun w fd => sys_close (tracked ops) fd w) l w)) h.
Proof.
  induction l as [|fd l IH]; intros w h H; cbn [fold_left]; [exact H|].
  apply IH. rewrite held_close. now apply release_perm.
Qed.

Lemma held_closeall dirfds (w : world (K * list Z)) h :
  Permutation (held w) (dirfds ++ h) ->
  Permutation (held (PathStager.closeall (tracked ops) dirfds w)) h.
Proof.
  intros H. unfold PathStager.closeall. apply held_close_all.
  rewrite H. apply Permutation_app_tail, Permutation_rev.
Qed.

(** The walk holds the directories on its stack and nothing else. *)
Lemma held_walk at_fd dirmode dirs : forall dirfds (w : world (K * list Z)) h,
  Permutation (held w) (dirfds ++ h) ->
  match PathStager.walk (tracked ops) at_fd dirmode dirs dirfds w with
  | (Some dirfds', w') => Permutation (held w') (dirfds' ++ h)
  | (None, w') => Permutation (held w') h
  end.
Proof.
  induction dirs as [|x dirs IH]; intros dirfds w h H; cbn [PathStager.walk]; [exact H|].
  destruct (String.eqb x ""); [now apply IH|].
  destruct (String.eqb x "."); [now apply IH|].
  destruct (String.eqb x "..").
  - destruct dirfds as [|fd below]; [exact H|].
    apply IH. rewrite held_close. now apply release_perm.
  - pose proof (held_mkdirat (PathStager.base at_fd dirfds) x dirmode (set_errno 0 w)) as Hm.
    destruct (sys_mkdirat (tracked ops) (PathStager.base at_fd dirfds) x dirmode (set_errno 0 w))
      as [m w1]. cbn [snd] in Hm. rewrite held_set_errno in Hm.
    pose proof (held_openat (PathStager.base at_fd dirfds) x
                  (Z.lor O_DIRECTORY (Z.lor O_PATH O_RDWR)) None w1) as Ho.
    destruct (sys_openat (tracked ops) (PathStager.base at_fd dirfds) x
                (Z.lor O_DIRECTORY (Z.lor O_PATH O_RDWR)) None w1) as [dirfd w2].
    cbn [fst snd] in Ho.
    destruct (dirfd =? -1).
    + apply held_closeall. now rewrite Ho, Hm.
    + apply IH. rewrite Ho, Hm. cbn [app]. now apply perm_skip.
Qed.

Lemma held_recursive_create_open_at at_fd filename flags dirmode filemode
    (w : world (K * list Z)) :
  let res := PathStager.recursive_create_open_at (tracked ops) at_fd filename
               flags dirmode filemode w in
  Permutation (held (snd res)) (if fst res =? -1 then held w else fst res :: held w).
Proof.
  cbn zeta. unfold PathStager.recursive_create_open_at.
  destruct (Ascii.eqb (Str.front filename) "/"); [reflexivity|].
  destruct (Str.split PathStager.is_slash filename) as [|s0 ss] eqn:Es; [reflexivity|].
  destruct (removelast (s0 :: ss)) as [|d0 ds].
  - rewrite held_openat, held_set_errno. reflexivity.
  - pose proof (held_walk at_fd dirmode (d0 :: ds) [] (set_errno 0 w) (held w)
                  (Permutation_refl _)) as Hw.
    destruct (PathStager.walk (tracked ops) at_fd dirmode (d0 :: ds) [] (set_errno 0 w))
      as [[dirfds|] w1]; [|exact Hw].
    pose proof (held_openat (PathStager.base at_fd dirfds) (last (s0 :: ss) "") flags
                  (Some filemode) (set_errno 0 w1)) as Ho.
    destruct (sys_openat (tracked ops) (PathStager.base at_fd dirfds) (last (s0 :: ss) "")
                flags (Some filemode) (set_errno 0 w1)) as [newfd w2].
    cbn [fst snd] in Ho |- *. rewrite held_set_errno in Ho.
    destruct (newfd =? -1).
    + apply held_closeall. now rewrite Ho.
    + apply held_closeall. rewrite Ho, Hw. apply Permutation_middle.
Qed.

Variable workdir : Z.
Variable unique_name storedir : string.




End DescriptorFacts.

(** X10.  [recursive_create_open_at] leaves no directory open.  On any
    kernel, when it returns, the process holds the descriptors it held
    before and, if the result is not [-1], the descriptor returned: every
    directory opened on the way has been closed again, on success and on
    every failure path. *)
Theorem stager_leaves_no_directory_open :
  forall (K : Type) (ops : Posix.kernel K) (at_fd : Z) (filename : string)
         (flags dirmode filemode : Z) (w : Posix.world (K * list Z)),
    let res := PathStager.recursive_create_open_at (Descriptors.tracked ops) at_fd filename
                 flags dirmode filemode w in
    Permutation (Descriptors.held (snd res))
      (if fst res =? -1 then Descriptors.held w else fst res :: Descriptors.held w).
Proof.
  intros K ops at_fd filename flags dirmode filemode w.
  apply held_recursive_create_open_at.
Qed.


(* ===================================================================== *)
(** * PathStager: segments that do not count *)
(* ===================================================================== *)

Section SegmentFacts.

Import Posix.

Context {K : Type} (ops : kernel K).

Lemma walk_skips at_fd dirmode dirs : forall dirfds (w : world K),
  PathStager.walk ops at_fd dirmode dirs dirfds w
  = PathStager.walk ops at_fd dirmode
      (filter (fun x => negb (String.eqb x "" || String.eqb x ".")) dirs) dirfds w.
Proof.
  induction dirs as [|x dirs IH]; intros dirfds w; [reflexivity|].
  cbn [filter]. destruct (String.eqb x "") eqn:E1; cbn [orb negb];
    [cbn [PathStager.walk]; rewrite E1; apply IH|].
  destruct (String.eqb x ".") eqn:E2; cbn [negb];
    [cbn [PathStager.walk]; rewrite E1, E2; apply IH|].
  cbn [PathStager.walk]. rewrite E1, E2.
  destruct (String.eqb x "..").
  - destruct dirfds; [reflexivity | apply IH].
  - destruct (sys_mkdirat ops (PathStager.base at_fd dirfds) x dirmode (set_errno 0 w))
      as [m w1].
    destruct (sys_openat ops (PathStager.base at_fd dirfds) x
                (Z.lor O_DIRECTORY (Z.lor O_PATH O_RDWR)) None w1) as [dirfd w2].
    destruct (dirfd =? -1); [reflexivity | apply IH].
Qed.

(** The stager in terms of the target and the directory segments that
    count. *)
Lemma recursive_create_open_at_segments at_fd filename flags dirmode filemode (w : world K) :
  Ascii.eqb (Str.front filename) "/" = false ->
  PathStager.recursive_create_open_at ops at_fd filename flags dirmode filemode w
  = match PathStager.walk ops at_fd dirmode
            (filter (fun x => negb (String.eqb x "" || String.eqb x "."))
               (PathStager.directories filename)) [] (set_errno 0 w) with
    | (None, w1) => (-1, w1)
    | (Some dirfds, w1) =>
        let (newfd, w2) :=
          sys_openat ops (PathStager.base at_fd dirfds)
            (last (Str.split PathStager.is_slash filename) "") flags (Some filemode)
            (set_errno 0 w1) in
        (newfd, PathStager.closeall ops dirfds w2)
    end.
Proof.
  intros Hf. unfold PathStager.recursive_create_open_at, PathStager.directories.
  rewrite Hf. pose proof (split_nonempty PathStager.is_slash filename) as Hne.
  destruct (Str.split PathStager.is_slash filename) as [|s0 ss]; [congruence|].
  destruct (removelast (s0 :: ss)) as [|d0 ds] eqn:Er.
  - cbn [filter PathStager.walk PathStager.base].
    change (set_errno 0 (set_errno 0 w)) with (set_errno 0 w).
    destruct (sys_openat ops at_fd (last (s0 :: ss) "") flags (Some filemode) (set_errno 0 w))
      as [newfd w2]. reflexivity.
  - rewrite <- walk_skips. reflexivity.
Qed.

End SegmentFacts.

(** X12.  Empty segments and [.] segments do not count.  Two relative
    file names with the same last segment whose directory segments agree
    once the empty ones and the [.] ones are left out are staged alike: the
    same system calls in the same order, the same result.  So [a//b/./c]
    is [a/b/c]. *)
Theorem stager_ignores_empty_and_dot_segments :
  forall (K : Type) (ops : Posix.kernel K) (at_fd : Z) (f1 f2 : string)
         (flags dirmode filemode : Z) (w : Posix.world K),
    Ascii.eqb (Str.front f1) "/" = false ->
    Ascii.eqb (Str.front f2) "/" = false ->
    last (Str.split PathStager.is_slash f1) "" = last (Str.split PathStager.is_slash f2) "" ->
    filter (fun x => negb (String.eqb x "" || String.eqb x ".")) (PathStager.directories f1)
    = filter (fun x => negb (String.eqb x "" || String.eqb x ".")) (PathStager.directories f2) ->
    PathStager.recursive_create_open_at ops at_fd f1 flags dirmode filemode w
    = PathStager.recursive_create_open_at ops at_fd f2 flags dirmode filemode w.
Proof.
  intros K ops at_fd f1 f2 flags dirmode filemode w H1 H2 Hlast Hdirs.
  rewrite (recursive_create_open_at_segments ops at_fd f1 _ _ _ w H1).
  rewrite (recursive_create_open_at_segments ops at_fd f2 _ _ _ w H2).
  now rewrite Hlast, Hdirs.
Qed.

Lemma stager_ignores_empty_and_dot_segments_witness :
  PathStager.recursive_create_open_at Posix.permissive 3 "a//b/./c" Writer.stage_flags
    448 384 (Posix.boot 4)
  = PathStager.recursive_create_open_at Posix.permissive 3 "a/b/c" Writer.stage_flags
      448 384 (Posix.boot 4).
Proof.
  apply (stager_ignores_empty_and_dot_segments Z Posix.permissive 3 "a//b/./c" "a/b/c");
    reflexivity.
Defined.

(** X13.  The writer gives up on a file only for an error that is not
    transient.  The retry loop around the open of the store copy ends in
    one of three ways: with a descriptor, which is not [-1]; by giving up,
    and then [errno] is none of [EAGAIN], [EMFILE] and [EWOULDBLOCK]; or
    still waiting for a signal, and then [errno] is one of the three and
    every signal that came was used for a new attempt. *)
Theorem open_store_gives_up_only_on_hard_errors :
  forall (K : Type) (ops : Posix.kernel K) (workdir : Z) (signals : nat) (name : string)
         (w : Posix.world K),
    match Writer.open_store ops workdir signals name w with
    | (Writer.Opened fd, _, _) => fd <> -1
    | (Writer.Abort, _, w') => Writer.transient (Posix.w_errno w') = false
    | (Writer.Suspend, remaining, w') =>
        Writer.transient (Posix.w_errno w') = true /\ remaining = 0%nat
    end.
Proof.
  intros K ops workdir signals. induction signals as [|n IH]; intros name w;
    cbn [Writer.open_store];
    destruct (PathStager.recursive_create_open_at ops workdir ("store/" ++ name)
                Writer.stage_flags 448 384 w) as [fd w1];
    destruct (Z.eqb_spec fd (-1)) as [_|Hfd]; try exact Hfd;
    destruct (Writer.transient (Posix.w_errno w1)) eqn:Et; try exact Et.
  - now split.
  - apply IH.
Qed.

(* ===================================================================== *)
(** * OutputLimiter: past the limits *)
(* ===================================================================== *)

(** X14.  The count never goes down and never passes [SIZE_MAX], and a
    limit once passed stays passed: from then on every further chunk,
    whatever its length, makes the limiter signal the child again, with
    SIGKILL when the count is above [hard_limit] and with SIGXFSZ while it
    is only above [soft_limit]. *)
Theorem limiter_signals_on_every_chunk_past_the_limit :
  forall (l : Limiter.write_limit_counter) (len : N) (p : nat),
    (Limiter.current l <= Limiter.SIZE_MAX)%N ->
    (len <= Limiter.SIZE_MAX)%N ->
    Limiter.proc l = Some p ->
    let l' := fst (Limiter.add len l) in
    (Limiter.current l <= Limiter.current l' <= Limiter.SIZE_MAX)%N
    /\ ((Limiter.soft_limit l < Limiter.current l)%N ->
        snd (Limiter.add len l)
        = Some (p, if (Limiter.hard_limit l <? Limiter.current l')%N
                   then Posix.SIGKILL else Posix.SIGXFSZ))
    /\ ((Limiter.hard_limit l < Limiter.current l)%N ->
        snd (Limiter.add len l) = Some (p, Posix.SIGKILL)).
Proof.
  intros l len p Hc Hlen Hp l'.
  assert (Hcur : Limiter.current l' = N.min Limiter.SIZE_MAX (Limiter.current l + len))
    by (apply limiter_add_current; exact Hlen).
  assert (Hmono : (Limiter.current l <= Limiter.current l' <= Limiter.SIZE_MAX)%N)
    by (rewrite Hcur; lia).
  split; [exact Hmono|].
  rewrite limiter_add_signal, Hp. cbn zeta. fold l'. split.
  - intros Hs. destruct (N.ltb_spec (Limiter.hard_limit l) (Limiter.current l'));
      [reflexivity|].
    destruct (N.ltb_spec (Limiter.soft_limit l) (Limiter.current l')); [reflexivity | lia].
  - intros Hh. destruct (N.ltb_spec (Limiter.hard_limit l) (Limiter.current l'));
      [reflexivity | lia].
Qed.

Lemma limiter_signals_on_every_chunk_past_the_limit_witness :
  let l := {| Limiter.soft_limit := 10; Limiter.hard_limit := 20;
              Limiter.current := 12; Limiter.proc := Some 1%nat |} in
  (12 <= Limiter.current (fst (Limiter.add 0 l)) <= Limiter.SIZE_MAX)%N
  /\ ((10 < 12)%N -> snd (Limiter.add 0 l) = Some (1%nat, Posix.SIGXFSZ))
  /\ ((20 < 12)%N -> snd (Limiter.add 0 l) = Some (1%nat, Posix.SIGKILL)).
Proof.
  intros l.
  apply (limiter_signals_on_every_chunk_past_the_limit l 0 1%nat);
    [vm_compute; discriminate | vm_compute; discriminate | reflexivity].
Defined.

(* ===================================================================== *)
(** * AdmissionSem: the listener below capacity *)
(* ===================================================================== *)

(** X15.  The listener waits only at capacity.  For [max_connections]
    between 1 and [2^32], in every reachable state with fewer than
    [max_connections] active sessions the listener can go on: it is either
    free to accept, or the read it waits on can complete because the
    counter is positive.  When it waits on an empty counter, exactly
    [max_connections] sessions are active. *)
Theorem listener_waits_only_at_capacity :
  forall (max_connections : Z) (events : list Admission.event) (s : Admission.state),
    1 <= max_connections <= 4294967296 ->
    Admission.run (Admission.listener_init max_connections) events = Some s ->
    (Z.of_nat (Admission.active s) < max_connections ->
     exists e s', (e = Admission.Accept \/ e = Admission.Acquire)
                  /\ Admission.step s e = Some s')
    /\ (Admission.listener s = Admission.AwaitingPermit ->
        Admission.step s Admission.Acquire = None ->
        Z.of_nat (Admission.active s) = max_connections).
Proof.
  intros max_connections events s Hmax Hrun.
  pose proof (balanced_run max_connections events _ _ (balanced_init _ Hmax) Hrun) as [Hsum Hc].
  unfold Admission.listener_units in Hsum. split.
  - intros Hlt. destruct (Admission.listener s) eqn:El.
    + exists Admission.Accept. eexists. split; [now left|]. cbn. now rewrite El.
    + exists Admission.Acquire. eexists. split; [now right|]. cbn. rewrite El.
      destruct (Z.ltb_spec 0 (Admission.counter s)); [reflexivity | lia].
  - intros El Hstep. rewrite El in Hsum. cbn in Hstep. rewrite El in Hstep.
    destruct (Z.ltb_spec 0 (Admission.counter s)); [discriminate | lia].
Qed.

Lemma listener_waits_only_at_capacity_witness :
  let s := {| Admission.counter := 0; Admission.listener := Admission.AwaitingPermit;
              Admission.active := 2 |} in
  (Z.of_nat (Admission.active s) < 2 ->
   exists e s', (e = Admission.Accept \/ e = Admission.Acquire)
                /\ Admission.step s e = Some s')
  /\ (Admission.listener s = Admission.AwaitingPermit ->
      Admission.step s Admission.Acquire = None ->
      Z.of_nat (Admission.active s) = 2).
Proof.
  intros s.
  apply (listener_waits_only_at_capacity 2
           [Admission.Accept; Admission.Acquire; Admission.Accept] s);
    [lia | reflexivity].
Defined.

(* ===================================================================== *)
(** * WriteMux: order and completion *)
(* ===================================================================== *)

Section WriteBufferFacts.

Import WriteBuffer.

Variable H : Type.
Variable qp_encode : string -> string.

(** While a write is in flight a call only queues its frame and its
    handler. *)
Lemma async_write_command_busy (c : call H) (s : socket_write_buffer H) :
  writing s = true ->
  async_write_command qp_encode c s
  = {| front_handlers := front_handlers s;
       back_handlers := (back_handlers s ++ [handler c])%list;
       front_buf := front_buf s;
       back_buf := (back_buf s ++ [frame qp_encode c])%list;
       writing := true;
       issued := (issued s ++ [c])%list;
       handed := handed s;
       called := called s |}.
Proof. intros Hw. unfold async_write_command, flush. cbn [writing]. now rewrite Hw. Qed.

(** What a state differs by from an earlier one after some calls made
    while a write is in flight. *)
Lemma queue_calls_busy (react : list (call H)) : forall s : socket_write_buffer H,
  writing s = true ->
  let s' := fold_left (fun s c => async_write_command qp_encode c s) react s in
  issued s' = (issued s ++ react)%list
  /\ back_buf s' = (back_buf s ++ map (frame qp_encode) react)%list
  /\ back_handlers s' = (back_handlers s ++ map (@handler H) react)%list
  /\ called s' = called s /\ handed s' = handed s
  /\ front_buf s' = front_buf s /\ front_handlers s' = front_handlers s
  /\ writing s' = true.
Proof.
  induction react as [|c react IH]; intros s Hw; cbn [fold_left map].
  - rewrite !app_nil_r. repeat split. exact Hw.
  - rewrite (async_write_command_busy c s Hw).
    match goal with |- context [fold_left _ react ?s1] =>
      destruct (IH s1 eq_refl) as (E1 & E2 & E3 & E4 & E5 & E6 & E7 & E8) end.
    cbn zeta. rewrite E1, E2, E3, E4, E5, E6, E7, E8.
    cbn [issued back_buf back_handlers called handed front_buf front_handlers].
    rewrite <- !app_assoc. repeat split.
Qed.

Lemma call_handlers_busy (hs : list H) : forall (reacts : list (list (call H))) (s : socket_write_buffer H),
  writing s = true ->
  exists new : list (call H),
    let s' := call_handlers qp_encode hs reacts s in
    issued s' = (issued s ++ new)%list
    /\ back_buf s' = (back_buf s ++ map (frame qp_encode) new)%list
    /\ back_handlers s' = (back_handlers s ++ map (@handler H) new)%list
    /\ called s' = (called s ++ hs)%list /\ handed s' = handed s
    /\ front_buf s' = front_buf s /\ front_handlers s' = front_handlers s
    /\ writing s' = true.
Proof.
  induction hs as [|x hs IH]; intros reacts s Hw; cbn [call_handlers].
  - exists []. cbn [map]. rewrite !app_nil_r. repeat split. exact Hw.
  - unfold call_handler.
    match goal with |- context [fold_left _ ?react ?s1] =>
      destruct (queue_calls_busy react s1 Hw) as (E1 & E2 & E3 & E4 & E5 & E6 & E7 & E8) end.
    cbn zeta in E1, E2, E3, E4, E5, E6, E7, E8.
    cbn [issued back_buf back_handlers called handed front_buf front_handlers] in *.
    match goal with |- context [call_handlers _ hs ?rs ?s1] =>
      destruct (IH rs s1 E8) as (new & F1 & F2 & F3 & F4 & F5 & F6 & F7 & F8) end.
    cbn zeta in F1, F2, F3, F4, F5, F6, F7, F8.
    exists (hd [] reacts ++ new)%list. cbn zeta.
    rewrite F1, F2, F3, F4, F5, F6, F7, F8, E1, E2, E3, E4, E5, E6, E7.
    rewrite !map_app, <- !app_assoc. repeat split.
Qed.

Lemma coherent_init : coherent qp_encode (init H).
Proof. unfold coherent. cbn. repeat split. Qed.

Lemma coherent_async_write_command (c : call H) (s : socket_write_buffer H) :
  coherent qp_encode s -> coherent qp_encode (async_write_command qp_encode c s).
Proof.
  intros (I1 & I2 & I3 & I4 & I5). destruct (writing s) eqn:Hw.
  - rewrite (async_write_command_busy c s Hw). unfold coherent.
    cbn [issued back_buf back_handlers called handed front_buf front_handlers writing].
    split; [now rewrite map_app, app_assoc, I1|].
    split; [now rewrite map_app, <- I2, <- !app_assoc|].
    split; [now rewrite !length_app, I3|].
    split; [exact I4 | exact I5].
  - destruct I5 as (Ef & Eb & El).
    assert (Eh : back_handlers s = []) by (rewrite Eb in I3; now destruct (back_handlers s)).
    assert (Efh : front_handlers s = []) by (rewrite Ef in I4; now destruct (front_handlers s)).
    unfold async_write_command, flush, coherent.
    cbn [issued back_buf back_handlers called handed front_buf front_handlers writing].
    rewrite Hw.
    cbn [issued back_buf back_handlers called handed front_buf front_handlers writing].
    rewrite Eb, Eh, Efh in *. cbn [app] in *. rewrite app_nil_r in I1, I2.
    rewrite concat_app, !map_app. cbn [List.concat map app]. rewrite !app_nil_r, I1, I2.
    repeat split; [discriminate|]. exists (handed s).
    split; [reflexivity | now rewrite <- I2].
Qed.

Lemma coherent_on_wrote (reacts : list (list (call H))) (s : socket_write_buffer H) :
  writing s = true -> coherent qp_encode s -> coherent qp_encode (on_wrote qp_encode reacts s).
Proof.
  intros Hw (I1 & I2 & I3 & I4 & I5). rewrite Hw in I5.
  destruct I5 as (Hne & completed & Eh & El).
  destruct (call_handlers_busy (front_handlers s) reacts s Hw)
    as (new & F1 & F2 & F3 & F4 & F5 & F6 & F7 & F8).
  cbn zeta in F1, F2, F3, F4, F5, F6, F7, F8.
  unfold on_wrote. cbn zeta. cbn [back_handlers].
  set (s1 := call_handlers qp_encode (front_handlers s) reacts s) in *.
  assert (J1 : (List.concat (handed s1) ++ back_buf s1)%list = map (frame qp_encode) (issued s1)).
  { rewrite F5, F2, F1, map_app, app_assoc, I1. reflexivity. }
  assert (J2 : (called s1 ++ back_handlers s1)%list = map (@handler H) (issued s1)).
  { rewrite F4, F3, F1, map_app, <- I2, <- !app_assoc. reflexivity. }
  assert (J3 : List.length (back_buf s1) = List.length (back_handlers s1)).
  { rewrite F2, F3, !length_app, !length_map, I3. reflexivity. }
  assert (J4 : List.length (List.concat (handed s1)) = List.length (called s1)).
  { rewrite F5, F4, Eh, concat_app, !length_app. cbn [List.concat]. rewrite app_nil_r, El, I4.
    reflexivity. }
  destruct (back_handlers s1) as [|h hs] eqn:Ebh.
  - unfold coherent.
    cbn [issued back_buf back_handlers called handed front_buf front_handlers writing].
    assert (Ebb : back_buf s1 = []) by (destruct (back_buf s1); [reflexivity | discriminate J3]).
    rewrite Ebb in *. rewrite app_nil_r in J1, J2. cbn [app]. rewrite !app_nil_r.
    split; [exact J1|]. split; [exact J2|]. repeat split. exact J4.
  - unfold flush, coherent.
    cbn [issued back_buf back_handlers called handed front_buf front_handlers writing].
    rewrite concat_app. cbn [List.concat app]. rewrite !app_nil_r.
    split; [exact J1|]. split; [exact J2|]. split; [reflexivity|]. split; [exact J3|].
    split.
    + intros E. rewrite E in J3. discriminate J3.
    + exists (handed s1). split; [reflexivity | exact J4].
Qed.

Lemma coherent_step (s : socket_write_buffer H) (e : event H) :
  coherent qp_encode s -> coherent qp_encode (step qp_encode s e).
Proof.
  intros Hc. destruct e as [c|reacts]; cbn [step].
  - now apply coherent_async_write_command.
  - destruct (writing s) eqn:Hw; [now apply coherent_on_wrote | exact Hc].
Qed.

Lemma coherent_fold (events : list (event H)) : forall s : socket_write_buffer H,
  coherent qp_encode s -> coherent qp_encode (fold_left (step qp_encode) events s).
Proof.
  induction events as [|e events IH]; intros s Hc; [exact Hc|].
  apply IH. now apply coherent_step.
Qed.

Lemma coherent_run (events : list (event H)) : coherent qp_encode (run qp_encode events).
Proof. apply coherent_fold, coherent_init. Qed.

End WriteBufferFacts.

Section WriteBufferOrder.

Import WriteBuffer.

Variable H : Type.
Variable qp_encode : string -> string.

Lemma firstn_prefix {A : Type} (l rest whole : list A) :
  (l ++ rest)%list = whole -> l = firstn (List.length l) whole.
Proof. intros <-. now rewrite firstn_app, Nat.sub_diag, firstn_all, firstn_O, app_nil_r. Qed.

(** The writes started, less the one in flight, are no more than the
    completions. *)
Lemma handed_fold (events : list (event H)) : forall (s : socket_write_buffer H) (n : nat),
  List.length (handed s) = (n + if writing s then 1 else 0)%nat ->
  exists m,
    (m <= n + completions events)%nat
    /\ List.length (handed (fold_left (step qp_encode) events s))
       = (m + if writing (fold_left (step qp_encode) events s) then 1 else 0)%nat.
Proof.
  induction events as [|e events IH]; intros s n Hn.
  - exists n. split; [cbn; lia | exact Hn].
  - cbn [fold_left]. destruct e as [c|reacts]; cbn [step].
    + destruct (IH (async_write_command qp_encode c s) n) as (m & Hm & E).
      { unfold async_write_command, flush. cbn [writing handed].
        destruct (writing s); cbn [writing handed]; [exact Hn|].
        rewrite length_app. cbn. lia. }
      exists m. split; [exact Hm | exact E].
    + destruct (writing s) eqn:Hw.
      * destruct (call_handlers_busy H qp_encode (front_handlers s) reacts s Hw)
          as (new & _ & _ & _ & _ & F5 & _).
        cbn zeta in F5.
        destruct (IH (on_wrote qp_encode reacts s) (S n)) as (m & Hm & E).
        { unfold on_wrote. cbn zeta. cbn [back_handlers].
          destruct (back_handlers (call_handlers qp_encode (front_handlers s) reacts s));
            unfold flush; cbn [writing handed]; rewrite ?length_app, F5, Hn; cbn; lia. }
        exists m. split; [|exact E]. unfold completions in *. cbn [filter List.length]. lia.
      * destruct (IH s n) as (m & Hm & E); [now rewrite Hw|].
        exists m. split; [|exact E]. unfold completions in *. cbn [filter List.length]. lia.
Qed.

Lemma handed_nonempty_step (s : socket_write_buffer H) (e : event H) :
  coherent qp_encode s ->
  Forall (fun b => b <> []) (handed s) ->
  Forall (fun b => b <> []) (handed (step qp_encode s e)).
Proof.
  intros Hc Hh. destruct e as [c|reacts]; cbn [step].
  - unfold async_write_command, flush. cbn [writing handed back_buf].
    destruct (writing s); cbn [handed]; [exact Hh|].
    apply Forall_app. split; [exact Hh|]. constructor; [|constructor].
    destruct (back_buf s); discriminate.
  - destruct (writing s) eqn:Hw; [|exact Hh].
    pose proof (coherent_on_wrote H qp_encode reacts s Hw Hc) as (_ & _ & _ & _ & I5).
    destruct (call_handlers_busy H qp_encode (front_handlers s) reacts s Hw)
      as (new & _ & _ & _ & _ & F5 & _).
    cbn zeta in F5. revert I5. unfold on_wrote. cbn zeta. cbn [back_handlers].
    destruct (back_handlers (call_handlers qp_encode (front_handlers s) reacts s));
      unfold flush; cbn [writing handed front_buf back_buf]; rewrite F5; intros I5;
      [exact Hh|].
    apply Forall_app. split; [exact Hh|]. constructor; [tauto | constructor].
Qed.

Lemma handed_nonempty_fold (events : list (event H)) : forall s : socket_write_buffer H,
  coherent qp_encode s ->
  Forall (fun b => b <> []) (handed s) ->
  Forall (fun b => b <> []) (handed (fold_left (step qp_encode) events s)).
Proof.
  induction events as [|e events IH]; intros s Hc Hh; [exact Hh|].
  cbn [fold_left]. apply IH; [now apply coherent_step | now apply handed_nonempty_step].
Qed.

End WriteBufferOrder.

(** The buffer at work: [a] is written at once; [b] comes while that write
    is in flight and waits; when the write completes the handler of [a]
    runs and writes [c], which goes out with [b] in the second write; when
    that completes the handlers of [b] and [c] run and the buffer is idle. *)
Lemma write_buffer_at_work :
  let a := {| WriteBuffer.cmd := "Control"; WriteBuffer.data := "Start";
              WriteBuffer.handler := 1%nat |} in
  let b := {| WriteBuffer.cmd := "StdOut"; WriteBuffer.data := "hi";
              WriteBuffer.handler := 2%nat |} in
  let c := {| WriteBuffer.cmd := "StdErr"; WriteBuffer.data := "oops";
              WriteBuffer.handler := 3%nat |} in
  let s := WriteBuffer.run QuotedPrintable.encode
             [WriteBuffer.Write a; WriteBuffer.Write b; WriteBuffer.Wrote [[c]];
              WriteBuffer.Wrote []] in
  WriteBuffer.handed s
  = [["Control 5:Start" ++ String Str.LF ""];
     ["StdOut 2:hi" ++ String Str.LF ""; "StdErr 4:oops" ++ String Str.LF ""]]
  /\ WriteBuffer.called s = [1%nat; 2%nat; 3%nat]
  /\ WriteBuffer.writing s = false.
Proof. repeat split. Qed.

(** X16.  The buffer keeps the frames in the order of the calls.  After
    any sequence of calls and completions, with handlers that may call
    [async_write_command] again while they run, the frames handed to
    [async_write] so far followed by the frames still in [back_buf] are the
    frames of all calls made, each once, in the order of the calls.  When
    no write is in flight nothing is waiting: every frame has been handed
    over. *)
Theorem write_buffer_keeps_call_order :
  forall (H : Type) (qp_encode : string -> string) (events : list (WriteBuffer.event H)),
    let s := WriteBuffer.run qp_encode events in
    (List.concat (WriteBuffer.handed s) ++ WriteBuffer.back_buf s)%list
    = map (WriteBuffer.frame qp_encode) (WriteBuffer.issued s)
    /\ (WriteBuffer.writing s = false ->
        List.concat (WriteBuffer.handed s)
        = map (WriteBuffer.frame qp_encode) (WriteBuffer.issued s)).
Proof.
  intros H qp_encode events s.
  destruct (coherent_run H qp_encode events) as (I1 & _ & _ & _ & I5). fold s in I1, I5.
  split; [exact I1|]. intros Hw. rewrite Hw in I5. destruct I5 as (_ & Eb & _).
  now rewrite Eb, app_nil_r in I1.
Qed.

(** X17.  Every handler is called once, after the write that carried its
    frame has completed.  At any time the handlers called so far are the
    handlers of the first [n] calls, in the order of the calls, where [n]
    is the number of frames in the writes that have completed; the frames
    of those writes are the frames of the same [n] calls.  When no write is
    in flight every handler has been called. *)
Theorem write_buffer_calls_handlers_after_write :
  forall (H : Type) (qp_encode : string -> string) (events : list (WriteBuffer.event H)),
    let s := WriteBuffer.run qp_encode events in
    exists completed : list (list string),
      WriteBuffer.handed s
      = (completed ++ if WriteBuffer.writing s then [WriteBuffer.front_buf s] else [])%list
      /\ WriteBuffer.called s
         = map (@WriteBuffer.handler H)
             (firstn (List.length (List.concat completed)) (WriteBuffer.issued s))
      /\ List.concat completed
         = map (WriteBuffer.frame qp_encode)
             (firstn (List.length (List.concat completed)) (WriteBuffer.issued s))
      /\ (WriteBuffer.writing s = false ->
          WriteBuffer.called s = map (@WriteBuffer.handler H) (WriteBuffer.issued s)).
Proof.
  intros H qp_encode events s.
  destruct (coherent_run H qp_encode events) as (I1 & I2 & _ & _ & I5).
  fold s in I1, I2, I5.
  assert (Hc : forall n, n = List.length (WriteBuffer.called s) ->
             WriteBuffer.called s
             = map (@WriteBuffer.handler H) (firstn n (WriteBuffer.issued s))).
  { intros n ->. rewrite <- firstn_map. now apply (firstn_prefix _ _ _ I2). }
  destruct (WriteBuffer.writing s) eqn:Hw.
  - destruct I5 as (_ & completed & Eh & El). exists completed.
    split; [exact Eh|]. split; [now apply Hc|]. split; [|discriminate].
    rewrite <- firstn_map. rewrite Eh, concat_app, <- app_assoc in I1.
    now apply (firstn_prefix _ _ _ I1).
  - destruct I5 as (Ef & Eb & El). exists (WriteBuffer.handed s).
    rewrite app_nil_r. split; [reflexivity|]. split; [now apply Hc|].
    rewrite Eb, app_nil_r in I1.
    assert (Hlen : List.length (List.concat (WriteBuffer.handed s))
                   = List.length (WriteBuffer.issued s))
      by (rewrite I1; apply length_map).
    split.
    + now rewrite Hlen, firstn_all.
    + intros _. rewrite (Hc _ El), Hlen, firstn_all. reflexivity.
Qed.

(** X18.  The buffer has at most one write in flight and never starts an
    empty one: the writes it has started are no more than the completions
    it has seen, plus the one in flight if there is one, and each carries
    at least one frame. *)
Theorem write_buffer_one_write_in_flight :
  forall (H : Type) (qp_encode : string -> string) (events : list (WriteBuffer.event H)),
    let s := WriteBuffer.run qp_encode events in
    (List.length (WriteBuffer.handed s)
     <= WriteBuffer.completions events + if WriteBuffer.writing s then 1 else 0)%nat
    /\ Forall (fun b => b <> []) (WriteBuffer.handed s).
Proof.
  intros H qp_encode events s. split.
  - destruct (handed_fold H qp_encode events (WriteBuffer.init H) 0 eq_refl) as (m & Hm & E).
    fold (WriteBuffer.run qp_encode events) in E. fold s in E. rewrite E. lia.
  - apply handed_nonempty_fold; [apply coherent_init | constructor].
Qed.

(* ===================================================================== *)
(** * The compiler list *)
(* ===================================================================== *)

Section VersionFacts.

Import Versions.

Variable render : Config.compiler_trait -> string -> string.

Lemma version_loop_replied commands : forall env s s',
  version_loop render commands env s = (s', Replied) ->
  spawned s' = (spawned s ++ map Config.version_command (filter listed commands))%list
  /\ versions s'
     = (versions s ++ flat_map (entry render) (combine (filter listed commands) env))%list
  /\ frames s'
     = (frames s ++ [{| Runner.command := "VersionResult";
                        Runner.payload := "[" ++ Str.join "," (versions s') ++ "]" |}])%list
  /\ (List.length (filter listed commands) <= List.length env)%nat.
Proof.
  induction commands as [|c commands IH]; intros env s s' Hr; cbn [version_loop] in Hr.
  - injection Hr as <-. cbn. rewrite !app_nil_r. split; [reflexivity | split; [reflexivity | split; [reflexivity | cbn [List.length] in *; lia]]].
  - cbn [filter].
    destruct (Config.version_command c) as [|a0 args] eqn:Ev.
    { assert (El : listed c = false) by (unfold listed; now rewrite Ev).
      rewrite El. exact (IH _ _ _ Hr). }
    destruct (Config.displayable c) eqn:Ed; cbn [negb] in Hr.
    2:{ assert (El : listed c = false) by (unfold listed; now rewrite Ev, Ed).
        rewrite El. exact (IH _ _ _ Hr). }
    assert (El : listed c = true) by (unfold listed; now rewrite Ev, Ed).
    rewrite El.
    destruct env as [|[|status out] env]; try discriminate Hr.
    cbn [map combine flat_map List.length]. unfold entry at 1. cbn [fst snd].
    assert (Hstep : forall vs,
               version_loop render commands env
                 {| spawned := (spawned s ++ [a0 :: args])%list;
                    versions := (versions s ++ vs)%list; frames := frames s |}
               = (s', Replied) ->
               spawned s'
               = (spawned s ++ Config.version_command c
                              :: map Config.version_command (filter listed commands))%list
               /\ versions s'
                  = (versions s
                       ++ vs ++ flat_map (entry render) (combine (filter listed commands) env))%list
               /\ frames s'
                  = (frames s ++ [{| Runner.command := "VersionResult";
                                     Runner.payload := "[" ++ Str.join "," (versions s') ++ "]" |}])%list
               /\ (S (List.length (filter listed commands)) <= S (List.length env))%nat).
    { intros vs Hvs. destruct (IH _ _ _ Hvs) as (E1 & E2 & E3 & E4).
      cbn [spawned versions frames] in E1, E2, E3.
      split; [now rewrite E1, Ev, <- app_assoc|].
      split; [now rewrite E2, <- app_assoc|].
      split; [exact E3 | lia]. }
    destruct (negb (Runner.WIFEXITED status) || negb (Runner.WEXITSTATUS status =? 0))%bool.
    + apply (Hstep []). now rewrite app_nil_r.
    + destruct (getline out) as [ver|].
      * apply (Hstep [render c ver]). exact Hr.
      * apply (Hstep []). now rewrite app_nil_r.
Qed.

End VersionFacts.

(** X19.  The reply to [Version].  A compiler is listed when its version
    command is not empty and it is displayable.  When [version_sender]
    gets to its reply it has spawned the version commands of the listed
    compilers, each once, in the order of the catalogue, and no other; and
    it has written one frame, [VersionResult], whose payload is the entries
    joined by commas between square brackets: one entry, in the same order,
    for each listed compiler whose child exited with status 0 and wrote
    something to its standard output, made from the compiler and the first
    line of that output.  A child that fails or prints nothing costs its
    compiler its entry and nothing else. *)
Theorem version_reply :
  forall (render : Config.compiler_trait -> string -> string)
         (config : Config.server_config) (env : list Versions.child)
         (s : Versions.sender),
    Versions.version_sender render config env = (s, Versions.Replied) ->
    let listed := filter Versions.listed (Config.compilers config) in
    Versions.spawned s = map Config.version_command listed
    /\ Versions.frames s
       = [{| Runner.command := "VersionResult";
             Runner.payload :=
               "[" ++ Str.join "," (flat_map (Versions.entry render) (combine listed env))
                   ++ "]" |}].
Proof.
  intros render config env s Hr listed.
  destruct (version_loop_replied render _ _ _ _ Hr) as (E1 & E2 & E3 & _).
  cbn [Versions.fresh Versions.spawned Versions.versions Versions.frames app] in E1, E2, E3.
  split; [exact E1|]. now rewrite E3, E2.
Qed.

Lemma version_reply_witness :
  let render := fun (c : Config.compiler_trait) (ver : string) =>
                  "{" ++ Config.name c ++ ":" ++ ver ++ "}" in
  let clang :=
    {| Config.name := "clang"; Config.version_command := ["clang"; "--version"];
       Config.compile_command := ["clang"; "prog.c"]; Config.run_command := ["./a.out"];
       Config.output_file := "prog.c"; Config.switches := [];
       Config.jail_name := "jail"; Config.displayable := true |} in
  let hidden :=
    {| Config.name := "hidden"; Config.version_command := ["hidden"; "-v"];
       Config.compile_command := []; Config.run_command := [];
       Config.output_file := ""; Config.switches := [];
       Config.jail_name := "jail"; Config.displayable := false |} in
  let config :=
    {| Config.system := Config.system Sample.config; Config.jails := Config.jails Sample.config;
       Config.compilers := [Sample.gcc; hidden; clang];
       Config.all_switches := [] |} in
  let env := [Versions.Exits 0 ("gcc 4.8" ++ String Str.LF "Copyright");
              Versions.Exits 256 "clang 3.3"] in
  Versions.spawned (fst (Versions.version_sender render config env))
  = [["gcc"; "--version"]; ["clang"; "--version"]]
  /\ Versions.frames (fst (Versions.version_sender render config env))
     = [{| Runner.command := "VersionResult"; Runner.payload := "[{gcc:gcc 4.8}]" |}].
Proof.
  intros render clang hidden config env.
  exact (version_reply render config env _ eq_refl).
Defined.

(* ===================================================================== *)
(** * The grammar: what a frame taken off the buffer looks like *)
(* ===================================================================== *)

Lemma take_while_split p s :
  s = fst (take_while p s) ++ snd (take_while p s)
  /\ Str.forallb p (fst (take_while p s)) = true
  /\ (snd (take_while p s) = ""
      \/ exists c r, snd (take_while p s) = String c r /\ p c = false).
Proof.
  induction s as [|c s IH]; cbn [take_while].
  - repeat split. now left.
  - destruct (p c) eqn:Hc.
    + destruct (take_while p s) as [a r]. cbn [fst snd] in *.
      destruct IH as (E & Ha & Hr). repeat split.
      * cbn [append]. now rewrite <- E.
      * cbn [Str.forallb]. now rewrite Hc, Ha.
      * exact Hr.
    + cbn [fst snd append Str.forallb]. repeat split. right. now exists c, s.
Qed.

Lemma digits_split s : forall acc,
  exists ds,
    s = ds ++ snd (digits s acc)
    /\ Str.forallb Str.is_digit ds = true
    /\ digits ds acc = (fst (digits s acc), "").
Proof.
  induction s as [|c s IH]; intros acc; cbn [digits].
  - exists "". now repeat split.
  - destruct (Str.is_digit c) eqn:Hc.
    + destruct (IH (10 * acc + Str.digit_value c)%N) as (ds & E & Hd & Hv).
      exists (String c ds). cbn [append Str.forallb digits]. rewrite Hc.
      repeat split; [now rewrite <- E | exact Hd | exact Hv].
    + exists "". now repeat split.
Qed.

(** What [qi::int_] consumed is a number on its own. *)
Lemma qi_int_split s v r :
  qi_int s = Some (v, r) -> exists num, s = num ++ r /\ qi_int num = Some (v, "").
Proof.
  assert (Haux : forall neg s1,
             match s1 with
             | "" => None
             | String c _ =>
                 if Str.is_digit c then
                   let (n, rest) := digits s1 0 in
                   let v := if neg : bool then - Z.of_N n else Z.of_N n in
                   if ((INT_MIN <=? v) && (v <=? INT_MAX))%bool then Some (v, rest) else None
                 else None
             end = Some (v, r) ->
             exists num,
               s1 = num ++ r
               /\ match num with
                  | "" => None
                  | String c _ =>
                      if Str.is_digit c then
                        let (n, rest) := digits num 0 in
                        let v := if neg : bool then - Z.of_N n else Z.of_N n in
                        if ((INT_MIN <=? v) && (v <=? INT_MAX))%bool
                        then Some (v, rest) else None
                      else None
                  end = Some (v, "")).
  { intros neg s1 H. destruct s1 as [|c s1]; [discriminate|].
    destruct (Str.is_digit c) eqn:Hc; [|discriminate].
    destruct (digits_split (String c s1) 0) as (ds & E & Hd & Hv).
    assert (Hshort : (String.length (snd (digits (String c s1) 0)) <= String.length s1)%nat)
      by (cbn [digits]; rewrite Hc; apply digits_length).
    destruct (digits (String c s1) 0) as [n rest]. cbn [fst snd] in *. cbv zeta in H.
    destruct (andb _ _) eqn:Hr; [|discriminate]. injection H as <- <-.
    exists ds. split; [exact E|].
    destruct ds as [|d ds];
      [cbn [append] in E; subst rest; cbn [String.length] in Hshort; lia|].
    cbn [append] in E. injection E as <- _. rewrite Hc, Hv. cbv zeta. now rewrite Hr. }
  unfold qi_int. destruct s as [|c s]; [discriminate|].
  destruct (Ascii.eqb c "-") eqn:Em.
  { intros H. destruct (Haux true s H) as (num & -> & Hn).
    exists (String c num). split; [reflexivity|]. now rewrite Em. }
  destruct (Ascii.eqb c "+") eqn:Ep.
  { intros H. destruct (Haux false s H) as (num & -> & Hn).
    exists (String c num). split; [reflexivity|]. now rewrite Em, Ep. }
  intros H. destruct (Haux false (String c s) H) as (num & E & Hn).
  exists num. split; [exact E|].
  destruct num as [|d num]; [discriminate Hn|]. cbn [append] in E. injection E as <- _.
  now rewrite Em, Ep.
Qed.

Lemma qi_repeat_char_split n : forall s a r,
  qi_repeat_char n s = Some (a, r) -> s = a ++ r /\ String.length a = n.
Proof.
  induction n as [|n IH]; intros s a r; cbn [qi_repeat_char].
  - intros [= <- <-]. now split.
  - destruct s as [|c s]; [discriminate|].
    destruct (qi_repeat_char n s) as [[a' r']|] eqn:E; [|discriminate].
    intros [= <- <-]. destruct (IH _ _ _ E) as [-> <-]. now split.
Qed.

Lemma qi_eol_split s r :
  qi_eol s = Some r ->
  exists eol, s = eol ++ r
              /\ (eol = String Str.CR (String Str.LF "") \/ eol = String Str.LF ""
                  \/ eol = String Str.CR "").
Proof.
  unfold qi_eol. destruct s as [|c s]; [discriminate|].
  destruct (Ascii.eqb_spec c Str.CR) as [->|_].
  - destruct s as [|c' s'].
    + intros [= <-]. exists (String Str.CR ""). split; [reflexivity | tauto].
    + destruct (Ascii.eqb_spec c' Str.LF) as [->|_]; intros [= <-].
      * exists (String Str.CR (String Str.LF "")). split; [reflexivity | tauto].
      * exists (String Str.CR ""). split; [reflexivity | tauto].
  - destruct (Ascii.eqb_spec c Str.LF) as [->|_]; [|discriminate].
    intros [= <-]. exists (String Str.LF ""). split; [reflexivity | tauto].
Qed.

(** X20.  The grammar takes nothing off the buffer that is not a frame.
    Whenever it yields a command, a payload and a rest, the buffer is the
    command, a non-empty run of white space, a decimal number that fits an
    [int] (a sign is allowed), a colon, the payload, an end of line (CR LF,
    LF or CR) and the rest; the command is not empty and free of white
    space, and the payload is exactly as long as the number says (empty
    when the number is negative). *)
Theorem decoder_takes_only_frames :
  forall (buf command payload rest : string),
    parse_frame buf = Some (command, payload, rest) ->
    exists (ws num eol : string) (len : Z),
      buf = command ++ ws ++ num ++ ":" ++ payload ++ eol ++ rest
      /\ well_formed_command command
      /\ ws <> "" /\ Str.forallb Str.is_space ws = true
      /\ qi_int num = Some (len, "")
      /\ String.length payload = Z.to_nat len
      /\ (eol = String Str.CR (String Str.LF "") \/ eol = String Str.LF ""
          \/ eol = String Str.CR "").
Proof.
  intros buf command payload rest. unfold parse_frame, qi_plus_nonspace.
  destruct (take_while_split (fun c => negb (Str.is_space c)) buf) as (E1 & Hc & Hr1).
  destruct (take_while (fun c => negb (Str.is_space c)) buf) as [tok r1]. cbn [fst snd] in *.
  destruct (Str.empty tok) eqn:Etok; [discriminate|].
  unfold qi_star_space.
  destruct (take_while_split Str.is_space r1) as (E2 & Hws & _).
  destruct (take_while Str.is_space r1) as [ws r2] eqn:Etw. cbn [fst snd] in *.
  destruct (qi_int r2) as [[len s3]|] eqn:Ei; [|discriminate].
  destruct s3 as [|colon s4]; [discriminate|].
  destruct (Ascii.eqb_spec colon ":") as [->|_]; [|discriminate].
  destruct (qi_repeat_char (Z.to_nat len) s4) as [[d s5]|] eqn:Er; [|discriminate].
  destruct (qi_eol s5) as [rest'|] eqn:Ee; [|discriminate].
  intros [= <- <- <-].
  destruct (qi_int_split _ _ _ Ei) as (num & E3 & Hnum).
  destruct (qi_repeat_char_split _ _ _ _ Er) as [E4 Hlen].
  destruct (qi_eol_split _ _ Ee) as (eol & E5 & Heol).
  exists ws, num, eol, len.
  split; [now rewrite E1, E2, E3, E4, E5|].
  split; [split; [now destruct tok | exact Hc]|].
  split; [|repeat split; assumption].
  intros ->. cbn [append] in E2. subst r2.
  destruct Hr1 as [->|(c & r & -> & Hsp)]; [discriminate Ei|].
  apply negb_false_iff in Hsp. cbn [take_while] in Etw. rewrite Hsp in Etw.
  destruct (take_while Str.is_space r); discriminate Etw.
Qed.

Lemma decoder_takes_only_frames_witness :
  exists (ws num eol : string) (len : Z),
    "StdIn  +5:hello" ++ String Str.CR "Control 3:run"
    = "StdIn" ++ ws ++ num ++ ":" ++ "hello" ++ eol ++ "Control 3:run"
    /\ well_formed_command "StdIn"
    /\ ws <> "" /\ Str.forallb Str.is_space ws = true
    /\ qi_int num = Some (len, "")
    /\ String.length "hello" = Z.to_nat len
    /\ (eol = String Str.CR (String Str.LF "") \/ eol = String Str.LF ""
        \/ eol = String Str.CR "").
Proof.
  exact (decoder_takes_only_frames ("StdIn  +5:hello" ++ String Str.CR "Control 3:run")
           "StdIn" "hello" "Control 3:run" eq_refl).
Defined.

(* ===================================================================== *)
(** * ProgramRunner: nothing but protocol frames *)
(* ===================================================================== *)

Section ProtocolFrames.

Import Runner.

Variable strsignal : Z -> string.

Lemma is_named_in names n p :
  In n names -> is_named names {| command := n; payload := p |} = true.
Proof.
  intros H. unfold is_named. apply existsb_exists. exists n.
  split; [exact H | apply String.eqb_refl].
Qed.

Lemma is_named_incl names names' f :
  incl names names' -> is_named names f = true -> is_named names' f = true.
Proof.
  unfold is_named. intros Hi H. apply existsb_exists in H. destruct H as (n & Hn & E).
  apply existsb_exists. exists n. split; [now apply Hi | exact E].
Qed.

Lemma terminate_named names r :
  In "ExitCode" names -> In "Signal" names -> In "Control" names ->
  Forall (fun f => is_named names f = true) (frames r) ->
  Forall (fun f => is_named names f = true) (frames (final (terminate strsignal r))).
Proof.
  intros He Hs Hc H. unfold terminate.
  destruct (WIFEXITED (laststatus r)); cbn [emit laststatus];
    destruct (WIFSIGNALED (laststatus r)); cbn [emit frames final];
    repeat (apply Forall_app; split); try exact H;
    repeat constructor; now apply is_named_in.
Qed.

Lemma run_commands_named names commands received : forall idx env r,
  In "ExitCode" names -> In "Signal" names -> In "Control" names ->
  Forall (fun c => In (stdout_command c) names /\ In (stderr_command c) names) commands ->
  Forall (fun f => is_named names f = true) (frames r) ->
  Forall (fun f => is_named names f = true)
         (frames (final (run_commands strsignal idx commands received env r))).
Proof.
  induction commands as [|current commands IH]; intros idx env r He Hs Hc Hcmds Hr;
    cbn [run_commands].
  - now apply terminate_named.
  - inversion Hcmds as [|? ? [Ho Hx] Hcmds']; subst.
    destruct env as [|[|events] env]; [exact Hr ..|].
    destruct (grows_phase idx current received events r) as (_ & out & Hf & Hn & _).
    assert (Hout : forall r', frames r' = (frames r ++ out)%list ->
                              Forall (fun f => is_named names f = true) (frames r')).
    { intros r' ->. apply Forall_app. split; [exact Hr|].
      eapply Forall_impl; [|exact Hn]. intros f. apply is_named_incl.
      intros n [<-|[<-|[]]]; assumption. }
    destruct (run_phase idx current events (start_phase idx current received r) installed)
      as [r' status [|]|r']; cbn [phase_runner] in Hf.
    + apply Hout. exact Hf.
    + destruct (negb (WIFEXITED status) || negb (WEXITSTATUS status =? 0))%bool.
      * apply terminate_named; try assumption. apply Hout. exact Hf.
      * apply IH; try assumption. apply Hout. exact Hf.
    + apply Hout. exact Hf.
Qed.

End ProtocolFrames.

(** X21.  Whatever happens to the children, the runner writes nothing but
    frames of the protocol: every frame it writes is named [Control],
    [CompilerMessageS], [CompilerMessageE], [StdOut], [StdErr], [ExitCode]
    or [Signal], and if it writes anything at all the first frame is
    [Control: Start].  This holds for every run, also for those that stop
    before [Control: Finish]. *)
Theorem runner_writes_only_protocol_frames :
  forall (strsignal : Z -> string) (config : Config.server_config)
         (target_compiler : Config.compiler_trait) (received : UMap.t)
         (env : list Runner.phase_env) (r : Runner.result),
    Runner.program_runner strsignal config target_compiler received env = Some r ->
    Forall (fun f => Runner.is_named
                       ["Control"; "CompilerMessageS"; "CompilerMessageE";
                        "StdOut"; "StdErr"; "ExitCode"; "Signal"] f = true)
           (Runner.frames (Runner.final r))
    /\ (Runner.frames (Runner.final r) = []
        \/ exists tail,
             Runner.frames (Runner.final r)
             = {| Runner.command := "Control"; Runner.payload := "Start" |} :: tail).
Proof.
  intros strsignal config target_compiler received env r Hr.
  unfold Runner.program_runner in Hr.
  destruct (Config.assoc (Config.jail_name target_compiler) (Config.jails config))
    as [jail|]; [|discriminate].
  destruct (Runner.build_commands (Config.all_switches config) jail target_compiler received)
    as [commands|] eqn:Hb; injection Hr as <-.
  2:{ split; [constructor | now left]. }
  destruct (build_commands_shape _ _ _ _ _ Hb) as (a1 & a2 & ->). split.
  - apply run_commands_named; cbn; try tauto.
    + repeat constructor; cbn; tauto.
    + repeat constructor.
  - right.
    match goal with |- context [Runner.run_commands _ _ ?cs ?rc _ ?r0] =>
      destruct (run_commands_extends strsignal cs rc 0%nat env r0) as (tail & Ht) end.
    exists tail. exact Ht.
Qed.

Lemma runner_writes_only_protocol_frames_witness :
  Forall (fun f => Runner.is_named
                     ["Control"; "CompilerMessageS"; "CompilerMessageE";
                      "StdOut"; "StdErr"; "ExitCode"; "Signal"] f = true)
    [ {| Runner.command := "Control"; Runner.payload := "Start" |};
      {| Runner.command := "CompilerMessageS"; Runner.payload := "note" |} ]
  /\ ([ {| Runner.command := "Control"; Runner.payload := "Start" |};
        {| Runner.command := "CompilerMessageS"; Runner.payload := "note" |} ] = []
      \/ exists tail,
           [ {| Runner.command := "Control"; Runner.payload := "Start" |};
             {| Runner.command := "CompilerMessageS"; Runner.payload := "note" |} ]
           = {| Runner.command := "Control"; Runner.payload := "Start" |} :: tail).
Proof.
  exact (runner_writes_only_protocol_frames Sample.strsignal Sample.config Sample.gcc []
           [Runner.Runs [Runner.EvChunk false "note"; Runner.EvTimer]] _ eq_refl).
Defined.

(* ===================================================================== *)
(** * From the peer's calls to [received] *)
(* ===================================================================== *)

Lemma accumulated_encoded qp_encode qp_decode k (msgs : list (string * string)) :
  (forall s, qp_decode (qp_encode s) = s) ->
  Bridge.accumulated qp_decode k (map (fun m => (fst m, qp_encode (snd m))) msgs)
  = Bridge.accumulated (fun s => s) k msgs.
Proof.
  intros Hinv. induction msgs as [|[c p] msgs IH]; [reflexivity|].
  cbn [map fst snd Bridge.accumulated]. rewrite IH, Hinv. reflexivity.
Qed.

(** X22.  From one end to the other.  A peer that sends its messages with
    the encoder of [async_write_command] (any decoder that undoes the
    encoder will do) is understood whatever way the network cuts the bytes
    into reads: while the bridge keeps reading, what it holds under a
    command name is the payloads the peer sent under that name, byte for
    byte, joined in the order they were sent.  The two file commands are
    kept elsewhere, and nothing of a frame still incomplete is used. *)
Theorem received_is_what_the_peer_sent :
  forall (qp_encode qp_decode : string -> string) (config : Config.server_config)
         (msgs : list (string * string)) (chunks : list string)
         (b : Bridge.bridge) (k : string),
    (forall s, qp_decode (qp_encode s) = s) ->
    Forall (fun m => well_formed_command (fst m)
                     /\ Z.of_N (Str.len (qp_encode (snd m))) <= INT_MAX) msgs ->
    Reads.bytes chunks
    = stream (map (fun m => (fst m, qp_encode (snd m))) msgs) ->
    Bridge.compiler_bridge qp_decode config Bridge.init (Reads.arrive chunks)
    = Bridge.Reading b ->
    k <> "SourceFileName" -> k <> "Source" ->
    UMap.at_ k (Bridge.received b) = Bridge.accumulated (fun s => s) k msgs
    /\ Bridge.buf b = "".
Proof.
  intros qp_encode qp_decode config msgs chunks b k Hinv Hmsgs Hbytes Hb Hk1 Hk2.
  assert (Hfs : Forall readable (map (fun m => (fst m, qp_encode (snd m))) msgs)).
  { apply Forall_map. eapply Forall_impl; [|exact Hmsgs]. intros [c p] H. exact H. }
  pose proof (compiler_bridge_chunks qp_decode config chunks Bridge.init "" _ Hfs Hbytes
                eq_refl) as Hwhole.
  change (Bridge.with_buf Bridge.init "") with Bridge.init in Hwhole.
  rewrite Hwhole in Hb.
  destruct (Bridge.on_frames qp_decode config Bridge.init
              (map (fun m => (fst m, qp_encode (snd m))) msgs)) as [b'| | | |] eqn:Hf;
    try discriminate Hb.
  injection Hb as <-. cbn [Bridge.with_buf Bridge.received Bridge.buf].
  split; [|reflexivity].
  rewrite (received_accumulates qp_decode config k _ _ _ Hk1 Hk2 Hf).
  cbn [Bridge.init Bridge.received UMap.at_ UMap.find UMap.empty append].
  now apply accumulated_encoded.
Qed.

Lemma received_is_what_the_peer_sent_witness :
  UMap.at_ "StdIn"
    [("StdIn", "a=b c" ++ String Str.LF "d"); ("Control", "compiler=gcc")]
  = Bridge.accumulated (fun s => s) "StdIn"
      [("StdIn", "a=b "); ("Control", "compiler=gcc"); ("StdIn", "c" ++ String Str.LF "d")]
  /\ "" = "".
Proof.
  apply (received_is_what_the_peer_sent QuotedPrintable.encode QuotedPrintable.decode
           Sample.config
           [("StdIn", "a=b "); ("Control", "compiler=gcc"); ("StdIn", "c" ++ String Str.LF "d")]
           ["StdIn 8:a=3D"; "b=20" ++ String Str.LF "Control 14:compiler=3Dgcc";
            String Str.LF "StdIn 5:c=0Ad" ++ String Str.LF ""]
           {| Bridge.received :=
                [("StdIn", "a=b c" ++ String Str.LF "d"); ("Control", "compiler=gcc")];
              Bridge.sources := []; Bridge.current_filename := ""; Bridge.buf := "" |}
           "StdIn").
  - exact qp_decode_encode.
  - repeat constructor; try discriminate; vm_compute; discriminate.
  - reflexivity.
  - reflexivity.
  - discriminate.
  - discriminate.
Defined.

(* ===================================================================== *)
(** * OutputLimiter: no warning without cause *)
(* ===================================================================== *)

Section QuietFacts.

Import Runner Warnings.

Variable strsignal : Z -> string.
Variable soft : N.

Lemma justified_forwarder_kill finished k r :
  snd k <> Posix.SIGXFSZ -> justified soft r -> justified soft (forwarder_kill finished k r).
Proof.
  intros Hk (H1 & H2 & H3). unfold forwarder_kill. destruct finished; [now repeat split|].
  repeat split; cbn [limitter kills]; try assumption.
  apply Forall_app. split; [exact H3|]. constructor; [|constructor]. intros E. congruence.
Qed.

Lemma justified_forward_chunk current from_stderr bytes finished r :
  (Str.len bytes <= Limiter.SIZE_MAX)%N ->
  justified soft r -> justified soft (forward_chunk current from_stderr bytes finished r).
Proof.
  intros Hlen (H1 & H2 & H3).
  destruct (forward_chunk_spec current from_stderr bytes finished r) as (_ & _ & _ & Hl & Hk).
  unfold justified. rewrite Hl, Hk.
  assert (Hcur : Limiter.current (fst (Limiter.add (Str.len bytes) (limitter r)))
                 = N.min Limiter.SIZE_MAX (Limiter.current (limitter r) + Str.len bytes))
    by (apply limiter_add_current; exact Hlen).
  split; [rewrite Hcur; lia|]. split; [exact H2|].
  apply Forall_app. split.
  - eapply Forall_impl; [|exact H3]. intros k Hk' E. specialize (Hk' E). rewrite Hcur. lia.
  - rewrite limiter_add_signal. destruct (Limiter.proc (limitter r)) as [p|]; [|constructor].
    cbn zeta.
    destruct (N.ltb_spec (Limiter.hard_limit (limitter r))
                (Limiter.current (fst (Limiter.add (Str.len bytes) (limitter r))))).
    + destruct finished; repeat constructor. cbn. discriminate.
    + destruct (N.ltb_spec (Limiter.soft_limit (limitter r))
                  (Limiter.current (fst (Limiter.add (Str.len bytes) (limitter r)))));
        [|constructor].
      destruct finished; repeat constructor. intros _. now rewrite <- H2.
Qed.

Lemma justified_on_event idx current r f e :
  sized (frames (fst (fst (on_event idx current r f e)))) = true ->
  justified soft r -> justified soft (fst (fst (on_event idx current r f e))).
Proof.
  destruct e as [|from_stderr bytes|from_stderr|from_stderr|status|]; cbn [on_event].
  - destruct (stdin_closed f); auto.
  - destruct (output_closed from_stderr f); [auto|]. cbn [fst]. intros Hs.
    apply justified_forward_chunk.
    destruct (forward_chunk_spec current from_stderr bytes (finished f) r) as (Hf & _).
    rewrite Hf, sized_app in Hs. apply andb_prop in Hs. destruct Hs as [_ Hs].
    cbn [sized forallb chunk_frame payload] in Hs. rewrite andb_true_r in Hs.
    now apply N.leb_le.
  - destruct (output_closed from_stderr f); auto.
  - destruct (output_posted from_stderr f); auto.
  - destruct (reaped f); [auto|]. destruct status; auto.
  - destruct (timer f); cbn [fst]; intros _; try (apply justified_forwarder_kill; discriminate);
      auto.
Qed.

Lemma justified_run_phase idx current events : forall r f,
  sized (frames (phase_runner (run_phase idx current events r f))) = true ->
  justified soft r -> justified soft (phase_runner (run_phase idx current events r f)).
Proof.
  induction events as [|e events IH]; intros r f; cbn [run_phase]; [auto|].
  pose proof (justified_on_event idx current r f e) as Hj.
  destruct (on_event idx current r f e) as [[r' f'] at_join]. cbn [fst] in Hj.
  destruct (at_join && all_closed f')%bool.
  - destruct (reaped f'); cbn [phase_runner]; auto.
  - intros Hs Hr. apply IH; [exact Hs|]. apply Hj; [|exact Hr].
    destruct (grows_run_phase idx current events r' f') as (_ & out & Hf & _).
    rewrite Hf, sized_app in Hs. apply andb_prop in Hs. tauto.
Qed.

Lemma justified_terminate r :
  justified soft r -> justified soft (final (terminate strsignal r)).
Proof.
  intros H. unfold terminate.
  destruct (WIFEXITED (laststatus r)); cbn [emit laststatus];
    destruct (WIFSIGNALED (laststatus r)); exact H.
Qed.

Lemma justified_run_commands commands received : forall idx env r,
  sized (frames (final (run_commands strsignal idx commands received env r))) = true ->
  justified soft r ->
  justified soft (final (run_commands strsignal idx commands received env r)).
Proof.
  induction commands as [|current commands IH]; intros idx env r Hs Hr; cbn [run_commands] in *.
  - now apply justified_terminate.
  - destruct env as [|[|events] env]; try exact Hr.
    pose proof (justified_run_phase idx current events
                  (start_phase idx current received r) installed) as Hj.
    assert (Hstart : justified soft (start_phase idx current received r)) by exact Hr.
    destruct (run_phase idx current events (start_phase idx current received r) installed)
      as [r' status [|]|r']; cbn [phase_runner] in Hj.
    + apply (Hj Hs Hstart).
    + assert (Hr' : sized (frames r') = true).
      { destruct (negb (WIFEXITED status) || negb (WEXITSTATUS status =? 0))%bool.
        - destruct (terminate_extends strsignal (with_status status r')) as (tail & Ht & _).
          rewrite Ht in Hs. cbn [with_status frames] in Hs.
          rewrite sized_app in Hs. apply andb_prop in Hs. tauto.
        - destruct (run_commands_extends strsignal commands received (S idx) env
                      (with_status status r')) as (tail & Ht).
          rewrite Ht in Hs. cbn [with_status frames] in Hs.
          rewrite sized_app in Hs. apply andb_prop in Hs. tauto. }
      assert (Hw : justified soft (with_status status r')) by exact (Hj Hr' Hstart).
      destruct (negb (WIFEXITED status) || negb (WEXITSTATUS status =? 0))%bool.
      * now apply justified_terminate.
      * now apply IH.
    + apply (Hj Hs Hstart).
Qed.

End QuietFacts.

(** X23.  No warning without cause.  SIGXFSZ is sent by the limiter
    alone, and only when the count has passed [output_limit_warn]: a run at
    whose end the count is within that limit has sent no SIGXFSZ to any
    child.  (Every frame is taken to have a payload whose length a
    [size_t] holds.) *)
Theorem no_sigxfsz_within_the_warn_limit :
  forall (strsignal : Z -> string) (config : Config.server_config)
         (target_compiler : Config.compiler_trait) (received : UMap.t)
         (jail : Config.jail_config) (env : list Runner.phase_env) (r : Runner.result),
    Config.assoc (Config.jail_name target_compiler) (Config.jails config) = Some jail ->
    Runner.program_runner strsignal config target_compiler received env = Some r ->
    Runner.sized (Runner.frames (Runner.final r)) = true ->
    (Limiter.current (Runner.limitter (Runner.final r)) <= Config.output_limit_warn jail)%N ->
    Forall (fun k => snd k <> Posix.SIGXFSZ) (Runner.kills (Runner.final r)).
Proof.
  intros strsignal config target_compiler received jail env r Hj Hr Hs Hq.
  assert (H : Warnings.justified (Config.output_limit_warn jail) (Runner.final r)).
  { unfold Runner.program_runner in Hr. rewrite Hj in Hr.
    destruct (Runner.build_commands (Config.all_switches config) jail target_compiler received)
      as [commands|]; injection Hr as <-.
    - apply justified_run_commands; [exact Hs|].
      repeat split; cbn; [vm_compute; discriminate | constructor].
    - repeat split; cbn; [vm_compute; discriminate | constructor]. }
  destruct H as (_ & _ & H). eapply Forall_impl; [|exact H].
  intros k Hk E. specialize (Hk E). lia.
Qed.

Lemma no_sigxfsz_within_the_warn_limit_witness :
  Forall (fun k : nat * Posix.signal => snd k <> Posix.SIGXFSZ) [(0%nat, Posix.SIGXCPU)].
Proof.
  exact (no_sigxfsz_within_the_warn_limit Sample.strsignal Sample.config Sample.gcc []
           Sample.jail
           [Runner.Runs [Runner.EvStdinWritten; Runner.EvChunk true "warning";
                         Runner.EvTimer; Runner.EvEof false; Runner.EvPosted false;
                         Runner.EvEof true; Runner.EvPosted true;
                         Runner.EvSigchld (Some 9)]]
           _ eq_refl eq_refl eq_refl ltac:(vm_compute; discriminate)).
Defined.

(* ===================================================================== *)
(** * PathStager: what the kernel is asked *)
(* ===================================================================== *)

Section SegmentCalls.

Import Posix.

Context {K : Type} (ops : kernel K).

Variables flags dirmode filemode : Z.








End SegmentCalls.

